(** * Channels of the Plan 9 compatibility layer (cogcity.c)

    A shallow embedding of [chancreate], [chanfree], [chansend], [chanrecv],
    [channbsend], [channbrecv], [alt], [chanlen] and [chanclose] of
    sys/src/cmd/cogcity/cogcity.c, with the structures of plan9_compat.h.

    Modelling conventions.
    - A C [int] is a [Z]; arithmetic that the code performs on [int]s is
      wrapped to 32 bits by [wrap_int], and [%] is the truncating remainder,
      undefined for a zero divisor.
    - The heap maps addresses to [Channel] structures; a [Channel*] is an
      [option nat], [None] being [nil].
    - The buffer is modelled at the granularity of elements: it is [nil] or
      an array of slots, each holding one element, i.e. the [elemsize] bytes
      that one [memcpy] moves.  Elements are values of a type [V].  The
      array has one slot for every element that lies inside the bytes
      [malloc] was asked for: [bufsize] of them when [elemsize * bufsize]
      is an [int], fewer when the product wraps.  An access to a slot
      outside the array is undefined behaviour.  Where [elemsize] is 0 no
      byte is ever moved, and [chancreate] gives the channel no storage.
    - The code between [pthread_mutex_lock] and the matching unlock (or the
      [pthread_cond_wait] that releases the mutex) runs atomically.  The
      field [lock] is [true] while another thread is inside such a section.
    - A call either returns ([Ret]), suspends its thread ([Block]) on the
      mutex or on one of the two condition variables, or has undefined
      behaviour ([Fault]).  Condition variables carry no state: a waiting
      thread may be woken at any time and re-tests its loop condition. *)

From Stdlib Require Import ZArith Lia.
From stdpp Require Import base option list gmap relations.

Local Open Scope Z_scope.

(** ** Machine integers *)

Definition INT_MAX : Z := 2147483647.
Definition INT_MIN : Z := -2147483648.

Definition wrap_int (z : Z) : Z := (z + 2147483648) mod 4294967296 - 2147483648.

(** C's [a % b] on [int]s: no value for [b = 0] nor for [INT_MIN % -1]. *)
Definition c_rem (a b : Z) : option Z :=
  if (b =? 0) || ((a =? INT_MIN) && (b =? -1)) then None else Some (Z.rem a b).

(** Alt operations (the anonymous enum of plan9_compat.h). *)
Definition CHANRCV : Z := 1.
Definition CHANSND : Z := 2.
Definition CHANNOP : Z := 3.
Definition CHANNOBLK : Z := 4.
Definition CHANEND : Z := 5.

(** What a suspended thread waits for. *)
Inductive waitfor := notempty | notfull | mutex.

(** [(size_t)n] for an [int] [n]: [size_t] has 64 bits. *)
Definition size_t (n : Z) : Z := n mod 18446744073709551616.

(** The number of slots of a buffer of [(size_t)n] bytes that a channel of
    [bufsize] elements of [elemsize > 0] bytes can use.  Slot [i] starts at
    the byte offset [i * elemsize], which the code computes as an [int],
    and is inside the buffer when [(i + 1) * elemsize <= (size_t)n].  The
    usable slots are counted from slot 0 up to the first that is not. *)
Definition buf_slots (elemsize bufsize n : Z) : nat :=
  if 0 <? elemsize then
    Z.to_nat (Z.min bufsize
                (Z.min (size_t n / elemsize) (INT_MAX / elemsize + 1)))
  else 0%nat.

Section Channels.
Context {V : Type}.

(** ** struct Channel *)

Record Channel := mkChannel {
  buf : option (list V);
  elemsize : Z;
  bufsize : Z;
  nbuf : Z;
  off : Z;
  lock : bool;
  closed : Z
}.

Definition set_closed (ch : Channel) (x : Z) : Channel :=
  mkChannel (buf ch) (elemsize ch) (bufsize ch) (nbuf ch) (off ch) (lock ch) x.

(** ** struct Alt: [err] and [entryno] are never read nor written by [alt];
    [v] is the content of the value slot the entry points to. *)
Record Alt := mkAlt {
  c : option nat;
  v : V;
  op : Z
}.

Definition set_v (e : Alt) (x : V) : Alt := mkAlt (c e) x (op e).

(** ** Outcomes *)

Inductive outcome (R : Type) :=
| Ret (r : R) (h : gmap nat Channel)
| Block (a : nat) (w : waitfor) (h : gmap nat Channel)
| Fault.
Global Arguments Ret {R} r h.
Global Arguments Block {R} a w h.
Global Arguments Fault {R}.

(** The allocator seen by [chancreate]: whether [malloc(sizeof(Channel))]
    succeeds, whether [malloc] of a given byte count succeeds, and what the
    uninitialised slots of a fresh buffer hold. *)
Record Malloc := mkMalloc {
  malloc_chan : bool;
  malloc_buf : Z -> bool;
  junk : nat -> V
}.

(** What [malloc(n)] provides as storage for elements of [elemsize] bytes,
    [n] being the [int] the code computes for [elemsize * bufsize].
    With [elemsize = 0] no [memcpy] moves a byte and the buffer is never
    read nor written: there is no storage, as for a nil buffer.  Otherwise
    the storage is the array of the slots inside the [n] bytes, none for a
    negative [elemsize]. *)
Definition storage (elemsize bufsize n : Z) (m : Malloc) : option (list V) :=
  if elemsize =? 0 then None
  else Some (junk m <$> seq 0 (buf_slots elemsize bufsize n)).

(** ** chancreate (cogcity.c:579) *)
Definition chancreate (elemsize bufsize : Z) (m : Malloc) (h : gmap nat Channel)
  : option nat * gmap nat Channel :=
  if negb (malloc_chan m) then (None, h)
  else
    let a := fresh (dom h) in
    if 0 <? bufsize then
      let n := wrap_int (elemsize * bufsize) in
      if malloc_buf m n then
        (Some a,
         <[a := mkChannel (storage elemsize bufsize n m)
                          elemsize bufsize 0 0 false 0]> h)
      else (None, h)
    else (Some a, <[a := mkChannel None elemsize bufsize 0 0 false 0]> h).

(** ** chanfree (cogcity.c:607) *)
Definition chanfree (c : option nat) (h : gmap nat Channel) : outcome unit :=
  match c with
  | None => Ret tt h
  | Some a =>
      match h !! a with
      | None => Fault
      | Some _ => Ret tt (delete a h)
      end
  end.

(** The common tail of [chansend] and [channbsend]:
    [if (c->buf) { dst = buf + ((off + nbuf) % bufsize) * elemsize;
                   memcpy(dst, v, elemsize); }  c->nbuf++;]
    [None] when the remainder is undefined or [dst] is outside the buffer. *)
Definition enqueue (ch : Channel) (x : V) : option Channel :=
  match buf ch with
  | Some b =>
      match c_rem (wrap_int (off ch + nbuf ch)) (bufsize ch) with
      | None => None
      | Some i =>
          if (0 <=? i) && (i <? Z.of_nat (length b)) then
            Some (mkChannel (Some (<[Z.to_nat i := x]> b)) (elemsize ch)
                    (bufsize ch) (wrap_int (nbuf ch + 1)) (off ch) (lock ch)
                    (closed ch))
          else None
      end
  | None =>
      Some (mkChannel None (elemsize ch) (bufsize ch) (wrap_int (nbuf ch + 1))
              (off ch) (lock ch) (closed ch))
  end.

(** The common tail of [chanrecv] and [channbrecv]:
    [if (c->buf) { src = buf + off * elemsize; memcpy(v, src, elemsize); }
     c->off = (c->off + 1) % c->bufsize;  c->nbuf--;]
    The first component is the content of the receiver's slot afterwards
    ([x], its previous content, when nothing is copied). *)
Definition dequeue (ch : Channel) (x : V) : option (V * Channel) :=
  match
    match buf ch with
    | Some b =>
        if (0 <=? off ch) && (off ch <? Z.of_nat (length b))
        then b !! Z.to_nat (off ch) else None
    | None => Some x
    end
  with
  | None => None
  | Some y =>
      match c_rem (wrap_int (off ch + 1)) (bufsize ch) with
      | None => None
      | Some o =>
          Some (y, mkChannel (buf ch) (elemsize ch) (bufsize ch)
                     (wrap_int (nbuf ch - 1)) o (lock ch) (closed ch))
      end
  end.

(** ** chansend (cogcity.c:619) *)

(** From the head of the [while] loop on, mutex held. *)
Definition chansend_wait (a : nat) (ch : Channel) (x : V) (h : gmap nat Channel)
  : outcome Z :=
  if (bufsize ch <=? nbuf ch) && (closed ch =? 0) then Block a notfull h
  else if negb (closed ch =? 0) then Ret (-1) h
  else
    match enqueue ch x with
    | None => Fault
    | Some ch' => Ret 1 (<[a := ch']> h)
    end.

Definition chansend (c : option nat) (x : V) (h : gmap nat Channel) : outcome Z :=
  match c with
  | None => Ret (-1) h
  | Some a =>
      match h !! a with
      | None => Fault
      | Some ch =>
          if lock ch then Block a mutex h
          else if negb (closed ch =? 0) then Ret (-1) h
          else chansend_wait a ch x h
      end
  end.

(** A sender suspended in [pthread_cond_wait] or [pthread_mutex_lock] that is
    woken: it takes the mutex and continues where it stopped. *)
Definition chansend_wake (a : nat) (w : waitfor) (x : V) (h : gmap nat Channel)
  : outcome Z :=
  match w with
  | mutex => chansend (Some a) x h
  | _ =>
      match h !! a with
      | None => Fault
      | Some ch => if lock ch then Block a w h else chansend_wait a ch x h
      end
  end.

(** ** chanrecv (cogcity.c:651) *)

Definition chanrecv_wait (a : nat) (ch : Channel) (x : V) (h : gmap nat Channel)
  : outcome (Z * V) :=
  if (nbuf ch <=? 0) && (closed ch =? 0) then Block a notempty h
  else if (nbuf ch <=? 0) && negb (closed ch =? 0) then Ret (-1, x) h
  else
    match dequeue ch x with
    | None => Fault
    | Some (y, ch') => Ret (1, y) (<[a := ch']> h)
    end.

Definition chanrecv (c : option nat) (x : V) (h : gmap nat Channel)
  : outcome (Z * V) :=
  match c with
  | None => Ret (-1, x) h
  | Some a =>
      match h !! a with
      | None => Fault
      | Some ch => if lock ch then Block a mutex h else chanrecv_wait a ch x h
      end
  end.

Definition chanrecv_wake (a : nat) (w : waitfor) (x : V) (h : gmap nat Channel)
  : outcome (Z * V) :=
  match w with
  | mutex => chanrecv (Some a) x h
  | _ =>
      match h !! a with
      | None => Fault
      | Some ch => if lock ch then Block a w h else chanrecv_wait a ch x h
      end
  end.

(** ** channbsend (cogcity.c:680) *)
Definition channbsend (c : option nat) (x : V) (h : gmap nat Channel) : outcome Z :=
  match c with
  | None => Ret 0 h
  | Some a =>
      match h !! a with
      | None => Fault
      | Some ch =>
          if lock ch then Ret 0 h
          else if negb (closed ch =? 0) || (bufsize ch <=? nbuf ch) then Ret 0 h
          else
            match enqueue ch x with
            | None => Fault
            | Some ch' => Ret 1 (<[a := ch']> h)
            end
      end
  end.

(** ** channbrecv (cogcity.c:705) *)
Definition channbrecv (c : option nat) (x : V) (h : gmap nat Channel)
  : outcome (Z * V) :=
  match c with
  | None => Ret (0, x) h
  | Some a =>
      match h !! a with
      | None => Fault
      | Some ch =>
          if lock ch then Ret (0, x) h
          else if nbuf ch <=? 0 then Ret (0, x) h
          else
            match dequeue ch x with
            | None => Fault
            | Some (y, ch') => Ret (1, y) (<[a := ch']> h)
            end
      end
  end.

(** ** chanlen (cogcity.c:819) *)
Definition chanlen (c : option nat) (h : gmap nat Channel) : outcome Z :=
  match c with
  | None => Ret 0 h
  | Some a =>
      match h !! a with
      | None => Fault
      | Some ch => if lock ch then Block a mutex h else Ret (nbuf ch) h
      end
  end.

(** ** chanclose (cogcity.c:830) *)
Definition chanclose (c : option nat) (h : gmap nat Channel) : outcome unit :=
  match c with
  | None => Ret tt h
  | Some a =>
      match h !! a with
      | None => Fault
      | Some ch =>
          if lock ch then Block a mutex h
          else Ret tt (<[a := set_closed ch 1]> h)
      end
  end.

(** ** alt (cogcity.c:732)

    [alts] is the array as it stands, [rest] its part from index [i] on.
    Running off the end of the array (no [CHANEND] entry) is [AltFault].
    An entry's slot content after the call is stored back in the array. *)

Inductive alt_outcome :=
| AltRet (i : Z) (alts : list Alt) (h : gmap nat Channel)
| AltBlock (i : nat) (a : nat) (w : waitfor) (alts : list Alt)
    (h : gmap nat Channel)
| AltFault.

(** What the second loop does with entry [i] once its [chanrecv] returned. *)
Definition alt_recv_done (k : list Alt -> gmap nat Channel -> alt_outcome)
    (i : nat) (e : Alt) (alts : list Alt) (o : outcome (Z * V)) : alt_outcome :=
  match o with
  | Ret (r, y) h' =>
      let alts' := <[i := set_v e y]> alts in
      if 0 <? r then AltRet (Z.of_nat i) alts' h' else k alts' h'
  | Block a w h' => AltBlock i a w alts h'
  | Fault => AltFault
  end.

(** The same for [chansend]. *)
Definition alt_send_done (k : list Alt -> gmap nat Channel -> alt_outcome)
    (i : nat) (alts : list Alt) (o : outcome Z) : alt_outcome :=
  match o with
  | Ret r h' => if 0 <? r then AltRet (Z.of_nat i) alts h' else k alts h'
  | Block a w h' => AltBlock i a w alts h'
  | Fault => AltFault
  end.

(** The second loop: "If no channel ready, block on first available". *)
Fixpoint alt_block (rest : list Alt) (i : nat) (alts : list Alt)
    (h : gmap nat Channel) : alt_outcome :=
  match rest with
  | [] => AltFault
  | e :: rest' =>
      if op e =? CHANEND then AltRet (-1) alts h
      else if op e =? CHANRCV then
        alt_recv_done (alt_block rest' (S i)) i e alts (chanrecv (c e) (v e) h)
      else if op e =? CHANSND then
        alt_send_done (alt_block rest' (S i)) i alts (chansend (c e) (v e) h)
      else alt_block rest' (S i) alts h
  end.

(** The first loop: "just try each channel once". *)
Fixpoint alt_poll (rest : list Alt) (i : nat) (alts : list Alt)
    (h : gmap nat Channel) : alt_outcome :=
  match rest with
  | [] => AltFault
  | e :: rest' =>
      if op e =? CHANEND then alt_block alts 0 alts h
      else if op e =? CHANNOBLK then AltRet (Z.of_nat i) alts h
      else if op e =? CHANRCV then
        match channbrecv (c e) (v e) h with
        | Ret (r, y) h' =>
            let alts' := <[i := set_v e y]> alts in
            if negb (r =? 0) then AltRet (Z.of_nat i) alts' h'
            else alt_poll rest' (S i) alts' h'
        | Block a w h' => AltBlock i a w alts h'
        | Fault => AltFault
        end
      else if op e =? CHANSND then
        match channbsend (c e) (v e) h with
        | Ret r h' =>
            if negb (r =? 0) then AltRet (Z.of_nat i) alts h'
            else alt_poll rest' (S i) alts h'
        | Block a w h' => AltBlock i a w alts h'
        | Fault => AltFault
        end
      else alt_poll rest' (S i) alts h
  end.

Definition alt (alts : list Alt) (h : gmap nat Channel) : alt_outcome :=
  alt_poll alts 0 alts h.


End Channels.

Global Arguments Channel V : clear implicits.
Global Arguments Alt V : clear implicits.
Global Arguments Malloc V : clear implicits.
Global Arguments outcome V R : clear implicits.
Global Arguments alt_outcome V : clear implicits.

(** * The channel as a transition system

    Threads interleave at the granularity of critical sections.  A [call]
    is one such section: a call of one of the operations, or the
    continuation of a suspended sender or receiver that has been woken. *)

Section Steps.
Context {V : Type}.
Implicit Types (h : gmap nat (Channel V)) (ch : Channel V) (x y : V).

Inductive call :=
| Send (x : V) | Recv (x : V) | NbSend (x : V) | NbRecv (x : V)
| Len | Close
| SendWake (w : waitfor) (x : V) | RecvWake (w : waitfor) (x : V).

(** The heap a call leaves behind, whether it returned or suspended. *)
Definition heap_after {R} (o : outcome V R) : option (gmap nat (Channel V)) :=
  match o with
  | Ret _ h' => Some h'
  | Block _ _ h' => Some h'
  | Fault => None
  end.

Definition perform (k : call) (p : option nat) h : option (gmap nat (Channel V)) :=
  match k with
  | Send x => heap_after (chansend p x h)
  | Recv x => heap_after (chanrecv p x h)
  | NbSend x => heap_after (channbsend p x h)
  | NbRecv x => heap_after (channbrecv p x h)
  | Len => heap_after (chanlen p h)
  | Close => heap_after (chanclose p h)
  | SendWake w x => a ← p; heap_after (chansend_wake a w x h)
  | RecvWake w x => a ← p; heap_after (chanrecv_wake a w x h)
  end.

Definition step h h' : Prop := ∃ k p, perform k p h = Some h'.

(** What one critical section can do to the channel it works on. *)
Inductive chan_step ch : Channel V → Prop :=
| cs_enqueue x ch' :
    lock ch = false → closed ch = 0 → nbuf ch < bufsize ch →
    enqueue ch x = Some ch' → chan_step ch ch'
| cs_dequeue x y ch' :
    lock ch = false → 0 < nbuf ch →
    dequeue ch x = Some (y, ch') → chan_step ch ch'
| cs_close :
    lock ch = false → chan_step ch (set_closed ch 1).

(** ** The invariant of the data model *)

Definition chan_inv ch : Prop :=
  0 ≤ nbuf ch ≤ bufsize ch ∧ (0 < bufsize ch → 0 ≤ off ch < bufsize ch).

(** The buffer is there exactly when the capacity is positive, and has one
    slot per unit of capacity. *)
Definition buf_ok ch : Prop :=
  match buf ch with
  | Some b => 0 < bufsize ch ∧ Z.of_nat (length b) = bufsize ch
  | None => bufsize ch ≤ 0
  end.

(** The queue held by a channel, front first: slot [(off + i) mod bufsize]
    for [i < nbuf]. *)
Definition slot ch (i : nat) : option V :=
  b ← buf ch; b !! Z.to_nat ((off ch + Z.of_nat i) mod bufsize ch).

Definition contents ch : list V := omap (slot ch) (seq 0 (Z.to_nat (nbuf ch))).

(** A channel in a state the operations can work on: the invariant, a
    buffer of the right shape, and a capacity that is an [int]. *)
Definition chan_ok ch : Prop :=
  chan_inv ch ∧ buf_ok ch ∧ bufsize ch ≤ INT_MAX.

(** ** Calls in sequence by one thread

    The next call starts when the previous one has returned; a call that
    suspends or faults ends the sequence. *)

Definition and_then {R S} (o : outcome V R)
    (k : R → gmap nat (Channel V) → outcome V S) : outcome V S :=
  match o with
  | Ret r h' => k r h'
  | Block a w h' => Block a w h'
  | Fault => Fault
  end.

(** [chansend] of each element of [xs] in turn; the return codes. *)
Fixpoint send_all (p : option nat) (xs : list V) h : outcome V (list Z) :=
  match xs with
  | [] => Ret [] h
  | x :: xs' =>
      and_then (chansend p x h) (λ r h',
        and_then (send_all p xs' h') (λ rs h'', Ret (r :: rs) h''))
  end.

(** [n] times [chanrecv] into a variable that holds [x] before each call;
    the return codes and what the variable holds after each call. *)
Fixpoint recv_n (p : option nat) (n : nat) x h : outcome V (list (Z * V)) :=
  match n with
  | O => Ret [] h
  | S n' =>
      and_then (chanrecv p x h) (λ r h',
        and_then (recv_n p n' x h') (λ rs h'', Ret (r :: rs) h''))
  end.

End Steps.

(** ** What [alt] sees of an entry *)

Section Entries.
Context {V : Type}.
Implicit Types (h : gmap nat (Channel V)) (e : Alt V).

(** The code a call returned, if it returned. *)
Definition code_of {R} (f : R → Z) (o : outcome V R) : option Z :=
  match o with
  | Ret r _ => Some (f r)
  | _ => None
  end.

(** The first loop goes past [e]: [e] is neither the sentinel nor a
    [CHANNOBLK] entry, and if it is a receive or a send its non-blocking
    variant returns 0. *)
Definition not_ready h e : Prop :=
  op e ≠ CHANEND ∧ op e ≠ CHANNOBLK ∧
  (op e = CHANRCV → code_of fst (channbrecv (c e) (v e) h) = Some 0) ∧
  (op e = CHANSND → code_of id (channbsend (c e) (v e) h) = Some 0).

(** The second loop goes past [e]: [e] is not the sentinel, and if it is a
    receive or a send its blocking variant returns at once with a code
    that is not positive. *)
Definition fails_at_once h e : Prop :=
  op e ≠ CHANEND ∧
  (op e = CHANRCV →
     ∃ r, code_of fst (chanrecv (c e) (v e) h) = Some r ∧ r ≤ 0) ∧
  (op e = CHANSND →
     ∃ r, code_of id (chansend (c e) (v e) h) = Some r ∧ r ≤ 0).


(** A receive on a closed, empty channel or a send on a closed channel. *)
Definition on_closed h e : Prop :=
  ∃ a ch, c e = Some a ∧ h !! a = Some ch ∧ lock ch = false ∧ closed ch ≠ 0 ∧
          ((op e = CHANRCV ∧ nbuf ch ≤ 0) ∨ op e = CHANSND).

(** [alt]'s outcome does not single out a receive on a closed, empty
    channel nor a send on a closed channel: it neither returns the index
    of such an entry nor is suspended in one. *)
Definition avoids_closed h (alts : list (Alt V)) (o : alt_outcome V) : Prop :=
  match o with
  | AltRet i _ _ => ∀ e, 0 ≤ i → alts !! Z.to_nat i = Some e → ¬ on_closed h e
  | AltBlock i _ _ _ _ => ∀ e, alts !! i = Some e → ¬ on_closed h e
  | AltFault => True
  end.

(** The outcome [o] of [alt] on an array, as it reads on the array that
    has the entry [e] in addition, at index [n]: the indices from [n] on
    are one higher. *)
Definition with_entry (n : nat) e (o : alt_outcome V) : alt_outcome V :=
  match o with
  | AltRet i alts h' =>
      AltRet (if Z.of_nat n <=? i then i + 1 else i)
        (take n alts ++ e :: drop n alts) h'
  | AltBlock i a w alts h' =>
      AltBlock (if (n <=? i)%nat then S i else i) a w
        (take n alts ++ e :: drop n alts) h'
  | AltFault => AltFault
  end.

(** [alt] changes the heap by at most one call: the one it returns from
    or is suspended in. *)
Definition one_call h (o : alt_outcome V) : Prop :=
  match o with
  | AltRet _ _ h' => h' = h ∨ step h h'
  | AltBlock _ _ _ _ h' => h' = h ∨ step h h'
  | AltFault => True
  end.

End Entries.

(** ** Return codes and concrete data

    The outcome a caller reads from a return code: callers test [> 0] for
    success and [< 0] for failure (cogcity.c:108, 118, 754, 758); 0 is what
    a non-blocking call returns when it did nothing. *)
Inductive status := Success | WouldBlock | ClosedError.

Definition status_of (r : Z) : status :=
  if 0 <? r then Success else if r <? 0 then ClosedError else WouldBlock.

(** An allocator that never fails and hands out zeroed slots. *)
Definition always_ok : Malloc Z := mkMalloc true (λ _, true) (λ _, 0).

(** A channel of [int]s of capacity 3 holding [q] (at most 3 values) from
    slot 0 on, and a heap with only that channel, at address 0. *)
Definition chan_of (q : list Z) (cl : Z) : Channel Z :=
  mkChannel (Some (take 3 (q ++ [0; 0; 0]))) 4 3 (Z.of_nat (length q)) 0 false cl.

Definition heap_of (q : list Z) (cl : Z) : gmap nat (Channel Z) :=
  {[ 0%nat := chan_of q cl ]}.

(** A heap with one channel, at address 0. *)
Definition heap_with (ch : Channel Z) : gmap nat (Channel Z) := {[ 0%nat := ch ]}.

(** A heap with one channel of capacity 0, at address 0. *)
Definition zero_cap (cl : Z) : gmap nat (Channel Z) :=
  {[ 0%nat := mkChannel None 4 0 0 0 false cl ]}.

(** Two channels: channel 0 holds [q0] and has closed flag [cl0], channel 1
    holds [q1] and is open. *)
Definition two_chans (q0 : list Z) (cl0 : Z) (q1 : list Z)
  : gmap nat (Channel Z) :=
  {[ 0%nat := chan_of q0 cl0; 1%nat := chan_of q1 0 ]}.


(** A channel of words (8 bytes) of capacity 3 holding [q], as [chan_of]. *)
Definition word_chan (q : list Z) (cl : Z) : Channel Z :=
  mkChannel (Some (take 3 (q ++ [0; 0; 0]))) 8 3 (Z.of_nat (length q)) 0 false cl.

(** [{c0, &x, CHANRCV}, {c1, &y, CHANRCV}, {nil, nil, CHANEND}] *)
Definition recv_recv : list (Alt Z) :=
  [mkAlt (Some 0%nat) 0 CHANRCV; mkAlt (Some 1%nat) 0 CHANRCV; mkAlt None 0 CHANEND].

(** [{c0, &x, CHANSND}, {c1, &y, CHANRCV}, {nil, nil, CHANEND}], [x = 7] *)
Definition send_recv : list (Alt Z) :=
  [mkAlt (Some 0%nat) 7 CHANSND; mkAlt (Some 1%nat) 0 CHANRCV; mkAlt None 0 CHANEND].

(** ** Histories

    What the threads of a program see of a channel over time: the values
    the send calls put in and the values the receive calls took out. *)

Section Runs.
Context {V : Type}.
Implicit Types (h : gmap nat (Channel V)) (ch : Channel V) (x y : V).

Inductive event := Sent (a : nat) (x : V) | Rcvd (a : nat) (y : V).

(** A send of [x] on channel [b] counts when the call returned a positive
    code, a receive when it did and then with the value it delivered. *)
Definition sent_event (b : nat) x (o : outcome V Z) : list event :=
  match o with
  | Ret r _ => if 0 <? r then [Sent b x] else []
  | _ => []
  end.

Definition rcvd_event (b : nat) (o : outcome V (Z * V)) : list event :=
  match o with
  | Ret (r, y) _ => if 0 <? r then [Rcvd b y] else []
  | _ => []
  end.

Definition events (k : call) (p : option nat) h : list event :=
  match p with
  | None => []
  | Some b =>
      match k with
      | Send x => sent_event b x (chansend p x h)
      | NbSend x => sent_event b x (channbsend p x h)
      | SendWake w x => sent_event b x (chansend_wake b w x h)
      | Recv x => rcvd_event b (chanrecv p x h)
      | NbRecv x => rcvd_event b (channbrecv p x h)
      | RecvWake w x => rcvd_event b (chanrecv_wake b w x h)
      | Len => []
      | Close => []
      end
  end.

(** [run h t h']: some interleaving of calls by any number of threads
    takes the heap from [h] to [h'] and shows the events [t], in order. *)
Inductive run : gmap nat (Channel V) → list event → gmap nat (Channel V) → Prop :=
| run_done h : run h [] h
| run_call k p h h1 t h2 :
    perform k p h = Some h1 → run h1 t h2 → run h (events k p h ++ t) h2.

Definition sent_on (a : nat) (t : list event) : list V :=
  omap (λ e, match e with
             | Sent b x => if decide (b = a) then Some x else None
             | Rcvd _ _ => None
             end) t.

Definition rcvd_on (a : nat) (t : list event) : list V :=
  omap (λ e, match e with
             | Rcvd b y => if decide (b = a) then Some y else None
             | Sent _ _ => None
             end) t.

(** The ways a send of [x] on the channel at [a] can end: undefined
    behaviour; suspended, nothing changed; returned without success,
    nothing changed; or returned 1 after one [enqueue] on an open, unlocked
    channel that had room. *)
Definition send_result (a : nat) x h (o : outcome V Z) : Prop :=
  o = Fault ∨
  (∃ w, o = Block a w h) ∨
  (∃ r, o = Ret r h ∧ r ≤ 0) ∨
  (∃ ch ch', h !! a = Some ch ∧ lock ch = false ∧ closed ch = 0 ∧
             nbuf ch < bufsize ch ∧ enqueue ch x = Some ch' ∧
             o = Ret 1 (<[a := ch']> h)).

(** The same for a receive into a variable that holds [x]. *)
Definition recv_result (a : nat) x h (o : outcome V (Z * V)) : Prop :=
  o = Fault ∨
  (∃ w, o = Block a w h) ∨
  (∃ r, o = Ret (r, x) h ∧ r ≤ 0) ∨
  (∃ ch y ch', h !! a = Some ch ∧ lock ch = false ∧ 0 < nbuf ch ∧
               dequeue ch x = Some (y, ch') ∧
               o = Ret (1, y) (<[a := ch']> h)).

(** A channel on which the index arithmetic of [enqueue] cannot overflow:
    well-formed, unlocked, and of capacity at most [2^30]. *)
Definition chan_small ch : Prop :=
  chan_ok ch ∧ lock ch = false ∧ bufsize ch ≤ 1073741824.

End Runs.

(** ** What one call of [alt] amounts to

    [selects h alts o]: the outcome [o] of [alt alts h] is that of exactly
    one entry.  Either nothing happened (return -1, or a [CHANNOBLK] entry
    was found), or the caller is suspended in the blocking call of one send
    or receive entry with heap and array as they were, or the call returns
    the index of one send or receive entry after one [enqueue] or one
    [dequeue] on that entry's channel, with only that channel and, for a
    receive, only that entry's slot changed. *)

Section Selection.
Context {V : Type}.
Implicit Types (h : gmap nat (Channel V)) (e : Alt V).

Definition selects h (alts : list (Alt V)) (o : alt_outcome V) : Prop :=
  match o with
  | AltFault => True
  | AltBlock n a w alts' h' =>
      alts' = alts ∧ h' = h ∧
      ∃ e, alts !! n = Some e ∧ c e = Some a ∧
           (op e = CHANRCV ∨ op e = CHANSND)
  | AltRet i alts' h' =>
      (i = -1 ∧ alts' = alts ∧ h' = h) ∨
      ∃ n e, i = Z.of_nat n ∧ alts !! n = Some e ∧
        ((op e = CHANNOBLK ∧ alts' = alts ∧ h' = h) ∨
         (op e = CHANRCV ∧
          ∃ a y ch ch', c e = Some a ∧ h !! a = Some ch ∧ 0 < nbuf ch ∧
                        dequeue ch (v e) = Some (y, ch') ∧
                        h' = <[a := ch']> h ∧
                        alts' = <[n := set_v e y]> alts) ∨
         (op e = CHANSND ∧
          ∃ a ch ch', c e = Some a ∧ h !! a = Some ch ∧
                      nbuf ch < bufsize ch ∧ closed ch = 0 ∧
                      enqueue ch (v e) = Some ch' ∧
                      h' = <[a := ch']> h ∧ alts' = alts))
  end.

End Selection.

(** ** The word-sized wrappers (cogcity.c:767-817)

    [void*] and [ulong] are words of 8 bytes (the Linux build, LP64), here
    a [Z] in [0, 2^64), with [nil = 0].  A wrapper passes [chansend] or
    [chanrecv] the address of a word variable of its own, and the [memcpy]
    there moves [c->elemsize] bytes, not 8: the low bytes of the word, the
    machine being little-endian.  An element of such a channel is the
    number its [elemsize] bytes spell.  With [elemsize] above 8 or below 0
    the [memcpy] leaves the variable: undefined behaviour. *)

Definition word_fits (elemsize : Z) : bool := (0 <=? elemsize) && (elemsize <=? 8).

(** The number spelled by the low [n] bytes of the word [w]. *)
Definition low_bytes (n w : Z) : Z := w mod 2 ^ (8 * n).

(** The word [w] after its low [n] bytes were overwritten with the
    element [y]. *)
Definition splice (n w y : Z) : Z :=
  (w mod 2 ^ 64) / 2 ^ (8 * n) * 2 ^ (8 * n) + y mod 2 ^ (8 * n).

(** The channel a handle points to, if any. *)
Definition chan_at (c : option nat) (h : gmap nat (Channel Z))
  : option (Channel Z) := c ≫= (λ a, h !! a).

(** Whether [if (c->buf) memcpy(...)] copies. *)
Definition copies (ch : Channel Z) : bool :=
  match buf ch with Some _ => true | None => false end.

(** [send(c, &v)] for a word variable [v], [send] being [chansend] or
    [channbsend]: the call, of which the [memcpy], made when the call
    succeeds on a channel with a buffer, reads [elemsize] bytes of [v]. *)
Definition send_word
    (send : option nat → Z → gmap nat (Channel Z) → outcome Z Z)
    (c : option nat) (v : Z) (h : gmap nat (Channel Z)) : outcome Z Z :=
  match chan_at c h with
  | None => send c v h
  | Some ch =>
      match send c (low_bytes (elemsize ch) v) h with
      | Ret r h' =>
          if (0 <? r) && copies ch && negb (word_fits (elemsize ch))
          then Fault else Ret r h'
      | Block a w h' => Block a w h'
      | Fault => Fault
      end
  end.

(** [recv(c, &v)] for a word variable [v] that holds [w], [recv] being
    [chanrecv] or [channbrecv]: the return code and what [v] holds
    afterwards.  The [memcpy], made when the call succeeds on a channel
    with a buffer, overwrites [elemsize] bytes of [v]. *)
Definition recv_word
    (recv : option nat → Z → gmap nat (Channel Z) → outcome Z (Z * Z))
    (c : option nat) (w : Z) (h : gmap nat (Channel Z)) : outcome Z (Z * Z) :=
  match recv c w h with
  | Ret (r, y) h' =>
      match chan_at c h with
      | Some ch =>
          if (0 <? r) && copies ch then
            if word_fits (elemsize ch)
            then Ret (r, splice (elemsize ch) w y) h' else Fault
          else Ret (r, w) h'
      | None => Ret (r, w) h'
      end
  | Block a w' h' => Block a w' h'
  | Fault => Fault
  end.

(** The local variable a receive wrapper reads into is not initialised:
    the argument [junk] is what it holds before the call. *)

Definition sendp (c : option nat) (v : Z) (h : gmap nat (Channel Z))
  : outcome Z Z := send_word chansend c v h.

Definition recvp (c : option nat) (junk : Z) (h : gmap nat (Channel Z))
  : outcome Z Z :=
  match recv_word chanrecv c junk h with
  | Ret (r, v) h' => Ret (if 0 <? r then v else 0) h'
  | Block a w h' => Block a w h'
  | Fault => Fault
  end.

Definition nbsendp (c : option nat) (v : Z) (h : gmap nat (Channel Z))
  : outcome Z Z := send_word channbsend c v h.

Definition nbrecvp (c : option nat) (junk : Z) (h : gmap nat (Channel Z))
  : outcome Z Z :=
  match recv_word channbrecv c junk h with
  | Ret (r, v) h' => Ret (if 0 <? r then v else 0) h'
  | Block a w h' => Block a w h'
  | Fault => Fault
  end.

Definition sendul (c : option nat) (v : Z) (h : gmap nat (Channel Z))
  : outcome Z Z := send_word chansend c v h.

Definition recvul (c : option nat) (junk : Z) (h : gmap nat (Channel Z))
  : outcome Z Z :=
  match recv_word chanrecv c junk h with
  | Ret (r, v) h' => Ret (if 0 <? r then v else 0) h'
  | Block a w h' => Block a w h'
  | Fault => Fault
  end.

Definition nbsendul (c : option nat) (v : Z) (h : gmap nat (Channel Z))
  : outcome Z Z := send_word channbsend c v h.

(** [v] is what [*v] holds before the call; the second component of the
    result is what it holds afterwards. *)
Definition nbrecvul (c : option nat) (v : Z) (h : gmap nat (Channel Z))
  : outcome Z (Z * Z) := recv_word channbrecv c v h.

(** ** tensor_bundle_multiplex (cogcity.c:98)

    [struct TensorBundle] of cogcity.h without its two function pointers.
    A [double] is a value of a type [D]; the addition of doubles and the
    conversion from [ulong] are parameters.  What [print] writes is kept
    as a list of messages. *)

Module Tensor.
Section Tensor.
Context {D : Type} (dadd : D → D → D) (d_of_ulong : Z → D).

Definition TENSOR_MUX : Z := 1.
Definition TENSOR_DEMUX : Z := 2.
Definition TENSOR_TRANSFORM : Z := 3.
Definition TENSOR_REDUCE : Z := 4.
Definition TENSOR_BROADCAST : Z := 5.
Definition TENSOR_AGGREGATE : Z := 6.

Record TensorBundle := mkTensorBundle {
  id : Z;
  dimensions : Z;
  data : list D;
  channels : list (option nat);
  channel_count : Z;
  operation : Z
}.

Inductive msg :=
| Multiplexing (bundle : Z)        (* "Multiplexing tensor bundle %d" *)
| ChannelFull (i : Z).             (* "Channel %d full, buffering data" *)

(** [for (i = ...; i < tb->channel_count; i++) if (nbsendul(...) < 0) print(...)],
    with [n] iterations to go. *)
Fixpoint mux_loop (n : nat) (i : Z) (tb : TensorBundle) (p : Z)
    (log : list msg) (h : gmap nat (Channel Z)) : outcome Z (list msg) :=
  match n with
  | O => Ret log h
  | S n' =>
      match channels tb !! Z.to_nat i with
      | None => Fault
      | Some c =>
          match nbsendul c p h with
          | Ret r h' =>
              mux_loop n' (i + 1) tb p
                (if r <? 0 then log ++ [ChannelFull i] else log) h'
          | Block a w h' => Block a w h'
          | Fault => Fault
          end
      end
  end.

(** [for (...) { ulong value; if (nbrecvul(..., &value) > 0)
                  tb->data[i % tb->dimensions] += (double)value; }] *)
Fixpoint demux_loop (n : nat) (i : Z) (tb : TensorBundle) (junk : Z)
    (h : gmap nat (Channel Z)) : outcome Z TensorBundle :=
  match n with
  | O => Ret tb h
  | S n' =>
      match channels tb !! Z.to_nat i with
      | None => Fault
      | Some c =>
          match nbrecvul c junk h with
          | Ret (r, value) h' =>
              if 0 <? r then
                match c_rem i (dimensions tb) with
                | None => Fault
                | Some j =>
                    if (0 <=? j) && (j <? Z.of_nat (length (data tb))) then
                      match data tb !! Z.to_nat j with
                      | None => Fault
                      | Some d =>
                          demux_loop n' (i + 1)
                            (mkTensorBundle (id tb) (dimensions tb)
                               (<[Z.to_nat j := dadd d (d_of_ulong value)]> (data tb))
                               (channels tb) (channel_count tb) (operation tb))
                            junk h'
                      end
                    else Fault
                end
              else demux_loop n' (i + 1) tb junk h'
          | Block a w h' => Block a w h'
          | Fault => Fault
          end
      end
  end.

(** [for (...) sendp(tb->channels[i], data);] *)
Fixpoint broadcast_loop (n : nat) (i : Z) (tb : TensorBundle) (p : Z)
    (h : gmap nat (Channel Z)) : outcome Z unit :=
  match n with
  | O => Ret tt h
  | S n' =>
      match channels tb !! Z.to_nat i with
      | None => Fault
      | Some c =>
          match sendp c p h with
          | Ret _ h' => broadcast_loop n' (i + 1) tb p h'
          | Block a w h' => Block a w h'
          | Fault => Fault
          end
      end
  end.

(** The bundle is passed by pointer ([None] is nil) and handed back as the
    call leaves it, with the messages printed. *)
Definition tensor_bundle_multiplex (tb : option TensorBundle) (p : Z) (junk : Z)
    (h : gmap nat (Channel Z))
  : outcome Z (option TensorBundle * list msg) :=
  match tb with
  | None => Ret (None, []) h
  | Some b =>
      if p =? 0 then Ret (Some b, []) h
      else
        let log := [Multiplexing (id b)] in
        let n := Z.to_nat (channel_count b) in
        if operation b =? TENSOR_MUX then
          match mux_loop n 0 b p log h with
          | Ret log' h' => Ret (Some b, log') h'
          | Block a w h' => Block a w h'
          | Fault => Fault
          end
        else if operation b =? TENSOR_DEMUX then
          match demux_loop n 0 b junk h with
          | Ret b' h' => Ret (Some b', log) h'
          | Block a w h' => Block a w h'
          | Fault => Fault
          end
        else if operation b =? TENSOR_BROADCAST then
          match broadcast_loop n 0 b p h with
          | Ret _ h' => Ret (Some b, log) h'
          | Block a w h' => Block a w h'
          | Fault => Fault
          end
        else Ret (Some b, log) h
  end.

End Tensor.
End Tensor.

(** ** cognitive_agent_send_message (atomspace-service.c:543)

    Of [struct CognitiveAgent] the function reads two fields.  A [char*] is
    a string or nil; the strings that [mallocz] hands out live in a store
    indexed by their address, and the message queued in the receiver's
    inbox is such an address.  [mallocz] is the address the allocation
    returns, [None] for nil. *)

From stdpp Require Import strings.
Local Open Scope Z_scope.

Record CognitiveAgent := mkCognitiveAgent {
  agent_name : option string;
  input_channel : option nat
}.

Inductive agent_msg :=
| Sending (sender receiver message : string)  (* "Agent %s -> Agent %s: %s" *)
| InboxFull (receiver : string).              (* "Agent %s inbox full, message dropped" *)

Definition cognitive_agent_send_message (sender receiver : option CognitiveAgent)
    (message : option string) (mallocz : option Z) (strs : gmap Z string)
    (h : gmap nat (Channel Z))
  : outcome Z (Z * list agent_msg * gmap Z string) :=
  match sender, receiver, message with
  | Some s, Some r, Some m =>
      match agent_name s, agent_name r with
      | Some sn, Some rn =>
          let log := [Sending sn rn m] in
          match mallocz with
          | None => Fault
          | Some formatted_msg =>
              let strs' :=
                <[formatted_msg := "from:" +:+ sn +:+ " msg:" +:+ m]> strs in
              match nbsendp (input_channel r) formatted_msg h with
              | Ret code h' =>
                  if code <? 0 then
                    Ret (-1, log ++ [InboxFull rn], delete formatted_msg strs') h'
                  else Ret (0, log, strs') h'
              | Block a w h' => Block a w h'
              | Fault => Fault
              end
          end
      | _, _ => Fault
      end
  | _, _, _ => Ret (-1, [], strs) h
  end.

(** ** Atom type names (cogcity.c:1641, 1675; enum of opencog-p9-impl.h:30)

    An [enum AtomType] is an [int]; [strcmp(...) == 0] is equality of
    strings; a [char*] argument is a string or nil. *)

Definition ATOM_INVALID : Z := 0.
Definition ATOM_NODE : Z := 1.
Definition ATOM_LINK : Z := 2.
Definition CONCEPT_NODE : Z := 10.
Definition PREDICATE_NODE : Z := 11.
Definition SCHEMA_NODE : Z := 12.
Definition GROUNDED_SCHEMA_NODE : Z := 13.
Definition VARIABLE_NODE : Z := 14.
Definition TYPED_VARIABLE_NODE : Z := 15.
Definition ORDERED_LINK : Z := 20.
Definition UNORDERED_LINK : Z := 21.
Definition INHERITANCE_LINK : Z := 22.
Definition SIMILARITY_LINK : Z := 23.
Definition EVALUATION_LINK : Z := 24.
Definition IMPLICATION_LINK : Z := 25.
Definition EQUIVALENCE_LINK : Z := 26.
Definition AND_LINK : Z := 27.
Definition OR_LINK : Z := 28.
Definition NOT_LINK : Z := 29.
Definition LIST_LINK : Z := 30.
Definition MEMBER_LINK : Z := 31.
Definition SUBSET_LINK : Z := 32.

Definition atom_type_to_string (type : Z) : string :=
  if type =? ATOM_INVALID then "INVALID"
  else if type =? ATOM_NODE then "NODE"
  else if type =? ATOM_LINK then "LINK"
  else if type =? CONCEPT_NODE then "ConceptNode"
  else if type =? PREDICATE_NODE then "PredicateNode"
  else if type =? SCHEMA_NODE then "SchemaNode"
  else if type =? GROUNDED_SCHEMA_NODE then "GroundedSchemaNode"
  else if type =? VARIABLE_NODE then "VariableNode"
  else if type =? TYPED_VARIABLE_NODE then "TypedVariableNode"
  else if type =? ORDERED_LINK then "OrderedLink"
  else if type =? UNORDERED_LINK then "UnorderedLink"
  else if type =? INHERITANCE_LINK then "InheritanceLink"
  else if type =? SIMILARITY_LINK then "SimilarityLink"
  else if type =? EVALUATION_LINK then "EvaluationLink"
  else if type =? IMPLICATION_LINK then "ImplicationLink"
  else if type =? EQUIVALENCE_LINK then "EquivalenceLink"
  else if type =? AND_LINK then "AndLink"
  else if type =? OR_LINK then "OrLink"
  else if type =? NOT_LINK then "NotLink"
  else if type =? LIST_LINK then "ListLink"
  else if type =? MEMBER_LINK then "MemberLink"
  else if type =? SUBSET_LINK then "SubsetLink"
  else "UnknownType".

Definition string_to_atom_type (type_string : option string) : Z :=
  match type_string with
  | None => ATOM_INVALID
  | Some s =>
      if String.eqb s "ConceptNode" then CONCEPT_NODE
      else if String.eqb s "PredicateNode" then PREDICATE_NODE
      else if String.eqb s "SchemaNode" then SCHEMA_NODE
      else if String.eqb s "GroundedSchemaNode" then GROUNDED_SCHEMA_NODE
      else if String.eqb s "VariableNode" then VARIABLE_NODE
      else if String.eqb s "TypedVariableNode" then TYPED_VARIABLE_NODE
      else if String.eqb s "OrderedLink" then ORDERED_LINK
      else if String.eqb s "UnorderedLink" then UNORDERED_LINK
      else if String.eqb s "InheritanceLink" then INHERITANCE_LINK
      else if String.eqb s "SimilarityLink" then SIMILARITY_LINK
      else if String.eqb s "EvaluationLink" then EVALUATION_LINK
      else if String.eqb s "ImplicationLink" then IMPLICATION_LINK
      else if String.eqb s "EquivalenceLink" then EQUIVALENCE_LINK
      else if String.eqb s "AndLink" then AND_LINK
      else if String.eqb s "OrLink" then OR_LINK
      else if String.eqb s "NotLink" then NOT_LINK
      else if String.eqb s "ListLink" then LIST_LINK
      else if String.eqb s "MemberLink" then MEMBER_LINK
      else if String.eqb s "SubsetLink" then SUBSET_LINK
      else ATOM_INVALID
  end.

(** ** cognitive_grammar_validate (cogcity.c:51)

    A C string ends at its first NUL character, where the [while] loop
    stops.  The two counters are [int]s. *)

Record CognitiveGrammar := mkCognitiveGrammar {
  state : Z;
  input_buffer : string;
  buffer_size : Z;
  token_count : Z;
  token_stream : option nat;
  parse_results : option nat
}.

(** The character constants the scan compares with; 34 is the double quote
    and 0 the terminator. *)
Module Chars.
Import Stdlib.Strings.Ascii.
Definition NUL : Ascii.ascii := "000"%char.
Definition lparen : Ascii.ascii := "("%char.
Definition rparen : Ascii.ascii := ")"%char.
Definition lbracket : Ascii.ascii := "["%char.
Definition rbracket : Ascii.ascii := "]"%char.
Definition lbrace : Ascii.ascii := "{"%char.
Definition rbrace : Ascii.ascii := "}"%char.
Definition dquote : Ascii.ascii := "034"%char.
End Chars.

Definition is_open (ch : Ascii.ascii) : bool :=
  Ascii.eqb ch Chars.lparen || Ascii.eqb ch Chars.lbracket
  || Ascii.eqb ch Chars.lbrace.

Definition is_close (ch : Ascii.ascii) : bool :=
  Ascii.eqb ch Chars.rparen || Ascii.eqb ch Chars.rbracket
  || Ascii.eqb ch Chars.rbrace.

Definition is_quote (ch : Ascii.ascii) : bool := Ascii.eqb ch Chars.dquote.

(** The loop: [brackets] and [quotes] when the terminator is reached. *)
Fixpoint validate_scan (p : string) (brackets quotes : Z) : Z * Z :=
  match p with
  | String.EmptyString => (brackets, quotes)
  | String.String ch p' =>
      if Ascii.eqb ch Chars.NUL then (brackets, quotes)
      else if is_open ch then validate_scan p' (wrap_int (brackets + 1)) quotes
      else if is_close ch then validate_scan p' (wrap_int (brackets - 1)) quotes
      else if is_quote ch then validate_scan p' brackets (wrap_int (1 - quotes))
      else validate_scan p' brackets quotes
  end.

Definition cognitive_grammar_validate (cg : option CognitiveGrammar)
    (sentence : option string) : Z :=
  match cg, sentence with
  | Some _, Some s =>
      let '(brackets, quotes) := validate_scan s 0 0 in
      if (brackets =? 0) && (quotes =? 0) then 1 else 0
  | _, _ => 0
  end.

(** The characters of a C string: those before the first NUL. *)
Fixpoint c_chars (s : string) : list Ascii.ascii :=
  match s with
  | String.EmptyString => []
  | String.String ch s' => if Ascii.eqb ch Chars.NUL then [] else ch :: c_chars s'
  end.

Definition count_chars (f : Ascii.ascii → bool) (s : string) : Z :=
  Z.of_nat (length (filter (λ ch, f ch = true) (c_chars s))).

(** Channel 0 has 8-byte elements and is full, channel 1 has 4-byte
    elements and holds one value. *)
Definition word_chans : gmap nat (Channel Z) :=
  {[ 0%nat := word_chan [1; 2; 3] 0; 1%nat := chan_of [10] 0 ]}.

(** A bundle in [TENSOR_MUX] mode over the channels at addresses 0 and 1,
    with integers standing for doubles. *)
Definition sample_bundle : Tensor.TensorBundle (D := Z) :=
  Tensor.mkTensorBundle 1 2 [0; 0] [Some 0%nat; Some 1%nat] 2 Tensor.TENSOR_MUX.

(** * Basic facts *)

Lemma wrap_int_id z : INT_MIN ≤ z ≤ INT_MAX → wrap_int z = z.
Proof.
  unfold wrap_int, INT_MIN, INT_MAX. intros Hz.
  rewrite Z.mod_small; lia.
Qed.

Lemma c_rem_pos a b :
  0 ≤ a → 0 < b → c_rem a b = Some (a mod b).
Proof.
  intros Ha Hb. unfold c_rem.
  destruct (b =? 0) eqn:E0; [lia|].
  destruct (b =? -1) eqn:E1; [lia|].
  rewrite andb_false_r. simpl. f_equal. apply Z.rem_mod_nonneg; lia.
Qed.

Section Facts.
Context {V : Type}.
Implicit Types (h : gmap nat (Channel V)) (ch : Channel V) (x y : V).

Lemma enqueue_fields ch x ch' :
  enqueue ch x = Some ch' →
  bufsize ch' = bufsize ch ∧ off ch' = off ch ∧ closed ch' = closed ch ∧
  lock ch' = lock ch ∧ elemsize ch' = elemsize ch ∧
  nbuf ch' = wrap_int (nbuf ch + 1).
Proof.
  unfold enqueue. intros H.
  destruct (buf ch) as [b|]; [|by simplify_eq].
  destruct (c_rem _ _) as [i|]; [|done].
  destruct (_ && _); by simplify_eq.
Qed.

Lemma dequeue_fields ch x y ch' :
  dequeue ch x = Some (y, ch') →
  bufsize ch' = bufsize ch ∧ buf ch' = buf ch ∧ closed ch' = closed ch ∧
  lock ch' = lock ch ∧ elemsize ch' = elemsize ch ∧
  nbuf ch' = wrap_int (nbuf ch - 1) ∧
  c_rem (wrap_int (off ch + 1)) (bufsize ch) = Some (off ch').
Proof.
  unfold dequeue. intros H.
  destruct (match buf ch with Some _ => _ | None => _ end); [|done].
  destruct (c_rem _ _) as [o|]; by simplify_eq.
Qed.

(** Every call leaves the heap as it was or replaces the channel it was
    called on by a [chan_step] successor. *)
Lemma perform_cases k p h h' :
  perform k p h = Some h' →
  h' = h ∨
  ∃ a ch ch', p = Some a ∧ h !! a = Some ch ∧ chan_step ch ch' ∧
              h' = <[a := ch']> h.
Proof.
  assert (Hs : ∀ a ch x o, h !! a = Some ch → lock ch = false →
            heap_after (chansend_wait a ch x h) = Some o →
            o = h ∨ ∃ ch', chan_step ch ch' ∧ o = <[a := ch']> h).
  { intros a ch x o Ha Hl. unfold chansend_wait.
    destruct (bufsize ch <=? nbuf ch) eqn:Hfull; simpl.
    - destruct (closed ch =? 0) eqn:Hc; simpl; intros; simplify_eq; by left.
    - destruct (closed ch =? 0) eqn:Hc; simpl; [|intros; simplify_eq; by left].
      destruct (enqueue ch x) as [ch'|] eqn:He; simpl; [|done].
      intros; simplify_eq. right. exists ch'. split; [|done].
      apply (cs_enqueue ch x); [done|lia|lia|done]. }
  assert (Hr : ∀ a ch x o, h !! a = Some ch → lock ch = false →
            heap_after (chanrecv_wait a ch x h) = Some o →
            o = h ∨ ∃ ch', chan_step ch ch' ∧ o = <[a := ch']> h).
  { intros a ch x o Ha Hl. unfold chanrecv_wait.
    destruct (nbuf ch <=? 0) eqn:Hemp; simpl.
    - destruct (closed ch =? 0) eqn:Hc; simpl; intros; simplify_eq; by left.
    - destruct (dequeue ch x) as [[y ch']|] eqn:He; simpl; [|done].
      intros; simplify_eq. right. exists ch'. split; [|done].
      apply (cs_dequeue ch x y); [done|lia|done]. }
  assert (Hsend : ∀ a x o, heap_after (chansend (Some a) x h) = Some o →
            o = h ∨ ∃ ch ch', h !! a = Some ch ∧ chan_step ch ch' ∧
                              o = <[a := ch']> h).
  { intros a x o. simpl. destruct (h !! a) as [ch|] eqn:Ha; [|done].
    destruct (lock ch) eqn:Hl; simpl; [intros; simplify_eq; by left|].
    destruct (closed ch =? 0) eqn:Hc; simpl; [|intros; simplify_eq; by left].
    intros H. destruct (Hs a ch x o Ha Hl H) as [->|(ch' & ? & ->)];
      [by left|right; eauto]. }
  assert (Hrecv : ∀ a x o, heap_after (chanrecv (Some a) x h) = Some o →
            o = h ∨ ∃ ch ch', h !! a = Some ch ∧ chan_step ch ch' ∧
                              o = <[a := ch']> h).
  { intros a x o. simpl. destruct (h !! a) as [ch|] eqn:Ha; [|done].
    destruct (lock ch) eqn:Hl; simpl; [intros; simplify_eq; by left|].
    intros H. destruct (Hr a ch x o Ha Hl H) as [->|(ch' & ? & ->)];
      [by left|right; eauto]. }
  destruct k as [x|x|x|x| | |w x|w x]; simpl;
    (destruct p as [a|]; simpl; [|try (intros; simplify_eq; by left); done]).
  - intros H. destruct (Hsend a x h' H) as [->|(ch & ch' & ? & ? & ->)];
      [by left|right; eauto 10].
  - intros H. destruct (Hrecv a x h' H) as [->|(ch & ch' & ? & ? & ->)];
      [by left|right; eauto 10].
  - destruct (h !! a) as [ch|] eqn:Ha; [|done].
    destruct (lock ch) eqn:Hl; simpl; [intros; simplify_eq; by left|].
    destruct (closed ch =? 0) eqn:Hc; simpl; [|intros; simplify_eq; by left].
    destruct (bufsize ch <=? nbuf ch) eqn:Hfull; simpl;
      [intros; simplify_eq; by left|].
    destruct (enqueue ch x) as [ch'|] eqn:He; simpl; [|done].
    intros; simplify_eq. right. exists a, ch, ch'. split_and!; try done.
    apply (cs_enqueue ch x); [done|lia|lia|done].
  - destruct (h !! a) as [ch|] eqn:Ha; [|done].
    destruct (lock ch) eqn:Hl; simpl; [intros; simplify_eq; by left|].
    destruct (nbuf ch <=? 0) eqn:Hemp; simpl; [intros; simplify_eq; by left|].
    destruct (dequeue ch x) as [[y ch']|] eqn:He; simpl; [|done].
    intros; simplify_eq. right. exists a, ch, ch'. split_and!; try done.
    apply (cs_dequeue ch x y); [done|lia|done].
  - destruct (h !! a) as [ch|] eqn:Ha; [|done].
    destruct (lock ch); simpl; intros; simplify_eq; by left.
  - destruct (h !! a) as [ch|] eqn:Ha; [|done].
    destruct (lock ch) eqn:Hl; simpl; intros; simplify_eq; [by left|].
    right. exists a, ch, (set_closed ch 1). split_and!; try done.
    by apply cs_close.
  - destruct w.
    + simpl. destruct (h !! a) as [ch|] eqn:Ha; [|done].
      destruct (lock ch) eqn:Hl; simpl; [intros; simplify_eq; by left|].
      intros H. destruct (Hs a ch x h' Ha Hl H) as [->|(ch' & ? & ->)];
        [by left|right; eauto 10].
    + simpl. destruct (h !! a) as [ch|] eqn:Ha; [|done].
      destruct (lock ch) eqn:Hl; simpl; [intros; simplify_eq; by left|].
      intros H. destruct (Hs a ch x h' Ha Hl H) as [->|(ch' & ? & ->)];
        [by left|right; eauto 10].
    + intros H. destruct (Hsend a x h' H) as [->|(ch & ch' & ? & ? & ->)];
        [by left|right; eauto 10].
  - destruct w.
    + simpl. destruct (h !! a) as [ch|] eqn:Ha; [|done].
      destruct (lock ch) eqn:Hl; simpl; [intros; simplify_eq; by left|].
      intros H. destruct (Hr a ch x h' Ha Hl H) as [->|(ch' & ? & ->)];
        [by left|right; eauto 10].
    + simpl. destruct (h !! a) as [ch|] eqn:Ha; [|done].
      destruct (lock ch) eqn:Hl; simpl; [intros; simplify_eq; by left|].
      intros H. destruct (Hr a ch x h' Ha Hl H) as [->|(ch' & ? & ->)];
        [by left|right; eauto 10].
    + intros H. destruct (Hrecv a x h' H) as [->|(ch & ch' & ? & ? & ->)];
        [by left|right; eauto 10].
Qed.

End Facts.

Section Invariants.
Context {V : Type}.
Implicit Types (h : gmap nat (Channel V)) (ch : Channel V) (x y : V).

Lemma chan_step_fields ch ch' :
  chan_step ch ch' →
  bufsize ch' = bufsize ch ∧ lock ch' = lock ch ∧ lock ch = false ∧
  elemsize ch' = elemsize ch ∧ (closed ch ≠ 0 → closed ch' ≠ 0).
Proof.
  destruct 1 as [x ch' Hl Hc Hn He|x y ch' Hl Hn Hd|Hl].
  - apply enqueue_fields in He as (-> & _ & -> & -> & -> & _). done.
  - apply dequeue_fields in Hd as (-> & _ & -> & -> & -> & _). done.
  - simpl. split_and!; try done.
Qed.

Lemma chan_step_inv ch ch' :
  bufsize ch ≤ INT_MAX → chan_inv ch → chan_step ch ch' → chan_inv ch'.
Proof.
  unfold chan_inv, INT_MAX. intros Hmax [Hn Ho] Hstep.
  destruct Hstep as [x ch' Hl Hc Hlt He|x y ch' Hl Hpos Hd|Hl].
  - apply enqueue_fields in He as (-> & -> & _ & _ & _ & ->).
    rewrite wrap_int_id by (unfold INT_MIN, INT_MAX; lia). lia.
  - apply dequeue_fields in Hd as (-> & _ & _ & _ & _ & -> & Hrem).
    rewrite wrap_int_id in Hrem by (unfold INT_MIN, INT_MAX; lia).
    rewrite c_rem_pos in Hrem by lia. simplify_eq.
    rewrite wrap_int_id by (unfold INT_MIN, INT_MAX; lia).
    split; [lia|]. intros Hb.
    pose proof (Z.mod_pos_bound (off ch + 1) (bufsize ch) Hb). lia.
  - simpl. done.
Qed.

(** A property of the channel at [a] that every critical section keeps
    holds in every heap reachable by calls. *)
Lemma reach_invariant (P : Channel V → Prop) (a : nat) :
  (∀ ch ch', P ch → chan_step ch ch' → P ch') →
  ∀ h h', rtc step h h' →
  ∀ ch, h !! a = Some ch → P ch → ∃ ch', h' !! a = Some ch' ∧ P ch'.
Proof.
  intros Hkeep h h' Hreach.
  induction Hreach as [h|h h1 h2 (k & p & Hk) _ IH]; intros ch Ha HP; [eauto|].
  apply perform_cases in Hk as [->|(b & cb & cb' & -> & Hb & Hs & ->)];
    [by apply (IH ch)|].
  destruct (decide (b = a)) as [->|Hne].
  - simplify_eq. apply (IH cb'); [apply lookup_insert_eq | by eapply Hkeep].
  - apply (IH ch); [by rewrite lookup_insert_ne | done].
Qed.

Lemma chancreate_some es bs (m : Malloc V) h a h' :
  chancreate es bs m h = (Some a, h') →
  h !! a = None ∧
  h' = <[a := mkChannel
                (if 0 <? bs then storage es bs (wrap_int (es * bs)) m else None)
                es bs 0 0 false 0]> h.
Proof.
  unfold chancreate. intros H.
  assert (Hfresh : h !! fresh (dom h) = None).
  { apply not_elem_of_dom. apply is_fresh. }
  destruct (malloc_chan m); simpl in H; [|done].
  destruct (0 <? bs); [destruct (malloc_buf m _)|]; by simplify_eq.
Qed.

(** C6, as amended: every channel that [chancreate] returns for a capacity
    that is not negative satisfies the invariant of the data model
    ([0 ≤ nbuf ≤ bufsize], and [0 ≤ off < bufsize] when [bufsize > 0]) with
    the closed flag clear; and every call of send, receive, trySend,
    tryReceive, chanlen or close, and every continuation of a suspended
    send or receive, that completes on a heap in which a channel satisfies
    the invariant leaves that channel satisfying it, with the same
    capacity, and with the closed flag still set if it was set. *)
Theorem chan_inv_established_and_preserved :
  (∀ es bs (m : Malloc V) h a h',
     0 ≤ bs → chancreate es bs m h = (Some a, h') →
     ∃ ch, h' !! a = Some ch ∧ chan_inv ch ∧ closed ch = 0) ∧
  (∀ k p h h' a ch,
     h !! a = Some ch → chan_inv ch → bufsize ch ≤ INT_MAX →
     perform k p h = Some h' →
     ∃ ch', h' !! a = Some ch' ∧ chan_inv ch' ∧
            bufsize ch' = bufsize ch ∧ (closed ch ≠ 0 → closed ch' ≠ 0)).
Proof.
  split.
  - intros es bs m h a h' Hbs Hc.
    apply chancreate_some in Hc as [_ ->].
    eexists. split; [apply lookup_insert_eq|].
    unfold chan_inv; simpl. split; [lia|done].
  - intros k p h h' a ch Ha Hinv Hmax Hk.
    apply perform_cases in Hk as [->|(b & cb & cb' & -> & Hb & Hs & ->)];
      [by exists ch|].
    destruct (decide (b = a)) as [->|Hne].
    + rewrite Ha in Hb. injection Hb as <-.
      exists cb'. split; [apply lookup_insert_eq|].
      pose proof (chan_step_fields _ _ Hs) as (? & _ & _ & _ & ?).
      split_and!; try done. by apply (chan_step_inv ch).
    + exists ch. by rewrite lookup_insert_ne.
Qed.

(** C10: a channel created with capacity 0 holds no element in any heap
    reachable by calls of send, receive, trySend, tryReceive, chanlen and
    close and by continuations of suspended calls: its count stays 0.
    There a send, new or woken, suspends on "not full" while the channel is
    open and returns -1 once it is closed, trySend returns 0, and receive
    and tryReceive return or suspend before the offset update
    [(off + 1) % bufsize], which has no value for such a channel. *)
Theorem zero_capacity_stays_empty es (m : Malloc V) h0 a h1 h2 :
  chancreate es 0 m h0 = (Some a, h1) →
  rtc step h1 h2 →
  ∃ ch, h2 !! a = Some ch ∧ nbuf ch = 0 ∧ bufsize ch = 0 ∧
    (∀ x, dequeue ch x = None) ∧
    (∀ x, chansend (Some a) x h2 =
            if closed ch =? 0 then Block a notfull h2 else Ret (-1) h2) ∧
    (∀ w x, chansend_wake a w x h2 = chansend (Some a) x h2) ∧
    (∀ x, channbsend (Some a) x h2 = Ret 0 h2) ∧
    (∀ x, chanrecv (Some a) x h2 =
            if closed ch =? 0 then Block a notempty h2 else Ret (-1, x) h2) ∧
    (∀ w x, chanrecv_wake a w x h2 = chanrecv (Some a) x h2) ∧
    (∀ x, channbrecv (Some a) x h2 = Ret (0, x) h2).
Proof.
  intros Hc Hreach.
  apply chancreate_some in Hc as [_ ->]. simpl in Hreach.
  pose (P := λ ch : Channel V,
          bufsize ch = 0 ∧ nbuf ch = 0 ∧ buf ch = None ∧ lock ch = false).
  destruct (reach_invariant P a) with (h := <[a := mkChannel None es 0 0 0 false 0]> h0)
    (h' := h2) (ch := mkChannel (V:=V) None es 0 0 0 false 0)
    as (ch & Ha & Hb & Hn & Hbuf & Hl); try done.
  { intros ch ch' (Hb & Hn & Hbuf & Hl) Hs.
    destruct Hs as [x ch' _ _ Hlt _|x y ch' _ Hpos _|_]; [lia|lia|done]. }
  { apply lookup_insert_eq. }
  exists ch. split_and!; try done.
  - intros x. unfold dequeue. by rewrite Hbuf, Hb.
  - intros x. simpl. rewrite Ha, Hl. unfold chansend_wait. rewrite Hb, Hn. simpl.
    by destruct (closed ch =? 0).
  - intros w x. destruct w; simpl; rewrite Ha, Hl; try done;
      unfold chansend_wait; rewrite Hb, Hn; simpl; by destruct (closed ch =? 0).
  - intros x. simpl. rewrite Ha, Hl, Hb, Hn. simpl. by rewrite orb_true_r.
  - intros x. simpl. rewrite Ha, Hl. unfold chanrecv_wait. rewrite Hn. simpl.
    by destruct (closed ch =? 0).
  - intros w x. destruct w; simpl; by rewrite Ha, Hl.
  - intros x. simpl. by rewrite Ha, Hl, Hn.
Qed.

End Invariants.

(** * The buffer as a queue *)

Lemma omap_seq_ext {B} (f g : nat → option B) (j n : nat) :
  (∀ i, (j ≤ i < j + n)%nat → f i = g i) →
  omap f (seq j n) = omap g (seq j n).
Proof.
  revert j. induction n as [|n IH]; intros j Hfg; [done|].
  cbn [seq]. csimpl. rewrite (Hfg j) by lia.
  rewrite (IH (S j)) by (intros i Hi; apply Hfg; lia). done.
Qed.

Lemma omap_seq_S {B} (f : nat → option B) (j n : nat) :
  omap f (seq (S j) n) = omap (λ i, f (S i)) (seq j n).
Proof.
  revert j. induction n as [|n IH]; intros j; [done|].
  cbn [seq]. csimpl. by rewrite (IH (S j)).
Qed.

Section Queue.
Context {V : Type}.
Implicit Types (h : gmap nat (Channel V)) (ch : Channel V) (x y : V).

Lemma chan_ok_buf ch :
  chan_ok ch → 0 < bufsize ch →
  ∃ b, buf ch = Some b ∧ Z.of_nat (length b) = bufsize ch.
Proof.
  intros (_ & Hb & _) Hpos. unfold buf_ok in Hb.
  destruct (buf ch) as [b|]; [|lia]. exists b. by destruct Hb.
Qed.

Lemma length_contents ch :
  chan_ok ch → length (contents ch) = Z.to_nat (nbuf ch).
Proof.
  intros Hok. unfold contents.
  destruct (decide (0 < bufsize ch)) as [Hpos|Hnpos].
  - destruct (chan_ok_buf ch Hok Hpos) as (b & Hb & Hlen).
    transitivity (length (seq 0 (Z.to_nat (nbuf ch)))); [|apply length_seq].
    generalize (seq 0 (Z.to_nat (nbuf ch))). intros l.
    induction l as [|i l IH]; [done|]. csimpl.
    assert (is_Some (slot ch i)) as [z ->]; [|simpl; by rewrite IH].
    unfold slot. rewrite Hb. simpl. apply lookup_lt_is_Some.
    pose proof (Z.mod_pos_bound (off ch + Z.of_nat i) (bufsize ch) Hpos). lia.
  - destruct Hok as ((Hn & _) & _ & _).
    replace (Z.to_nat (nbuf ch)) with 0%nat by lia. done.
Qed.

(** Writing one element when there is room appends it to the queue. *)
Lemma enqueue_contents ch x :
  chan_ok ch → nbuf ch < bufsize ch → off ch + nbuf ch ≤ INT_MAX →
  ∃ ch', enqueue ch x = Some ch' ∧ chan_ok ch' ∧
         contents ch' = contents ch ++ [x] ∧
         nbuf ch' = nbuf ch + 1 ∧ off ch' = off ch.
Proof.
  intros Hok Hroom Hsum.
  pose proof Hok as (((Hn0 & Hn) & Ho) & Hbuf & Hmax).
  assert (Hpos : 0 < bufsize ch) by lia. specialize (Ho Hpos).
  destruct (chan_ok_buf ch Hok Hpos) as (b & Hb & Hlen).
  set (i := (off ch + nbuf ch) mod bufsize ch).
  pose proof (Z.mod_pos_bound (off ch + nbuf ch) (bufsize ch) Hpos) as Hi.
  fold i in Hi.
  assert (He : enqueue ch x =
    Some (mkChannel (Some (<[Z.to_nat i := x]> b)) (elemsize ch) (bufsize ch)
            (nbuf ch + 1) (off ch) (lock ch) (closed ch))).
  { unfold enqueue. rewrite Hb.
    rewrite wrap_int_id by (unfold INT_MIN, INT_MAX in *; lia).
    rewrite c_rem_pos by lia. fold i.
    destruct (0 <=? i) eqn:E1; [|lia]. destruct (i <? Z.of_nat (length b)) eqn:E2; [|lia].
    simpl. by rewrite wrap_int_id by (unfold INT_MIN, INT_MAX in *; lia). }
  eexists. split; [exact He|]. split; [|split; [|done]].
  - unfold chan_ok, chan_inv, buf_ok. simpl. rewrite length_insert. lia.
  - unfold contents. simpl.
    replace (Z.to_nat (nbuf ch + 1)) with (S (Z.to_nat (nbuf ch))) by lia.
    rewrite seq_S, omap_app. simpl. f_equal.
    + apply omap_seq_ext. intros j Hj. unfold slot. simpl. rewrite Hb. simpl.
      apply list_lookup_insert_ne. intros Heq.
      assert (Hz : i = (off ch + Z.of_nat j) mod bufsize ch).
      { pose proof (Z.mod_pos_bound (off ch + Z.of_nat j) (bufsize ch) Hpos). lia. }
      assert (Hd : (nbuf ch - Z.of_nat j) mod bufsize ch = 0).
      { replace (nbuf ch - Z.of_nat j)
          with ((off ch + nbuf ch) - (off ch + Z.of_nat j)) by lia.
        rewrite Zminus_mod. fold i. rewrite <- Hz, Z.sub_diag. by apply Z.mod_0_l; lia. }
      rewrite Z.mod_small in Hd by lia. lia.
    + unfold slot at 1. simpl.
      replace (Z.of_nat (Z.to_nat (nbuf ch))) with (nbuf ch) by lia. fold i.
      rewrite list_lookup_insert_eq by lia. done.
Qed.

(** Reading one element when there is one takes the front of the queue. *)
Lemma dequeue_contents ch x :
  chan_ok ch → 0 < nbuf ch →
  ∃ y ch', dequeue ch x = Some (y, ch') ∧ chan_ok ch' ∧
           contents ch = y :: contents ch' ∧ nbuf ch' = nbuf ch - 1.
Proof.
  intros Hok Hsome.
  pose proof Hok as (((Hn0 & Hn) & Ho) & Hbuf & Hmax).
  assert (Hpos : 0 < bufsize ch) by lia. specialize (Ho Hpos).
  destruct (chan_ok_buf ch Hok Hpos) as (b & Hb & Hlen).
  destruct (lookup_lt_is_Some_2 b (Z.to_nat (off ch))) as [y Hy]; [lia|].
  set (o := (off ch + 1) mod bufsize ch).
  pose proof (Z.mod_pos_bound (off ch + 1) (bufsize ch) Hpos) as Hobound.
  fold o in Hobound.
  assert (Hd : dequeue ch x =
    Some (y, mkChannel (buf ch) (elemsize ch) (bufsize ch) (nbuf ch - 1) o
               (lock ch) (closed ch))).
  { unfold dequeue. rewrite Hb.
    destruct (0 <=? off ch) eqn:E1; [|lia].
    destruct (off ch <? Z.of_nat (length b)) eqn:E2; [|lia]. simpl. rewrite Hy.
    rewrite wrap_int_id by (unfold INT_MIN, INT_MAX in *; lia).
    rewrite c_rem_pos by lia. fold o.
    by rewrite wrap_int_id by (unfold INT_MIN, INT_MAX in *; lia). }
  eexists _, _. split; [exact Hd|]. split; [|split; [|done]].
  - unfold chan_ok, chan_inv, buf_ok. simpl. rewrite Hb. lia.
  - unfold contents. simpl.
    replace (Z.to_nat (nbuf ch)) with (S (Z.to_nat (nbuf ch - 1))) by lia.
    simpl. unfold slot at 1. rewrite Hb. simpl.
    rewrite Z.add_0_r, Z.mod_small, Hy by lia. simpl. f_equal.
    rewrite omap_seq_S. apply omap_seq_ext. intros j _.
    unfold slot. simpl. rewrite Hb. simpl. do 2 f_equal. unfold o.
    rewrite Zplus_mod_idemp_l. f_equal. lia.
Qed.

End Queue.

(** * Send and receive on a channel that is not locked *)

Section Calls.
Context {V : Type}.
Implicit Types (h : gmap nat (Channel V)) (ch : Channel V) (x y : V).

Lemma chansend_room a ch x h :
  h !! a = Some ch → chan_ok ch → lock ch = false → closed ch = 0 →
  nbuf ch < bufsize ch → off ch + nbuf ch ≤ INT_MAX →
  ∃ ch', chansend (Some a) x h = Ret 1 (<[a := ch']> h) ∧
         channbsend (Some a) x h = Ret 1 (<[a := ch']> h) ∧
         chan_ok ch' ∧ lock ch' = false ∧ closed ch' = 0 ∧
         contents ch' = contents ch ++ [x] ∧
         nbuf ch' = nbuf ch + 1 ∧ off ch' = off ch ∧ bufsize ch' = bufsize ch.
Proof.
  intros Ha Hok Hl Hc Hroom Hsum.
  destruct (enqueue_contents ch x Hok Hroom Hsum) as (ch' & He & Hok' & Hq & Hn & Ho).
  pose proof (enqueue_fields _ _ _ He) as (Hb & _ & Hc' & Hl' & _).
  exists ch'. split_and!; try done; try congruence.
  - simpl. rewrite Ha, Hl. unfold chansend_wait. rewrite Hc, He. simpl.
    destruct (bufsize ch <=? nbuf ch) eqn:E; [lia|done].
  - simpl. rewrite Ha, Hl, Hc, He. simpl.
    destruct (bufsize ch <=? nbuf ch) eqn:E; [lia|done].
Qed.

Lemma chanrecv_some a ch x h :
  h !! a = Some ch → chan_ok ch → lock ch = false → 0 < nbuf ch →
  ∃ y ch', chanrecv (Some a) x h = Ret (1, y) (<[a := ch']> h) ∧
           channbrecv (Some a) x h = Ret (1, y) (<[a := ch']> h) ∧
           chan_ok ch' ∧ lock ch' = false ∧ closed ch' = closed ch ∧
           contents ch = y :: contents ch' ∧
           nbuf ch' = nbuf ch - 1 ∧ bufsize ch' = bufsize ch.
Proof.
  intros Ha Hok Hl Hsome.
  destruct (dequeue_contents ch x Hok Hsome) as (y & ch' & Hd & Hok' & Hq & Hn).
  pose proof (dequeue_fields _ _ _ _ Hd) as (Hb & _ & Hc' & Hl' & _).
  exists y, ch'. split_and!; try done; try congruence.
  - simpl. rewrite Ha, Hl. unfold chanrecv_wait. rewrite Hd.
    destruct (nbuf ch <=? 0) eqn:E; [lia|done].
  - simpl. rewrite Ha, Hl, Hd.
    destruct (nbuf ch <=? 0) eqn:E; [lia|done].
Qed.

(** Sending [xs] to an open channel with room for them appends them. *)
Lemma send_all_room a xs : ∀ ch h,
  h !! a = Some ch → chan_ok ch → lock ch = false → closed ch = 0 →
  nbuf ch + Z.of_nat (length xs) ≤ bufsize ch →
  off ch + nbuf ch + Z.of_nat (length xs) ≤ INT_MAX + 1 →
  ∃ ch' h', send_all (Some a) xs h = Ret (replicate (length xs) 1) h' ∧
            h' !! a = Some ch' ∧ chan_ok ch' ∧ lock ch' = false ∧
            closed ch' = 0 ∧ contents ch' = contents ch ++ xs ∧
            bufsize ch' = bufsize ch.
Proof.
  induction xs as [|x xs IH]; intros ch h Ha Hok Hl Hc Hroom Hsum.
  - exists ch, h. rewrite app_nil_r. done.
  - simpl length in *.
    destruct (chansend_room a ch x h) as
      (ch1 & Hs & _ & Hok1 & Hl1 & Hc1 & Hq1 & Hn1 & Ho1 & Hb1); try done; try lia.
    destruct (IH ch1 (<[a := ch1]> h)) as
      (ch' & h' & Hs' & Ha' & Hok' & Hl' & Hc' & Hq' & Hb');
      try done; try lia; [apply lookup_insert_eq|].
    exists ch', h'. split_and!; try done; try congruence.
    + cbn [send_all]. rewrite Hs. cbn [and_then]. rewrite Hs'. done.
    + rewrite Hq', Hq1, <- app_assoc. done.
Qed.

(** Receiving as many times as the channel holds elements yields them,
    front first, and leaves the channel empty. *)
Lemma recv_n_contents a x n : ∀ ch h,
  h !! a = Some ch → chan_ok ch → lock ch = false →
  Z.of_nat n = nbuf ch →
  ∃ ch' h', recv_n (Some a) n x h = Ret ((λ y, (1, y)) <$> contents ch) h' ∧
            h' !! a = Some ch' ∧ chan_ok ch' ∧ lock ch' = false ∧
            closed ch' = closed ch ∧ nbuf ch' = 0.
Proof.
  induction n as [|n IH]; intros ch h Ha Hok Hl Hn.
  - exists ch, h. unfold contents. rewrite <- Hn. done.
  - destruct (chanrecv_some a ch x h) as
      (y & ch1 & Hr & _ & Hok1 & Hl1 & Hc1 & Hq1 & Hn1 & Hb1); try done; try lia.
    destruct (IH ch1 (<[a := ch1]> h)) as
      (ch' & h' & Hr' & Ha' & Hok' & Hl' & Hc' & Hn');
      try done; try lia; [apply lookup_insert_eq|].
    exists ch', h'. split_and!; try done; try congruence.
    cbn [recv_n]. rewrite Hr. cbn [and_then]. rewrite Hr', Hq1. done.
Qed.

(** When [elemsize * bufsize] is an [int], the buffer holds all the
    [bufsize] slots. *)
Lemma buf_slots_exact es bs :
  0 < es → 0 ≤ bs → es * bs ≤ INT_MAX →
  buf_slots es bs (wrap_int (es * bs)) = Z.to_nat bs.
Proof.
  intros Hes Hbs Hmax. unfold buf_slots.
  destruct (0 <? es) eqn:E; [|lia].
  rewrite wrap_int_id by (unfold INT_MIN, INT_MAX in *; nia).
  unfold size_t. rewrite Z.mod_small by (unfold INT_MAX in *; nia).
  rewrite (Z.mul_comm es bs), Z.div_mul by lia.
  assert (bs ≤ INT_MAX / es) by (apply Z.div_le_lower_bound; lia).
  f_equal. lia.
Qed.

(** A channel that [chancreate] returns for a positive element size and a
    capacity for which [elemsize * bufsize] is an [int]. *)
Lemma chancreate_ok es bs (m : Malloc V) h a h' :
  chancreate es bs m h = (Some a, h') →
  0 < es → 0 ≤ bs → es * bs ≤ INT_MAX →
  ∃ ch, h' !! a = Some ch ∧ chan_ok ch ∧ lock ch = false ∧ closed ch = 0 ∧
        nbuf ch = 0 ∧ off ch = 0 ∧ bufsize ch = bs ∧ elemsize ch = es ∧
        contents ch = [].
Proof.
  intros Hc Hes Hbs Hmax. apply chancreate_some in Hc as [_ ->].
  eexists. split; [apply lookup_insert_eq|]. split_and!; try done.
  unfold chan_ok, chan_inv, buf_ok, storage. simpl.
  assert (bs ≤ INT_MAX) by nia.
  destruct (0 <? bs) eqn:E; [|lia].
  destruct (es =? 0) eqn:E0; [lia|].
  rewrite length_fmap, length_seq, buf_slots_exact by done. lia.
Qed.

Lemma chan_step_ok ch ch' : chan_ok ch → chan_step ch ch' → chan_ok ch'.
Proof.
  intros (Hinv & Hbuf & Hmax) Hs.
  pose proof (chan_step_inv _ _ Hmax Hinv Hs) as Hinv'.
  pose proof (chan_step_fields _ _ Hs) as (Hb & _).
  split; [done|]. split; [|by rewrite Hb].
  destruct Hs as [x ch' _ _ _ He|x y ch' _ _ Hd|_]; [| |done].
  - unfold enqueue in He. unfold buf_ok in *.
    destruct (buf ch) as [b|]; [|by simplify_eq].
    destruct (c_rem _ _) as [i|]; [|done].
    destruct (_ && _); [|done]. simplify_eq. simpl. by rewrite length_insert.
  - apply dequeue_fields in Hd as (Hb' & Hbuf' & _).
    unfold buf_ok. by rewrite Hbuf', Hb'.
Qed.

(** Every such channel is well-formed and unlocked in every heap
    reachable by calls. *)
Lemma chan_ok_reachable es bs (m : Malloc V) h0 a h1 h2 :
  chancreate es bs m h0 = (Some a, h1) →
  0 < es → 0 ≤ bs → es * bs ≤ INT_MAX →
  rtc step h1 h2 →
  ∃ ch, h2 !! a = Some ch ∧ chan_ok ch ∧ lock ch = false ∧ bufsize ch = bs.
Proof.
  intros Hc Hes Hbs Hmax Hreach.
  destruct (chancreate_ok es bs m h0 a h1 Hc Hes Hbs Hmax)
    as (ch & Ha & Hok & Hl & _ & _ & _ & Hb & _).
  destruct (reach_invariant
              (λ ch, chan_ok ch ∧ lock ch = false ∧ bufsize ch = bs) a)
    with (h := h1) (h' := h2) (ch := ch) as (ch2 & ? & ? & ? & ?); eauto.
  intros c1 c2 (Hok1 & Hl1 & Hb1) Hs.
  pose proof (chan_step_fields _ _ Hs) as (-> & -> & _).
  split; [by apply (chan_step_ok c1)|done].
Qed.


End Calls.


(** A channel made by [chancreate(4, 3)] is such a channel. *)
Lemma chancreate_fits_example :
  chancreate 4 3 always_ok ∅ = (Some 0%nat, heap_of [] 0).
Proof. reflexivity. Qed.

(** When [elemsize * bufsize] wraps, the buffer is shorter than the
    capacity says.  [chancreate(2^30, 4)] asks [malloc] for 0 bytes, and
    the first send writes outside the buffer; [chancreate(8, 2^29 + 1)]
    asks for 8 bytes, and the second send does.  With element size 0 no
    byte is moved: the receiver's variable keeps what it held. *)
Lemma chancreate_wrapped_size_example :
  chansend (Some 0%nat) 7 (chancreate 1073741824 4 always_ok ∅).2 = Fault ∧
  (∃ h1, chansend (Some 0%nat) 7 (chancreate 8 536870913 always_ok ∅).2 = Ret 1 h1 ∧
         chansend (Some 0%nat) 7 h1 = Fault) ∧
  (∃ h1 h2, chansend (Some 0%nat) 7 (chancreate 0 3 always_ok ∅).2 = Ret 1 h1 ∧
            chanrecv (Some 0%nat) 99 h1 = Ret (1, 99) h2).
Proof.
  split_and!; [reflexivity| |].
  - eexists. split; reflexivity.
  - eexists _, _. split; reflexivity.
Qed.

Section CloseAndNil.
Context {V : Type}.
Implicit Types (h : gmap nat (Channel V)) (ch : Channel V) (x y : V).

(** C3: when [chanclose] is called on a channel that holds [K] values
    ([K = nbuf]), the next [K] calls of [chanrecv] return 1 and yield
    those values, front of the buffer first, and the call after them
    returns -1 and leaves the receiver's variable as it was. *)
Theorem close_drains_then_fails a ch h (d : V) :
  h !! a = Some ch → chan_ok ch → lock ch = false →
  ∃ h1 h2,
    chanclose (Some a) h = Ret tt h1 ∧
    length (contents ch) = Z.to_nat (nbuf ch) ∧
    recv_n (Some a) (Z.to_nat (nbuf ch)) d h1
      = Ret ((λ y, (1, y)) <$> contents ch) h2 ∧
    chanrecv (Some a) d h2 = Ret (-1, d) h2.
Proof.
  intros Ha Hok Hl.
  assert (Hok1 : chan_ok (set_closed ch 1)) by exact Hok.
  destruct (recv_n_contents a d (Z.to_nat (nbuf ch)) (set_closed ch 1)
              (<[a := set_closed ch 1]> h))
    as (ch2 & h2 & Hr & Ha2 & Hok2 & Hl2 & Hc2 & Hn2); try done.
  { apply lookup_insert_eq. }
  { destruct Hok as ((? & _) & _). simpl. lia. }
  exists (<[a := set_closed ch 1]> h), h2. split_and!.
  - simpl. by rewrite Ha, Hl.
  - by apply length_contents.
  - exact Hr.
  - simpl. rewrite Ha2, Hl2. unfold chanrecv_wait. rewrite Hn2, Hc2. done.
Qed.

(** C4, as amended: once [chanclose] has returned, whatever calls follow
    and however much room the buffer has, [chansend] returns -1 at once
    and [channbsend] returns 0 at once, the code it also returns for a
    full channel; neither changes the heap. *)
Theorem send_after_close a h0 h1 h2 (x : V) :
  chanclose (Some a) h0 = Ret tt h1 → rtc step h1 h2 →
  chansend (Some a) x h2 = Ret (-1) h2 ∧
  channbsend (Some a) x h2 = Ret 0 h2.
Proof.
  intros Hclose Hreach. simpl in Hclose.
  destruct (h0 !! a) as [ch|] eqn:Ha; [|done].
  destruct (lock ch) eqn:Hl; [done|]. simplify_eq.
  destruct (reach_invariant (λ ch, closed ch ≠ 0 ∧ lock ch = false) a)
    with (h := <[a := set_closed ch 1]> h0) (h' := h2) (ch := set_closed ch 1)
    as (ch2 & Ha2 & Hc2 & Hl2); try done.
  { intros c1 c2 [Hc Hlk] Hs.
    pose proof (chan_step_fields _ _ Hs) as (_ & -> & _ & _ & Hkeep). auto. }
  { apply lookup_insert_eq. }
  simpl. rewrite Ha2, Hl2.
  destruct (closed ch2 =? 0) eqn:E; [lia|done].
Qed.

(** C9: called with a nil handle, every operation returns at once
    whatever the heap holds and leaves it as it was: [chansend] and
    [chanrecv] return -1, [channbsend] and [channbrecv] return 0, [chanlen]
    returns 0, [chanclose] and [chanfree] do nothing. *)
Theorem nil_handle_total h (x : V) :
  chansend None x h = Ret (-1) h ∧
  chanrecv None x h = Ret (-1, x) h ∧
  channbsend None x h = Ret 0 h ∧
  channbrecv None x h = Ret (0, x) h ∧
  chanlen None h = Ret 0 h ∧
  chanclose None h = Ret tt h ∧
  chanfree None h = Ret tt h.
Proof. by split_and!. Qed.

(** C8, as amended: [chancreate] never looks at the element size.  For
    every element size, positive or not, it returns nil only when an
    allocation fails, and otherwise a handle to a new open, empty channel
    that records the element size as given. *)
Theorem chancreate_ignores_elemsize es bs (m : Malloc V) h :
  match chancreate es bs m h with
  | (None, h') =>
      h' = h ∧
      (malloc_chan m = false ∨
       (0 < bs ∧ malloc_buf m (wrap_int (es * bs)) = false))
  | (Some a, h') =>
      h !! a = None ∧
      ∃ ch, h' = <[a := ch]> h ∧ elemsize ch = es ∧ bufsize ch = bs ∧
            nbuf ch = 0 ∧ off ch = 0 ∧ closed ch = 0 ∧ lock ch = false
  end.
Proof.
  destruct (chancreate es bs m h) as [[a|] h'] eqn:Hc.
  - apply chancreate_some in Hc as [Hfresh ->]. split; [done|].
    eexists. split; [done|]. done.
  - unfold chancreate in Hc.
    destruct (malloc_chan m); simpl in Hc; [|simplify_eq; auto].
    destruct (0 <? bs) eqn:Hbs; [|done].
    destruct (malloc_buf m _) eqn:Hm; [done|]. simplify_eq.
    split; [done|]. right. split; [lia|done].
Qed.

End CloseAndNil.

Lemma close_drains_then_fails_witness :
  ∃ h1 h2,
    chanclose (Some 0%nat) (heap_of [10; 20] 0) = Ret tt h1 ∧
    length (contents (chan_of [10; 20] 0)) = 2%nat ∧
    recv_n (Some 0%nat) 2 0 h1 = Ret [(1, 10); (1, 20)] h2 ∧
    chanrecv (Some 0%nat) 0 h2 = Ret (-1, 0) h2.
Proof.
  apply (close_drains_then_fails 0%nat (chan_of [10; 20] 0) (heap_of [10; 20] 0) 0).
  - reflexivity.
  - unfold chan_ok, chan_inv, buf_ok, INT_MAX. simpl. lia.
  - reflexivity.
Defined.

Lemma send_after_close_witness :
  chansend (Some 0%nat) 7 (heap_of [10] 1) = Ret (-1) (heap_of [10] 1) ∧
  channbsend (Some 0%nat) 7 (heap_of [10] 1) = Ret 0 (heap_of [10] 1).
Proof.
  apply (send_after_close 0%nat (heap_of [10] 0) (heap_of [10] 1) (heap_of [10] 1) 7).
  - reflexivity.
  - apply rtc_refl.
Defined.

(** C4 as stated fails: on a closed channel with room, [channbsend] returns
    0, which callers read as "would block", where [chansend] returns -1. *)
Lemma trysend_after_close_returns_zero :
  chanclose (Some 0%nat) (heap_of [10] 0) = Ret tt (heap_of [10] 1) ∧
  channbsend (Some 0%nat) 7 (heap_of [10] 1) = Ret 0 (heap_of [10] 1) ∧
  status_of 0 = WouldBlock ∧ status_of 0 ≠ ClosedError.
Proof. by split_and!. Qed.

(** C8 as stated fails: with element size 0, and with element size -4,
    [chancreate] returns a channel, on which [chanlen] answers 0. *)
Lemma chancreate_accepts_nonpositive_elemsize :
  chancreate 0 0 always_ok ∅
    = (Some 0%nat, {[ 0%nat := mkChannel None 0 0 0 0 false 0 ]}) ∧
  chancreate (-4) 0 always_ok ∅
    = (Some 0%nat, {[ 0%nat := mkChannel None (-4) 0 0 0 false 0 ]}) ∧
  chanlen (Some 0%nat) (chancreate (-4) 0 always_ok ∅).2
    = Ret 0 (chancreate (-4) 0 always_ok ∅).2.
Proof. by split_and!. Qed.

(** * alt *)

Section AltFacts.
Context {V : Type}.
Implicit Types (h : gmap nat (Channel V)) (ch : Channel V) (x y : V)
  (e : Alt V) (alts rest : list (Alt V)).

Lemma set_v_id e : set_v e (v e) = e.
Proof. by destruct e. Qed.

Lemma store_back_id alts i e : alts !! i = Some e → <[i := set_v e (v e)]> alts = alts.
Proof. intros H. rewrite set_v_id. by apply list_insert_id. Qed.

Lemma drop_cons_inv alts i e rest :
  drop i alts = e :: rest → alts !! i = Some e ∧ drop (S i) alts = rest.
Proof.
  intros H. split.
  - rewrite <- (Nat.add_0_r i), <- lookup_drop, H. done.
  - replace (S i) with (i + 1)%nat by lia. rewrite <- drop_drop, H. done.
Qed.

(** A call that returns without success has changed nothing. *)
Lemma channbrecv_ret p x h r y h' :
  channbrecv p x h = Ret (r, y) h' → (r = 0 ∧ y = x ∧ h' = h) ∨ r = 1.
Proof.
  destruct p as [a|]; simpl; [|intros; simplify_eq; auto].
  destruct (h !! a) as [ch|]; [|done].
  destruct (lock ch); [intros; simplify_eq; auto|].
  destruct (nbuf ch <=? 0); [intros; simplify_eq; auto|].
  destruct (dequeue ch x) as [[??]|]; intros; simplify_eq; auto.
Qed.

Lemma channbsend_ret p x h r h' :
  channbsend p x h = Ret r h' → (r = 0 ∧ h' = h) ∨ r = 1.
Proof.
  destruct p as [a|]; simpl; [|intros; simplify_eq; auto].
  destruct (h !! a) as [ch|]; [|done].
  destruct (lock ch); [intros; simplify_eq; auto|].
  destruct (_ || _); [intros; simplify_eq; auto|].
  destruct (enqueue ch x); intros; simplify_eq; auto.
Qed.

Lemma chanrecv_ret p x h r y h' :
  chanrecv p x h = Ret (r, y) h' → (r = -1 ∧ y = x ∧ h' = h) ∨ r = 1.
Proof.
  destruct p as [a|]; simpl; [|intros; simplify_eq; auto].
  destruct (h !! a) as [ch|]; [|done].
  destruct (lock ch); [done|]. unfold chanrecv_wait.
  destruct (_ && _); [done|].
  destruct (_ && _); [intros; simplify_eq; auto|].
  destruct (dequeue ch x) as [[??]|]; intros; simplify_eq; auto.
Qed.

Lemma chansend_ret p x h r h' :
  chansend p x h = Ret r h' → (r = -1 ∧ h' = h) ∨ r = 1.
Proof.
  destruct p as [a|]; simpl; [|intros; simplify_eq; auto].
  destruct (h !! a) as [ch|]; [|done].
  destruct (lock ch); [done|].
  destruct (negb _); [intros; simplify_eq; auto|]. unfold chansend_wait.
  destruct (_ && _); [done|].
  destruct (negb _); [intros; simplify_eq; auto|].
  destruct (enqueue ch x); intros; simplify_eq; auto.
Qed.

(** The first loop goes past a prefix of entries that are not ready. *)
Lemma alt_poll_skip pre : ∀ rest i alts h,
  Forall (not_ready h) pre → drop i alts = pre ++ rest →
  alt_poll (pre ++ rest) i alts h = alt_poll rest (i + length pre) alts h.
Proof.
  induction pre as [|e pre IH]; intros rest i alts h Hnr Hdrop.
  - simpl. by rewrite Nat.add_0_r.
  - apply Forall_cons in Hnr as [(Hend & Hnoblk & Hrcv & Hsnd) Hnr].
    simpl in Hdrop. apply drop_cons_inv in Hdrop as [Hi Hdrop].
    replace (i + length (e :: pre))%nat with (S i + length pre)%nat by (simpl; lia).
    rewrite <- (IH rest (S i) alts h Hnr Hdrop). simpl.
    destruct (Z.eqb_spec (op e) CHANEND) as [|_]; [done|].
    destruct (Z.eqb_spec (op e) CHANNOBLK) as [|_]; [done|].
    destruct (Z.eqb_spec (op e) CHANRCV) as [Hop|_].
    { specialize (Hrcv Hop).
      destruct (channbrecv (c e) (v e) h) as [[r y] h'| |] eqn:Hcall; try done.
      simpl in Hrcv. simplify_eq.
      apply channbrecv_ret in Hcall as [(_ & -> & ->)|?]; [|done].
      simpl. by rewrite store_back_id. }
    destruct (Z.eqb_spec (op e) CHANSND) as [Hop|_]; [|done].
    specialize (Hsnd Hop).
    destruct (channbsend (c e) (v e) h) as [r h'| |] eqn:Hcall; try done.
    simpl in Hsnd. simplify_eq.
    apply channbsend_ret in Hcall as [(_ & ->)|?]; [|done]. done.
Qed.

(** The second loop goes past a prefix of entries that fail at once. *)
Lemma alt_block_skip pre : ∀ rest i alts h,
  Forall (fails_at_once h) pre → drop i alts = pre ++ rest →
  alt_block (pre ++ rest) i alts h = alt_block rest (i + length pre) alts h.
Proof.
  induction pre as [|e pre IH]; intros rest i alts h Hf Hdrop.
  - simpl. by rewrite Nat.add_0_r.
  - apply Forall_cons in Hf as [(Hend & Hrcv & Hsnd) Hf].
    simpl in Hdrop. apply drop_cons_inv in Hdrop as [Hi Hdrop].
    replace (i + length (e :: pre))%nat with (S i + length pre)%nat by (simpl; lia).
    rewrite <- (IH rest (S i) alts h Hf Hdrop). simpl.
    destruct (Z.eqb_spec (op e) CHANEND) as [|_]; [done|].
    destruct (Z.eqb_spec (op e) CHANRCV) as [Hop|_].
    { destruct (Hrcv Hop) as (r & Hcode & Hr).
      destruct (chanrecv (c e) (v e) h) as [[r' y] h'| |] eqn:Hcall; try done.
      simpl in Hcode. simplify_eq.
      apply chanrecv_ret in Hcall as [(-> & -> & ->)|?]; [|lia].
      simpl. by rewrite store_back_id. }
    destruct (Z.eqb_spec (op e) CHANSND) as [Hop|_]; [|done].
    destruct (Hsnd Hop) as (r & Hcode & Hr).
    destruct (chansend (c e) (v e) h) as [r' h'| |] eqn:Hcall; try done.
    simpl in Hcode. simplify_eq.
    apply chansend_ret in Hcall as [(-> & ->)|?]; [|lia]. done.
Qed.

Lemma alt_block_one_call rest : ∀ i alts h, one_call h (alt_block rest i alts h).
Proof.
  induction rest as [|e rest IH]; intros i alts h; [done|]. simpl.
  destruct (op e =? CHANEND); [by left|].
  destruct (op e =? CHANRCV).
  { destruct (chanrecv (c e) (v e) h) as [[r y] h'|a w h'|] eqn:Hcall; simpl; [| |done].
    - destruct (chanrecv_ret _ _ _ _ _ _ Hcall) as [(-> & -> & ->)| ->]; simpl;
        [apply IH|].
      right. exists (Recv (v e)), (c e). simpl. by rewrite Hcall.
    - right. exists (Recv (v e)), (c e). simpl. by rewrite Hcall. }
  destruct (op e =? CHANSND); [|apply IH].
  destruct (chansend (c e) (v e) h) as [r h'|a w h'|] eqn:Hcall; simpl; [| |done].
  - destruct (chansend_ret _ _ _ _ _ Hcall) as [(-> & ->)| ->]; simpl; [apply IH|].
    right. exists (Send (v e)), (c e). simpl. by rewrite Hcall.
  - right. exists (Send (v e)), (c e). simpl. by rewrite Hcall.
Qed.

Lemma alt_poll_one_call rest : ∀ i alts h, one_call h (alt_poll rest i alts h).
Proof.
  induction rest as [|e rest IH]; intros i alts h; [done|]. simpl.
  destruct (op e =? CHANEND); [apply alt_block_one_call|].
  destruct (op e =? CHANNOBLK); [by left|].
  destruct (op e =? CHANRCV).
  { destruct (channbrecv (c e) (v e) h) as [[r y] h'|a w h'|] eqn:Hcall; simpl; [| |done].
    - destruct (channbrecv_ret _ _ _ _ _ _ Hcall) as [(-> & -> & ->)| ->]; simpl;
        [apply IH|].
      right. exists (NbRecv (v e)), (c e). simpl. by rewrite Hcall.
    - right. exists (NbRecv (v e)), (c e). simpl. by rewrite Hcall. }
  destruct (op e =? CHANSND); [|apply IH].
  destruct (channbsend (c e) (v e) h) as [r h'|a w h'|] eqn:Hcall; simpl; [| |done].
  - destruct (channbsend_ret _ _ _ _ _ Hcall) as [(-> & ->)| ->]; simpl; [apply IH|].
    right. exists (NbSend (v e)), (c e). simpl. by rewrite Hcall.
  - right. exists (NbSend (v e)), (c e). simpl. by rewrite Hcall.
Qed.

Lemma alt_one_call alts h : one_call h (alt alts h).
Proof. apply alt_poll_one_call. Qed.

End AltFacts.

Section AltTheorems.
Context {V : Type}.
Implicit Types (h : gmap nat (Channel V)) (ch : Channel V) (x y : V)
  (e : Alt V) (alts rest : list (Alt V)).

Lemma not_ready_recv h e a ch :
  op e = CHANRCV → c e = Some a → h !! a = Some ch → nbuf ch ≤ 0 →
  not_ready h e.
Proof.
  intros Hop Hc Ha Hn. unfold not_ready. rewrite Hop, Hc.
  split_and!; try done. intros _. simpl. rewrite Ha.
  destruct (lock ch); [done|]. destruct (nbuf ch <=? 0) eqn:E; [done|lia].
Qed.

(** What the four calls do for an entry on a closed channel. *)
Lemma on_closed_calls h e :
  on_closed h e →
  (op e = CHANRCV → channbrecv (c e) (v e) h = Ret (0, v e) h ∧
                    chanrecv (c e) (v e) h = Ret (-1, v e) h) ∧
  (op e = CHANSND → channbsend (c e) (v e) h = Ret 0 h ∧
                    chansend (c e) (v e) h = Ret (-1) h).
Proof.
  intros (a & ch & -> & Ha & Hl & Hc & Hk).
  destruct (closed ch =? 0) eqn:Ec; [lia|].
  split; intros Hop; simpl; rewrite Ha, Hl.
  - destruct Hk as [[_ Hn]|Hs]; [|rewrite Hop in Hs; done].
    unfold chanrecv_wait. rewrite Ec.
    destruct (nbuf ch <=? 0) eqn:En; [done|lia].
  - by rewrite Ec.
Qed.

Lemma on_closed_op h e : on_closed h e → op e = CHANRCV ∨ op e = CHANSND.
Proof. intros (a & ch & _ & _ & _ & _ & [[? _]|?]); auto. Qed.

Lemma on_closed_not_ready h e : on_closed h e → not_ready h e.
Proof.
  intros Hd. pose proof (on_closed_calls h e Hd) as [Hr Hs].
  unfold not_ready. split_and!.
  - by destruct (on_closed_op h e Hd) as [->| ->].
  - by destruct (on_closed_op h e Hd) as [->| ->].
  - intros Hop. destruct (Hr Hop) as [-> _]. done.
  - intros Hop. destruct (Hs Hop) as [-> _]. done.
Qed.

Lemma on_closed_fails_at_once h e : on_closed h e → fails_at_once h e.
Proof.
  intros Hd. pose proof (on_closed_calls h e Hd) as [Hr Hs].
  unfold fails_at_once. split_and!.
  - by destruct (on_closed_op h e Hd) as [->| ->].
  - intros Hop. destruct (Hr Hop) as [_ ->]. by exists (-1).
  - intros Hop. destruct (Hs Hop) as [_ ->]. by exists (-1).
Qed.

Lemma alt_block_avoids rest : ∀ i alts h,
  drop i alts = rest → avoids_closed h alts (alt_block rest i alts h).
Proof.
  induction rest as [|e rest IH]; intros i alts h Hdrop; [done|].
  apply drop_cons_inv in Hdrop as [Hi Hdrop]. simpl.
  destruct (Z.eqb_spec (op e) CHANEND) as [|_]; [simpl; intros; lia|].
  destruct (Z.eqb_spec (op e) CHANRCV) as [Hop|_].
  { destruct (chanrecv (c e) (v e) h) as [[r y] h'|a w h'|] eqn:Hcall; simpl; [| |done].
    - destruct (chanrecv_ret _ _ _ _ _ _ Hcall) as [(-> & -> & ->)| ->]; simpl.
      + rewrite store_back_id by done. by apply IH.
      + intros e' _. rewrite Nat2Z.id, Hi. intros [= <-] Hd.
        destruct (on_closed_calls h e Hd) as [Hr _].
        destruct (Hr Hop) as [_ Hr']. congruence.
    - intros e'. rewrite Hi. intros [= <-] Hd.
      destruct (on_closed_calls h e Hd) as [Hr _].
      destruct (Hr Hop) as [_ Hr']. congruence. }
  destruct (Z.eqb_spec (op e) CHANSND) as [Hop|_]; [|by apply IH].
  destruct (chansend (c e) (v e) h) as [r h'|a w h'|] eqn:Hcall; simpl; [| |done].
  - destruct (chansend_ret _ _ _ _ _ Hcall) as [(-> & ->)| ->]; simpl.
    + by apply IH.
    + intros e' _. rewrite Nat2Z.id, Hi. intros [= <-] Hd.
      destruct (on_closed_calls h e Hd) as [_ Hs].
      destruct (Hs Hop) as [_ Hs']. congruence.
  - intros e'. rewrite Hi. intros [= <-] Hd.
    destruct (on_closed_calls h e Hd) as [_ Hs].
    destruct (Hs Hop) as [_ Hs']. congruence.
Qed.

Lemma alt_poll_avoids rest : ∀ i alts h,
  drop i alts = rest → avoids_closed h alts (alt_poll rest i alts h).
Proof.
  induction rest as [|e rest IH]; intros i alts h Hdrop; [done|].
  apply drop_cons_inv in Hdrop as [Hi Hdrop]. simpl.
  destruct (Z.eqb_spec (op e) CHANEND) as [|_]; [by apply alt_block_avoids|].
  destruct (Z.eqb_spec (op e) CHANNOBLK) as [Hop|_].
  { simpl. intros e' _. rewrite Nat2Z.id, Hi. intros [= <-] Hd.
    destruct (on_closed_op h e Hd) as [Hk|Hk]; rewrite Hk in Hop; done. }
  destruct (Z.eqb_spec (op e) CHANRCV) as [Hop|_].
  { destruct (channbrecv (c e) (v e) h) as [[r y] h'|a w h'|] eqn:Hcall; simpl; [| |done].
    - destruct (channbrecv_ret _ _ _ _ _ _ Hcall) as [(-> & -> & ->)| ->]; simpl.
      + rewrite store_back_id by done. by apply IH.
      + intros e' _. rewrite Nat2Z.id, Hi. intros [= <-] Hd.
        destruct (on_closed_calls h e Hd) as [Hr _].
        destruct (Hr Hop) as [Hr' _]. congruence.
    - intros e'. rewrite Hi. intros [= <-] Hd.
      destruct (on_closed_calls h e Hd) as [Hr _].
      destruct (Hr Hop) as [Hr' _]. congruence. }
  destruct (Z.eqb_spec (op e) CHANSND) as [Hop|_]; [|by apply IH].
  destruct (channbsend (c e) (v e) h) as [r h'|a w h'|] eqn:Hcall; simpl; [| |done].
  - destruct (channbsend_ret _ _ _ _ _ Hcall) as [(-> & ->)| ->]; simpl.
    + by apply IH.
    + intros e' _. rewrite Nat2Z.id, Hi. intros [= <-] Hd.
      destruct (on_closed_calls h e Hd) as [_ Hs].
      destruct (Hs Hop) as [Hs' _]. congruence.
  - intros e'. rewrite Hi. intros [= <-] Hd.
    destruct (on_closed_calls h e Hd) as [_ Hs].
    destruct (Hs Hop) as [Hs' _]. congruence.
Qed.

(** A receive entry on a channel that holds a value, reached by the first
    loop, is selected. *)
Lemma alt_poll_recv_ready pre e rest h a ch :
  Forall (not_ready h) pre →
  op e = CHANRCV → c e = Some a →
  h !! a = Some ch → chan_ok ch → lock ch = false → 0 < nbuf ch →
  ∃ y ch', contents ch = y :: contents ch' ∧ closed ch' = closed ch ∧
    alt (pre ++ e :: rest) h
      = AltRet (Z.of_nat (length pre)) (pre ++ set_v e y :: rest) (<[a := ch']> h).
Proof.
  intros Hpre Hop Hc Ha Hok Hl Hn.
  destruct (chanrecv_some a ch (v e) h Ha Hok Hl Hn)
    as (y & ch' & _ & Hnb & _ & _ & Hcl & Hq & _).
  exists y, ch'. split_and!; try done.
  unfold alt. rewrite (alt_poll_skip pre (e :: rest) 0) by done.
  simpl. rewrite Hop, Hc, Hnb. simpl. f_equal.
  replace (length pre) with (length pre + 0)%nat at 1 by lia.
  by rewrite insert_app_r.
Qed.

(** C5: for [alt] over [receive(A), receive(B), ...] with A empty and B
    holding at least one value (B well-formed and not locked), the call
    returns 1 without suspending.  The value slot of the second entry
    then holds the front value [y] of B, whatever it held before, and
    nothing else in the array has changed; B has lost that value and
    keeps the others, and A is exactly as it was. *)
Theorem alt_first_ready_wins (eA eB : Alt V) rest h a b cA cB :
  op eA = CHANRCV → c eA = Some a → op eB = CHANRCV → c eB = Some b →
  h !! a = Some cA → nbuf cA = 0 →
  h !! b = Some cB → chan_ok cB → lock cB = false → 0 < nbuf cB →
  ∃ y cB', contents cB = y :: contents cB' ∧
    alt (eA :: eB :: rest) h
      = AltRet 1 (eA :: mkAlt (Some b) y CHANRCV :: rest) (<[b := cB']> h) ∧
    (<[b := cB']> h) !! a = Some cA.
Proof.
  intros HopA HcA HopB HcB Ha HnA Hb Hok Hl HnB.
  destruct (alt_poll_recv_ready [eA] eB rest h b cB)
    as (y & cB' & Hq & _ & Halt); try done.
  { apply Forall_singleton. apply (not_ready_recv h eA a cA); try done. lia. }
  exists y, cB'. split_and!; try done.
  - simpl in Halt. rewrite Halt. unfold set_v. by rewrite HcB, HopB.
  - rewrite lookup_insert_ne; [done|]. intros ->. simplify_eq. lia.
Qed.

End AltTheorems.

Lemma alt_first_ready_wins_witness :
  ∃ y cB', contents (chan_of [10; 20] 0) = y :: contents cB' ∧
    alt recv_recv (two_chans [] 0 [10; 20])
      = AltRet 1 [mkAlt (Some 0%nat) 0 CHANRCV; mkAlt (Some 1%nat) y CHANRCV;
                  mkAlt None 0 CHANEND]
          (<[1%nat := cB']> (two_chans [] 0 [10; 20])) ∧
    (<[1%nat := cB']> (two_chans [] 0 [10; 20])) !! 0%nat = Some (chan_of [] 0).
Proof.
  apply (alt_first_ready_wins (mkAlt (Some 0%nat) 0 CHANRCV)
           (mkAlt (Some 1%nat) 0 CHANRCV) [mkAlt None 0 CHANEND]
           (two_chans [] 0 [10; 20]) 0%nat 1%nat (chan_of [] 0) (chan_of [10; 20] 0));
    try reflexivity.
  unfold chan_ok, chan_inv, buf_ok, INT_MAX. simpl. lia.
Defined.

Section AltClosed.
Context {V : Type}.
Implicit Types (h : gmap nat (Channel V)) (ch : Channel V) (x y : V)
  (e : Alt V) (alts rest : list (Alt V)).

Lemma alt_all_fail es s junk h :
  Forall (not_ready h) es → Forall (fails_at_once h) es → op s = CHANEND →
  alt (es ++ s :: junk) h = AltRet (-1) (es ++ s :: junk) h.
Proof.
  intros Hnr Hf Hs. unfold alt.
  rewrite (alt_poll_skip es (s :: junk) 0) by done.
  simpl. rewrite Hs. simpl.
  rewrite (alt_block_skip es (s :: junk) 0) by done.
  simpl. rewrite Hs. done.
Qed.

(** ** Entries on closed channels are skipped

    The array [take n alts ++ e :: drop n alts] is [alts] with the entry
    [e] in addition, at index [n]. *)

Lemma ins_lookup_lt n e alts i :
  (i < n)%nat → (n ≤ length alts)%nat →
  (take n alts ++ e :: drop n alts) !! i = alts !! i.
Proof.
  intros Hi Hn. rewrite lookup_app_l by (rewrite length_take_le; lia).
  rewrite lookup_take. destruct (decide (i < n)%nat); [done|lia].
Qed.

Lemma ins_lookup_ge n e alts j :
  (n ≤ j)%nat → (n ≤ length alts)%nat →
  (take n alts ++ e :: drop n alts) !! S j = alts !! j.
Proof.
  intros Hj Hn. rewrite lookup_app_r by (rewrite length_take_le; lia).
  rewrite length_take_le by lia.
  replace (S j - n)%nat with (S (j - n)) by lia. simpl.
  rewrite lookup_drop. f_equal. lia.
Qed.

Lemma ins_insert_lt n e alts i z :
  (i < n)%nat → (n ≤ length alts)%nat →
  take n (<[i := z]> alts) ++ e :: drop n (<[i := z]> alts)
    = <[i := z]> (take n alts ++ e :: drop n alts).
Proof.
  intros Hi Hn. rewrite take_insert_lt, drop_insert_lt by lia.
  by rewrite insert_app_l by (rewrite length_take_le; lia).
Qed.

Lemma ins_insert_ge n e alts j z :
  (n ≤ j)%nat → (n ≤ length alts)%nat →
  take n (<[j := z]> alts) ++ e :: drop n (<[j := z]> alts)
    = <[S j := z]> (take n alts ++ e :: drop n alts).
Proof.
  intros Hj Hn. rewrite take_insert_ge, drop_insert_ge by lia.
  rewrite insert_app_r_alt by (rewrite length_take_le; lia).
  rewrite length_take_le by lia.
  by replace (S j - n)%nat with (S (j - n)) by lia.
Qed.

(** How the outcomes of the two arrays compare, at an index below [n] and
    at an index from [n] on. *)
Lemma with_entry_minus n e alts h :
  with_entry n e (AltRet (-1) alts h)
    = AltRet (-1) (take n alts ++ e :: drop n alts) h.
Proof. simpl. destruct (Z.leb_spec (Z.of_nat n) (-1)); [lia|done]. Qed.

Lemma with_entry_ret_lt n e alts i h :
  (i < n)%nat →
  with_entry n e (AltRet (Z.of_nat i) alts h)
    = AltRet (Z.of_nat i) (take n alts ++ e :: drop n alts) h.
Proof.
  intros Hi. cbn [with_entry].
  destruct (Z.leb_spec (Z.of_nat n) (Z.of_nat i)); [lia|done].
Qed.

Lemma with_entry_ret_ge n e alts j h :
  (n ≤ j)%nat →
  with_entry n e (AltRet (Z.of_nat j) alts h)
    = AltRet (Z.of_nat (S j)) (take n alts ++ e :: drop n alts) h.
Proof.
  intros Hj. cbn [with_entry].
  destruct (Z.leb_spec (Z.of_nat n) (Z.of_nat j)); [|lia]. f_equal. lia.
Qed.

Lemma with_entry_block_lt n e alts i a w h :
  (i < n)%nat →
  with_entry n e (AltBlock i a w alts h)
    = AltBlock i a w (take n alts ++ e :: drop n alts) h.
Proof. intros Hi. cbn [with_entry]. destruct (Nat.leb_spec n i); [lia|done]. Qed.

Lemma with_entry_block_ge n e alts j a w h :
  (n ≤ j)%nat →
  with_entry n e (AltBlock j a w alts h)
    = AltBlock (S j) a w (take n alts ++ e :: drop n alts) h.
Proof. intros Hj. cbn [with_entry]. destruct (Nat.leb_spec n j); [done|lia]. Qed.

(** The second loop behind the additional entry. *)
Lemma alt_block_shift n e h : ∀ rest j alts,
  (n ≤ j)%nat → drop j alts = rest →
  alt_block rest (S j) (take n alts ++ e :: drop n alts) h
    = with_entry n e (alt_block rest j alts h).
Proof.
  induction rest as [|x rest IH]; intros j alts Hj Hdrop; [done|].
  apply drop_cons_inv in Hdrop as [Hx Hdrop].
  assert (Hlen : (n ≤ length alts)%nat) by (apply lookup_lt_Some in Hx; lia).
  assert (Hx' : (take n alts ++ e :: drop n alts) !! S j = Some x)
    by (by rewrite ins_lookup_ge).
  cbn [alt_block].
  destruct (op x =? CHANEND); [by rewrite with_entry_minus|].
  destruct (op x =? CHANRCV).
  { destruct (chanrecv (c x) (v x) h) as [[r y] h'|a w h'|] eqn:Hcall;
      cbn [alt_recv_done]; [| by rewrite with_entry_block_ge |done].
    destruct (chanrecv_ret _ _ _ _ _ _ Hcall) as [(-> & -> & ->)| ->]; simpl.
    - rewrite !store_back_id by done. apply IH; [lia|done].
    - rewrite <- ins_insert_ge by done. by rewrite <- with_entry_ret_ge. }
  destruct (op x =? CHANSND); [|apply IH; [lia|done]].
  destruct (chansend (c x) (v x) h) as [r h'|a w h'|] eqn:Hcall;
    cbn [alt_send_done]; [| by rewrite with_entry_block_ge |done].
  destruct (chansend_ret _ _ _ _ _ Hcall) as [(-> & ->)| ->]; simpl.
  - apply IH; [lia|done].
  - by rewrite <- with_entry_ret_ge.
Qed.

(** The second loop up to the additional entry, which it goes past. *)
Lemma alt_block_insert n e h :
  on_closed h e → ∀ k i alts,
  n = (i + k)%nat → (n ≤ length alts)%nat →
  alt_block (drop i (take n alts ++ e :: drop n alts)) i
      (take n alts ++ e :: drop n alts) h
    = with_entry n e (alt_block (drop i alts) i alts h).
Proof.
  intros Hcl. pose proof (on_closed_calls h e Hcl) as [Hr Hs].
  induction k as [|k IH]; intros i alts Hn Hlen.
  - assert (i = n) by lia. subst i.
    rewrite (drop_app_length' _ _ n) by (by rewrite length_take_le).
    assert (He : (take n alts ++ e :: drop n alts) !! n = Some e)
      by (apply list_lookup_middle; by rewrite length_take_le).
    cbn [alt_block].
    destruct (on_closed_op h e Hcl) as [Hop|Hop]; rewrite Hop; simpl.
    + destruct (Hr Hop) as [_ ->]. simpl.
      rewrite store_back_id by done. by apply alt_block_shift.
    + destruct (Hs Hop) as [_ ->]. simpl. by apply alt_block_shift.
  - destruct (lookup_lt_is_Some_2 alts i) as [x Hx]; [lia|].
    assert (Hx' : (take n alts ++ e :: drop n alts) !! i = Some x)
      by (by rewrite ins_lookup_lt by lia).
    rewrite (drop_S _ _ _ Hx), (drop_S _ _ _ Hx'). cbn [alt_block].
    destruct (op x =? CHANEND); [by rewrite with_entry_minus|].
    destruct (op x =? CHANRCV).
    { destruct (chanrecv (c x) (v x) h) as [[r y] h'|a w h'|] eqn:Hcall;
        cbn [alt_recv_done]; [| by rewrite with_entry_block_lt by lia |done].
      destruct (chanrecv_ret _ _ _ _ _ _ Hcall) as [(-> & -> & ->)| ->]; simpl.
      - rewrite !store_back_id by done. apply IH; [lia|done].
      - rewrite <- ins_insert_lt by lia.
        by rewrite <- (with_entry_ret_lt n e _ i) by lia. }
    destruct (op x =? CHANSND); [|apply IH; [lia|done]].
    destruct (chansend (c x) (v x) h) as [r h'|a w h'|] eqn:Hcall;
      cbn [alt_send_done]; [| by rewrite with_entry_block_lt by lia |done].
    destruct (chansend_ret _ _ _ _ _ Hcall) as [(-> & ->)| ->]; simpl.
    + apply IH; [lia|done].
    + by rewrite <- (with_entry_ret_lt n e _ i) by lia.
Qed.

(** The first loop behind the additional entry. *)
Lemma alt_poll_shift n e h :
  on_closed h e → ∀ rest j alts,
  (n ≤ j)%nat → drop j alts = rest →
  alt_poll rest (S j) (take n alts ++ e :: drop n alts) h
    = with_entry n e (alt_poll rest j alts h).
Proof.
  intros Hcl. induction rest as [|x rest IH]; intros j alts Hj Hdrop; [done|].
  apply drop_cons_inv in Hdrop as [Hx Hdrop].
  assert (Hlen : (n ≤ length alts)%nat) by (apply lookup_lt_Some in Hx; lia).
  assert (Hx' : (take n alts ++ e :: drop n alts) !! S j = Some x)
    by (by rewrite ins_lookup_ge).
  cbn [alt_poll].
  destruct (op x =? CHANEND).
  { by apply (alt_block_insert n e h Hcl n 0%nat alts). }
  destruct (op x =? CHANNOBLK); [by rewrite <- with_entry_ret_ge|].
  destruct (op x =? CHANRCV).
  { destruct (channbrecv (c x) (v x) h) as [[r y] h'|a w h'|] eqn:Hcall;
      [| by rewrite with_entry_block_ge |done].
    destruct (channbrecv_ret _ _ _ _ _ _ Hcall) as [(-> & -> & ->)| ->]; simpl.
    - rewrite !store_back_id by done. apply IH; [lia|done].
    - rewrite <- ins_insert_ge by done. by rewrite <- with_entry_ret_ge. }
  destruct (op x =? CHANSND); [|apply IH; [lia|done]].
  destruct (channbsend (c x) (v x) h) as [r h'|a w h'|] eqn:Hcall;
    [| by rewrite with_entry_block_ge |done].
  destruct (channbsend_ret _ _ _ _ _ Hcall) as [(-> & ->)| ->]; simpl.
  - apply IH; [lia|done].
  - by rewrite <- with_entry_ret_ge.
Qed.

(** The first loop up to the additional entry, which it goes past. *)
Lemma alt_poll_insert n e h :
  on_closed h e → ∀ k i alts,
  n = (i + k)%nat → (n ≤ length alts)%nat →
  alt_poll (drop i (take n alts ++ e :: drop n alts)) i
      (take n alts ++ e :: drop n alts) h
    = with_entry n e (alt_poll (drop i alts) i alts h).
Proof.
  intros Hcl. pose proof (on_closed_calls h e Hcl) as [Hr Hs].
  induction k as [|k IH]; intros i alts Hn Hlen.
  - assert (i = n) by lia. subst i.
    rewrite (drop_app_length' _ _ n) by (by rewrite length_take_le).
    assert (He : (take n alts ++ e :: drop n alts) !! n = Some e)
      by (apply list_lookup_middle; by rewrite length_take_le).
    cbn [alt_poll].
    destruct (on_closed_op h e Hcl) as [Hop|Hop]; rewrite Hop; simpl.
    + destruct (Hr Hop) as [-> _]. simpl.
      rewrite store_back_id by done. by apply alt_poll_shift.
    + destruct (Hs Hop) as [-> _]. simpl. by apply alt_poll_shift.
  - destruct (lookup_lt_is_Some_2 alts i) as [x Hx]; [lia|].
    assert (Hx' : (take n alts ++ e :: drop n alts) !! i = Some x)
      by (by rewrite ins_lookup_lt by lia).
    rewrite (drop_S _ _ _ Hx), (drop_S _ _ _ Hx'). cbn [alt_poll].
    destruct (op x =? CHANEND).
    { by apply (alt_block_insert n e h Hcl n 0%nat alts). }
    destruct (op x =? CHANNOBLK);
      [by rewrite <- (with_entry_ret_lt n e _ i) by lia|].
    destruct (op x =? CHANRCV).
    { destruct (channbrecv (c x) (v x) h) as [[r y] h'|a w h'|] eqn:Hcall;
        [| by rewrite with_entry_block_lt by lia |done].
      destruct (channbrecv_ret _ _ _ _ _ _ Hcall) as [(-> & -> & ->)| ->]; simpl.
      - rewrite !store_back_id by done. apply IH; [lia|done].
      - rewrite <- ins_insert_lt by lia.
        by rewrite <- (with_entry_ret_lt n e _ i) by lia. }
    destruct (op x =? CHANSND); [|apply IH; [lia|done]].
    destruct (channbsend (c x) (v x) h) as [r h'|a w h'|] eqn:Hcall;
      [| by rewrite with_entry_block_lt by lia |done].
    destruct (channbsend_ret _ _ _ _ _ Hcall) as [(-> & ->)| ->]; simpl.
    + apply IH; [lia|done].
    + by rewrite <- (with_entry_ret_lt n e _ i) by lia.
Qed.

Lemma alt_skips_closed l1 e l2 h :
  on_closed h e →
  alt (l1 ++ e :: l2) h = with_entry (length l1) e (alt (l1 ++ l2) h).
Proof.
  intros Hcl.
  pose proof (alt_poll_insert (length l1) e h Hcl (length l1) 0%nat (l1 ++ l2)
                eq_refl) as H.
  rewrite take_app_length, drop_app_length in H.
  apply H. rewrite length_app. lia.
Qed.

(** C7, as amended: in [alt], a receive entry on a closed channel that
    still holds a value, reached by the first loop, is selected: the call
    returns its index, the entry's value slot holds the front value and
    the channel has lost it.  A receive on a closed, empty channel and a
    send on a closed channel are never selected: the call neither returns
    the index of such an entry nor is suspended in one.  Its outcome is
    that of the other entries: it is the outcome of the call on the array
    without the entry, which returns or suspends with the same heap, on
    the same channel and in the same entry, whose index is one higher
    when it comes after the entry left out.  The call returns -1 when
    every entry before the sentinel is of that kind. *)
Theorem alt_on_closed_channels :
  (∀ pre e rest h a ch,
     Forall (not_ready h) pre → op e = CHANRCV → c e = Some a →
     h !! a = Some ch → closed ch ≠ 0 →
     chan_ok ch → lock ch = false → 0 < nbuf ch →
     ∃ y ch', contents ch = y :: contents ch' ∧ closed ch' = closed ch ∧
       alt (pre ++ e :: rest) h
         = AltRet (Z.of_nat (length pre))
             (pre ++ mkAlt (Some a) y CHANRCV :: rest) (<[a := ch']> h)) ∧
  (∀ alts h, avoids_closed h alts (alt alts h)) ∧
  (∀ l1 e l2 h,
     on_closed h e →
     match alt (l1 ++ l2) h with
     | AltRet i alts' h' =>
         alt (l1 ++ e :: l2) h
           = AltRet (if Z.of_nat (length l1) <=? i then i + 1 else i)
               (take (length l1) alts' ++ e :: drop (length l1) alts') h'
     | AltBlock i a w alts' h' =>
         alt (l1 ++ e :: l2) h
           = AltBlock (if (length l1 <=? i)%nat then S i else i) a w
               (take (length l1) alts' ++ e :: drop (length l1) alts') h'
     | AltFault => alt (l1 ++ e :: l2) h = AltFault
     end) ∧
  (∀ es s junk h,
     Forall (on_closed h) es → op s = CHANEND →
     alt (es ++ s :: junk) h = AltRet (-1) (es ++ s :: junk) h).
Proof.
  split_and!.
  - intros pre e rest h a ch Hpre Hop Hc Ha _ Hok Hl Hn.
    destruct (alt_poll_recv_ready pre e rest h a ch)
      as (y & ch' & Hq & Hcl & Halt); try done.
    exists y, ch'. split_and!; try done.
    rewrite Halt. unfold set_v. by rewrite Hc, Hop.
  - intros alts h. by apply alt_poll_avoids.
  - intros l1 e l2 h Hcl. rewrite (alt_skips_closed l1 e l2 h Hcl).
    by destruct (alt (l1 ++ l2) h).
  - intros es s junk h Hd Hs. apply alt_all_fail; [| |done].
    + eapply Forall_impl; [exact Hd|]. apply on_closed_not_ready.
    + eapply Forall_impl; [exact Hd|]. apply on_closed_fails_at_once.
Qed.




End AltClosed.



(** C7 as stated fails: with a receive on a closed, empty channel first,
    or a send on a closed channel first, and a receive on an open, empty
    channel second, [alt] does not return: it is suspended in the second
    entry. *)
Lemma alt_closed_first_entry_suspends :
  alt recv_recv (two_chans [] 1 [])
    = AltBlock 1 1 notempty recv_recv (two_chans [] 1 []) ∧
  alt send_recv (two_chans [] 1 [])
    = AltBlock 1 1 notempty send_recv (two_chans [] 1 []).
Proof. by split_and!. Qed.

Lemma alt_on_closed_channels_witness :
  (∃ y ch', contents (chan_of [10; 20] 1) = y :: contents ch' ∧
     closed ch' = closed (chan_of [10; 20] 1) ∧
     alt ([] ++ mkAlt (Some 0%nat) 0 CHANRCV :: [mkAlt None 0 CHANEND])
         (heap_of [10; 20] 1)
       = AltRet (Z.of_nat (length (@nil (Alt Z))))
           ([] ++ mkAlt (Some 0%nat) y CHANRCV :: [mkAlt None 0 CHANEND])
           (<[0%nat := ch']> (heap_of [10; 20] 1))) ∧
  match alt ([] ++ [mkAlt (Some 1%nat) 0 CHANRCV; mkAlt None 0 CHANEND])
          (two_chans [] 1 []) with
  | AltRet i alts' h' =>
      alt ([] ++ mkAlt (Some 0%nat) 0 CHANRCV
              :: [mkAlt (Some 1%nat) 0 CHANRCV; mkAlt None 0 CHANEND])
          (two_chans [] 1 [])
        = AltRet (if Z.of_nat (length (@nil (Alt Z))) <=? i then i + 1 else i)
            (take (length (@nil (Alt Z))) alts'
               ++ mkAlt (Some 0%nat) 0 CHANRCV
               :: drop (length (@nil (Alt Z))) alts') h'
  | AltBlock i a w alts' h' =>
      alt ([] ++ mkAlt (Some 0%nat) 0 CHANRCV
              :: [mkAlt (Some 1%nat) 0 CHANRCV; mkAlt None 0 CHANEND])
          (two_chans [] 1 [])
        = AltBlock (if (length (@nil (Alt Z)) <=? i)%nat then S i else i) a w
            (take (length (@nil (Alt Z))) alts'
               ++ mkAlt (Some 0%nat) 0 CHANRCV
               :: drop (length (@nil (Alt Z))) alts') h'
  | AltFault =>
      alt ([] ++ mkAlt (Some 0%nat) 0 CHANRCV
              :: [mkAlt (Some 1%nat) 0 CHANRCV; mkAlt None 0 CHANEND])
          (two_chans [] 1 [])
        = AltFault
  end.
Proof.
  split.
  - apply (proj1 (alt_on_closed_channels (V := Z))
             [] (mkAlt (Some 0%nat) 0 CHANRCV) [mkAlt None 0 CHANEND]
             (heap_of [10; 20] 1) 0%nat (chan_of [10; 20] 1)); try reflexivity.
    + constructor.
    + simpl. lia.
    + unfold chan_ok, chan_inv, buf_ok, INT_MAX. simpl. lia.
  - apply (proj1 (proj2 (proj2 (alt_on_closed_channels (V := Z))))
             [] (mkAlt (Some 0%nat) 0 CHANRCV)
             [mkAlt (Some 1%nat) 0 CHANRCV; mkAlt None 0 CHANEND]
             (two_chans [] 1 [])).
    exists 0%nat, (chan_of [] 1). split_and!; try reflexivity; try done.
    left. split; [reflexivity|]. simpl. lia.
Defined.

(** C6 as stated fails: [chancreate] accepts a negative capacity, and the
    channel it returns has [nbuf = 0 > bufsize]. *)
Lemma chancreate_negative_capacity :
  chancreate 4 (-1) always_ok ∅
    = (Some 0%nat, {[ 0%nat := mkChannel None 4 (-1) 0 0 false 0 ]}) ∧
  ¬ chan_inv (mkChannel (V := Z) None 4 (-1) 0 0 false 0).
Proof.
  split; [reflexivity|]. unfold chan_inv. simpl. lia.
Qed.

Lemma chan_inv_established_and_preserved_witness :
  (∃ ch, (chancreate 4 3 always_ok ∅).2 !! 0%nat = Some ch ∧
         chan_inv ch ∧ closed ch = 0) ∧
  (∃ ch', heap_of [10; 7] 0 !! 0%nat = Some ch' ∧ chan_inv ch' ∧
          bufsize ch' = bufsize (chan_of [10] 0) ∧
          (closed (chan_of [10] 0) ≠ 0 → closed ch' ≠ 0)).
Proof.
  split.
  - apply (proj1 (chan_inv_established_and_preserved (V := Z))
             4 3 always_ok ∅ 0%nat); [lia|reflexivity].
  - apply (proj2 (chan_inv_established_and_preserved (V := Z))
             (Send 7) (Some 0%nat) (heap_of [10] 0) (heap_of [10; 7] 0) 0%nat
             (chan_of [10] 0)).
    + reflexivity.
    + unfold chan_inv. simpl. lia.
    + unfold INT_MAX. simpl. lia.
    + reflexivity.
Defined.

Lemma zero_capacity_stays_empty_witness :
  ∃ ch, zero_cap 1 !! 0%nat = Some ch ∧
    nbuf ch = 0 ∧ bufsize ch = 0 ∧
    (∀ x, dequeue ch x = None) ∧
    (∀ x, chansend (Some 0%nat) x (zero_cap 1) =
            if closed ch =? 0 then Block 0%nat notfull (zero_cap 1)
            else Ret (-1) (zero_cap 1)) ∧
    (∀ w x, chansend_wake 0%nat w x (zero_cap 1)
            = chansend (Some 0%nat) x (zero_cap 1)) ∧
    (∀ x, channbsend (Some 0%nat) x (zero_cap 1) = Ret 0 (zero_cap 1)) ∧
    (∀ x, chanrecv (Some 0%nat) x (zero_cap 1) =
            if closed ch =? 0 then Block 0%nat notempty (zero_cap 1)
            else Ret (-1, x) (zero_cap 1)) ∧
    (∀ w x, chanrecv_wake 0%nat w x (zero_cap 1)
            = chanrecv (Some 0%nat) x (zero_cap 1)) ∧
    (∀ x, channbrecv (Some 0%nat) x (zero_cap 1) = Ret (0, x) (zero_cap 1)).
Proof.
  apply (zero_capacity_stays_empty 4 always_ok ∅ 0%nat (zero_cap 0)).
  - reflexivity.
  - apply rtc_once. exists Close, (Some 0%nat). reflexivity.
Defined.

(** * Further properties of the channel operations *)

Section Outcomes.
Context {V : Type}.
Implicit Types (h : gmap nat (Channel V)) (ch : Channel V) (x y : V).

Lemma chansend_wait_result a ch x h :
  h !! a = Some ch → lock ch = false →
  send_result a x h (chansend_wait a ch x h).
Proof.
  intros Ha Hl. unfold chansend_wait, send_result.
  destruct (bufsize ch <=? nbuf ch) eqn:Hfull; simpl.
  - destruct (closed ch =? 0); simpl; [eauto|].
    right. right. left. exists (-1). by split.
  - destruct (closed ch =? 0) eqn:Hc; simpl.
    + destruct (enqueue ch x) as [ch'|] eqn:He; [|by left].
      repeat right. exists ch, ch'. split_and!; try done; lia.
    + right. right. left. exists (-1). by split.
Qed.

Lemma chanrecv_wait_result a ch x h :
  h !! a = Some ch → lock ch = false →
  recv_result a x h (chanrecv_wait a ch x h).
Proof.
  intros Ha Hl. unfold chanrecv_wait, recv_result.
  destruct (nbuf ch <=? 0) eqn:Hemp; simpl.
  - destruct (closed ch =? 0); simpl; [eauto|].
    right. right. left. exists (-1). by split.
  - destruct (dequeue ch x) as [[y ch']|] eqn:Hd; [|by left].
    repeat right. exists ch, y, ch'. split_and!; try done; lia.
Qed.

Lemma chansend_result a x h : send_result a x h (chansend (Some a) x h).
Proof.
  simpl. destruct (h !! a) as [ch|] eqn:Ha; [|by left].
  destruct (lock ch) eqn:Hl; [right; left; eauto|].
  destruct (closed ch =? 0) eqn:Hc; simpl; [by apply chansend_wait_result|].
  right. right. left. exists (-1). by split.
Qed.

Lemma chansend_wake_result a w x h : send_result a x h (chansend_wake a w x h).
Proof.
  destruct w; try apply chansend_result; simpl;
    (destruct (h !! a) as [ch|] eqn:Ha; [|by left]);
    (destruct (lock ch) eqn:Hl; [right; left; eauto|]);
    by apply chansend_wait_result.
Qed.

Lemma channbsend_result a x h : send_result a x h (channbsend (Some a) x h).
Proof.
  simpl. destruct (h !! a) as [ch|] eqn:Ha; [|by left].
  destruct (lock ch) eqn:Hl; [right; right; left; by exists 0|].
  destruct (closed ch =? 0) eqn:Hc; simpl;
    [|right; right; left; by exists 0].
  destruct (bufsize ch <=? nbuf ch) eqn:Hfull;
    [right; right; left; by exists 0|].
  destruct (enqueue ch x) as [ch'|] eqn:He; [|by left].
  repeat right. exists ch, ch'. split_and!; try done; lia.
Qed.

Lemma chanrecv_result a x h : recv_result a x h (chanrecv (Some a) x h).
Proof.
  simpl. destruct (h !! a) as [ch|] eqn:Ha; [|by left].
  destruct (lock ch) eqn:Hl; [right; left; eauto|].
  by apply chanrecv_wait_result.
Qed.

Lemma chanrecv_wake_result a w x h : recv_result a x h (chanrecv_wake a w x h).
Proof.
  destruct w; try apply chanrecv_result; simpl;
    (destruct (h !! a) as [ch|] eqn:Ha; [|by left]);
    (destruct (lock ch) eqn:Hl; [right; left; eauto|]);
    by apply chanrecv_wait_result.
Qed.

Lemma channbrecv_result a x h : recv_result a x h (channbrecv (Some a) x h).
Proof.
  simpl. destruct (h !! a) as [ch|] eqn:Ha; [|by left].
  destruct (lock ch) eqn:Hl; [right; right; left; by exists 0|].
  destruct (nbuf ch <=? 0) eqn:Hemp; [right; right; left; by exists 0|].
  destruct (dequeue ch x) as [[y ch']|] eqn:Hd; [|by left].
  repeat right. exists ch, y, ch'. split_and!; try done; lia.
Qed.

(** X1: a send or receive, blocking or not, new or woken, is all or
    nothing.  It returns 1 after exactly one [enqueue] (on an open,
    unlocked channel with room) or one [dequeue] (on an unlocked channel
    that holds a value) on the channel it was called on; in every other
    case in which it returns or suspends, the heap and the receiver's
    variable are as they were.  The non-blocking variants never suspend. *)
Theorem calls_all_or_nothing a x h :
  send_result a x h (chansend (Some a) x h) ∧
  send_result a x h (channbsend (Some a) x h) ∧
  recv_result a x h (chanrecv (Some a) x h) ∧
  recv_result a x h (channbrecv (Some a) x h) ∧
  (∀ w, send_result a x h (chansend_wake a w x h) ∧
        recv_result a x h (chanrecv_wake a w x h)) ∧
  (∀ p b w h', channbsend p x h ≠ Block b w h' ∧
               channbrecv p x h ≠ Block b w h').
Proof.
  split_and!; [apply chansend_result|apply channbsend_result|
               apply chanrecv_result|apply channbrecv_result| |].
  - intros w. split; [apply chansend_wake_result|apply chanrecv_wake_result].
  - intros p b w h'. split; (destruct p as [c0|]; simpl; [|done]);
      (destruct (h !! c0) as [ch|]; [|done]); (destruct (lock ch); [done|]).
    + destruct (_ || _); [done|]. by destruct (enqueue ch x).
    + destruct (_ <=? _); [done|]. by destruct (dequeue ch x) as [[??]|].
Qed.

End Outcomes.

Section Conservation.
Context {V : Type}.
Implicit Types (h : gmap nat (Channel V)) (ch : Channel V) (x y : V)
  (t : list (event (V := V))).

Lemma chan_small_enqueue ch x ch' :
  chan_small ch → nbuf ch < bufsize ch → enqueue ch x = Some ch' →
  chan_small ch' ∧ contents ch' = contents ch ++ [x].
Proof.
  intros (Hok & Hl & Hb) Hroom He.
  pose proof Hok as (((Hn0 & _) & Ho) & _).
  assert (Hsum : off ch + nbuf ch ≤ INT_MAX).
  { unfold INT_MAX. destruct (decide (0 < bufsize ch)); [|lia].
    specialize (Ho ltac:(done)). lia. }
  destruct (enqueue_contents ch x Hok Hroom Hsum) as (ch2 & He2 & Hok2 & Hq & _).
  rewrite He in He2. injection He2 as <-.
  pose proof (enqueue_fields _ _ _ He) as (Hb' & _ & _ & Hl' & _).
  split; [|done]. unfold chan_small. by rewrite Hb', Hl'.
Qed.

Lemma chan_small_dequeue ch x y ch' :
  chan_small ch → 0 < nbuf ch → dequeue ch x = Some (y, ch') →
  chan_small ch' ∧ contents ch = y :: contents ch'.
Proof.
  intros (Hok & Hl & Hb) Hsome Hd.
  destruct (dequeue_contents ch x Hok Hsome) as (y2 & ch2 & Hd2 & Hok2 & Hq & _).
  rewrite Hd in Hd2. injection Hd2 as <- <-.
  pose proof (dequeue_fields _ _ _ _ Hd) as (Hb' & _ & _ & Hl' & _).
  split; [|done]. unfold chan_small. by rewrite Hb', Hl'.
Qed.

Lemma sent_on_app a t1 t2 : sent_on a (t1 ++ t2) = sent_on a t1 ++ sent_on a t2.
Proof. apply omap_app. Qed.

Lemma rcvd_on_app a t1 t2 : rcvd_on a (t1 ++ t2) = rcvd_on a t1 ++ rcvd_on a t2.
Proof. apply omap_app. Qed.

(** One send, however it ends, keeps the balance of the channel at [a]. *)
Lemma send_conserves a b x h o h1 ch :
  send_result b x h o → heap_after o = Some h1 →
  h !! a = Some ch → chan_small ch →
  ∃ ch1, h1 !! a = Some ch1 ∧ chan_small ch1 ∧
         contents ch ++ sent_on a (sent_event b x o)
           = rcvd_on a (sent_event b x o) ++ contents ch1.
Proof.
  intros Hres Hafter Ha Hsm.
  destruct Hres as [->|[[w ->]|[(r & -> & Hr)|
    (cb & cb' & Hb & _ & _ & Hroom & He & ->)]]]; simpl in *; simplify_eq.
  - exists ch. by rewrite app_nil_r.
  - exists ch. destruct (0 <? r) eqn:E; [lia|]. by rewrite app_nil_r.
  - destruct (decide (b = a)) as [->|Hne].
    + rewrite Ha in Hb. injection Hb as <-.
      destruct (chan_small_enqueue ch x cb' Hsm Hroom He) as [Hsm' Hq].
      exists cb'. rewrite lookup_insert_eq. by split_and!.
    + exists ch. rewrite lookup_insert_ne by done. split_and!; try done.
      by rewrite app_nil_r.
Qed.

Lemma recv_conserves a b x h o h1 ch :
  recv_result b x h o → heap_after o = Some h1 →
  h !! a = Some ch → chan_small ch →
  ∃ ch1, h1 !! a = Some ch1 ∧ chan_small ch1 ∧
         contents ch ++ sent_on a (rcvd_event b o)
           = rcvd_on a (rcvd_event b o) ++ contents ch1.
Proof.
  intros Hres Hafter Ha Hsm.
  destruct Hres as [->|[[w ->]|[(r & -> & Hr)|
    (cb & y & cb' & Hb & _ & Hsome & Hd & ->)]]]; simpl in *; simplify_eq.
  - exists ch. by rewrite app_nil_r.
  - exists ch. destruct (0 <? r) eqn:E; [lia|]. by rewrite app_nil_r.
  - destruct (decide (b = a)) as [->|Hne].
    + rewrite Ha in Hb. injection Hb as <-.
      destruct (chan_small_dequeue ch x y cb' Hsm Hsome Hd) as [Hsm' Hq].
      exists cb'. rewrite lookup_insert_eq. split_and!; try done.
      by rewrite app_nil_r.
    + exists ch. rewrite lookup_insert_ne by done. split_and!; try done.
      by rewrite app_nil_r.
Qed.

Lemma call_conserves a k p h h1 ch :
  perform k p h = Some h1 → h !! a = Some ch → chan_small ch →
  ∃ ch1, h1 !! a = Some ch1 ∧ chan_small ch1 ∧
         contents ch ++ sent_on a (events k p h)
           = rcvd_on a (events k p h) ++ contents ch1.
Proof.
  intros Hk Ha Hsm.
  destruct p as [b|].
  - destruct k as [x|x|x|x| | |w x|w x]; simpl in Hk |- *.
    + by apply (send_conserves a b x h _ h1 ch (chansend_result b x h)).
    + by apply (recv_conserves a b x h _ h1 ch (chanrecv_result b x h)).
    + by apply (send_conserves a b x h _ h1 ch (channbsend_result b x h)).
    + by apply (recv_conserves a b x h _ h1 ch (channbrecv_result b x h)).
    + destruct (h !! b) as [cb|]; [|done].
      destruct (lock cb); simpl in Hk; simplify_eq;
        exists ch; by rewrite app_nil_r.
    + destruct (h !! b) as [cb|] eqn:Hb; [|done].
      destruct (lock cb) eqn:Hl; simpl in Hk; simplify_eq;
        [exists ch; by rewrite app_nil_r|].
      destruct (decide (b = a)) as [->|Hne].
      * rewrite Ha in Hb. injection Hb as <-.
        exists (set_closed ch 1). rewrite lookup_insert_eq.
        split_and!; try done. by rewrite app_nil_r.
      * exists ch. rewrite lookup_insert_ne by done. by rewrite app_nil_r.
    + by apply (send_conserves a b x h _ h1 ch (chansend_wake_result b w x h)).
    + by apply (recv_conserves a b x h _ h1 ch (chanrecv_wake_result b w x h)).
  - exists ch. simpl. rewrite app_nil_r.
    destruct k; simpl in Hk; by simplify_eq.
Qed.

Lemma run_conserves a h t h2 :
  run h t h2 → ∀ ch, h !! a = Some ch → chan_small ch →
  ∃ ch2, h2 !! a = Some ch2 ∧ chan_small ch2 ∧
         contents ch ++ sent_on a t = rcvd_on a t ++ contents ch2.
Proof.
  induction 1 as [h|k p h h1 t h2 Hk _ IH]; intros ch Ha Hsm.
  - exists ch. by rewrite app_nil_r.
  - destruct (call_conserves a k p h h1 ch Hk Ha Hsm) as (ch1 & Ha1 & Hsm1 & Hq1).
    destruct (IH ch1 Ha1 Hsm1) as (ch2 & Ha2 & Hsm2 & Hq2).
    exists ch2. split_and!; try done.
    rewrite sent_on_app, rcvd_on_app, app_assoc, Hq1, <- !app_assoc. by rewrite Hq2.
Qed.

Lemma run_reach h t h2 : run h t h2 → rtc step h h2.
Proof.
  induction 1 as [|k p h h1 t h2 Hk _ IH]; [apply rtc_refl|].
  eapply rtc_l; [by exists k, p|done].
Qed.

Lemma run_keeps_capacity a h t h2 ch :
  run h t h2 → h !! a = Some ch →
  ∃ ch2, h2 !! a = Some ch2 ∧ bufsize ch2 = bufsize ch.
Proof.
  intros Hrun Ha.
  apply (reach_invariant (λ c, bufsize c = bufsize ch) a) with (h := h) (ch := ch);
    [|by apply (run_reach h t)|done|done].
  intros c1 c2 Hb Hs. pose proof (chan_step_fields _ _ Hs) as (-> & _). done.
Qed.

(** X2: take a well-formed, unlocked channel of capacity at most [2^30]
    and of elements of a positive size.  Whatever calls any number of
    threads make, in whatever order, on this channel and on others, the
    values the channel held at the start followed by the values put into
    it since are exactly the values taken out of it followed by the values
    it holds at the end, in that order.  Nothing is lost, duplicated,
    altered or reordered. *)
Theorem sent_is_received_then_buffered a ch0 h1 t h2 :
  h1 !! a = Some ch0 → chan_small ch0 → 0 < elemsize ch0 → run h1 t h2 →
  ∃ ch, h2 !! a = Some ch ∧
        contents ch0 ++ sent_on a t = rcvd_on a t ++ contents ch.
Proof.
  intros Ha Hsm _ Hrun.
  destruct (run_conserves a h1 t h2 Hrun ch0 Ha Hsm) as (ch2 & Ha2 & _ & Hbal).
  by exists ch2.
Qed.

(** X3: after every such history [chanlen] returns the number of values
    the channel held at the start, plus the number put into it, minus the
    number taken out; this lies between 0 and the capacity, and the call
    leaves the heap as it was. *)
Theorem chanlen_counts_pending a ch0 h1 t h2 :
  h1 !! a = Some ch0 → chan_small ch0 → 0 < elemsize ch0 → run h1 t h2 →
  chanlen (Some a) h2
    = Ret (nbuf ch0 + Z.of_nat (length (sent_on a t))
           - Z.of_nat (length (rcvd_on a t))) h2 ∧
  0 ≤ nbuf ch0 + Z.of_nat (length (sent_on a t))
      - Z.of_nat (length (rcvd_on a t)) ≤ bufsize ch0.
Proof.
  intros Ha Hsm _ Hrun.
  destruct (run_conserves a h1 t h2 Hrun ch0 Ha Hsm)
    as (ch2 & Ha2 & (Hok2 & Hl2 & Hb2) & Hbal).
  destruct (run_keeps_capacity a h1 t h2 ch0 Hrun Ha) as (c3 & Ha3 & Hsame).
  rewrite Ha2 in Ha3. injection Ha3 as <-.
  pose proof (length_contents ch2 Hok2) as Hlen2.
  pose proof Hsm as (Hok0 & _).
  pose proof (length_contents ch0 Hok0) as Hlen0.
  pose proof Hok2 as ((Hn0 & Hn) & _).
  pose proof Hok0 as ((Hm0 & Hm) & _).
  apply (f_equal length) in Hbal. rewrite !length_app, Hlen2, Hlen0 in Hbal.
  assert (Hcount : nbuf ch2 = nbuf ch0 + Z.of_nat (length (sent_on a t))
                              - Z.of_nat (length (rcvd_on a t))) by lia.
  split; [|lia]. simpl. rewrite Ha2, Hl2. by rewrite Hcount.
Qed.

End Conservation.

(** A channel that holds 5 is sent 10 and 20, then 5 is received. *)
Lemma sample_run :
  run (heap_of [5] 0) [Sent 0%nat 10; Sent 0%nat 20; Rcvd 0%nat 5]
    (heap_with (mkChannel (Some [5; 10; 20]) 4 3 2 1 false 0)).
Proof.
  change [Sent 0%nat 10; Sent 0%nat 20; Rcvd 0%nat 5]
    with (events (Send 10) (Some 0%nat) (heap_of [5] 0) ++
          events (NbSend 20) (Some 0%nat) (heap_of [5; 10] 0) ++
          events (Recv 0) (Some 0%nat) (heap_of [5; 10; 20] 0) ++ []).
  apply run_call with (h1 := heap_of [5; 10] 0); [reflexivity|].
  apply run_call with (h1 := heap_of [5; 10; 20] 0); [reflexivity|].
  eapply run_call; [reflexivity|]. apply run_done.
Qed.

Lemma chan_of_small : chan_small (chan_of [5] 0).
Proof. unfold chan_small, chan_ok, chan_inv, buf_ok, INT_MAX. simpl. lia. Qed.

Lemma sent_is_received_then_buffered_witness :
  ∃ ch, heap_with (mkChannel (Some [5; 10; 20]) 4 3 2 1 false 0) !! 0%nat = Some ch ∧
        contents (chan_of [5] 0) ++ sent_on 0 [Sent 0%nat 10; Sent 0%nat 20; Rcvd 0%nat 5]
          = rcvd_on 0 [Sent 0%nat 10; Sent 0%nat 20; Rcvd 0%nat 5] ++ contents ch.
Proof.
  apply (sent_is_received_then_buffered 0%nat (chan_of [5] 0) (heap_of [5] 0)).
  - reflexivity.
  - apply chan_of_small.
  - reflexivity.
  - apply sample_run.
Defined.

Lemma chanlen_counts_pending_witness :
  chanlen (Some 0%nat) (heap_with (mkChannel (Some [5; 10; 20]) 4 3 2 1 false 0))
    = Ret (nbuf (chan_of [5] 0)
           + Z.of_nat (length (sent_on 0 [Sent 0%nat 10; Sent 0%nat 20; Rcvd 0%nat 5]))
           - Z.of_nat (length (rcvd_on 0 [Sent 0%nat 10; Sent 0%nat 20; Rcvd 0%nat 5])))
        (heap_with (mkChannel (Some [5; 10; 20]) 4 3 2 1 false 0)) ∧
  0 ≤ nbuf (chan_of [5] 0)
      + Z.of_nat (length (sent_on 0 [Sent 0%nat 10; Sent 0%nat 20; Rcvd 0%nat 5]))
      - Z.of_nat (length (rcvd_on 0 [Sent 0%nat 10; Sent 0%nat 20; Rcvd 0%nat 5]))
    ≤ bufsize (chan_of [5] 0).
Proof.
  apply (chanlen_counts_pending 0%nat (chan_of [5] 0) (heap_of [5] 0)).
  - reflexivity.
  - apply chan_of_small.
  - reflexivity.
  - apply sample_run.
Defined.

Section Boundary.
Context {V : Type}.
Implicit Types (h : gmap nat (Channel V)) (ch : Channel V) (x y : V).

Lemma full_channel_refuses a ch x h :
  h !! a = Some ch → lock ch = false → closed ch = 0 → bufsize ch ≤ nbuf ch →
  channbsend (Some a) x h = Ret 0 h ∧ chansend (Some a) x h = Block a notfull h.
Proof.
  intros Ha Hl Hc Hfull. simpl. rewrite Ha, Hl, Hc. simpl.
  unfold chansend_wait. rewrite Hc.
  destruct (bufsize ch <=? nbuf ch) eqn:E; [done|lia].
Qed.

(** X4: an open, well-formed, unlocked channel of capacity at most [2^30]
    and of elements of a positive size accepts exactly as many values as
    it has free slots.  That many sends in a row all return 1; with no
    receive in between, the next [channbsend] returns 0 without touching
    the channel and the next [chansend] suspends the caller on
    "not full". *)
Theorem capacity_boundary a ch h (xs : list V) x :
  h !! a = Some ch → chan_small ch → 0 < elemsize ch → closed ch = 0 →
  nbuf ch + Z.of_nat (length xs) = bufsize ch →
  ∃ h2, send_all (Some a) xs h = Ret (replicate (length xs) 1) h2 ∧
        channbsend (Some a) x h2 = Ret 0 h2 ∧
        chansend (Some a) x h2 = Block a notfull h2.
Proof.
  intros Ha (Hok & Hl & Hsmall) _ Hcl Hlen.
  pose proof Hok as ((Hn0 & Ho) & _).
  pose proof (length_contents ch Hok) as Hlc0.
  destruct (decide (xs = [])) as [->|Hne].
  { exists h. split; [done|]. apply (full_channel_refuses a ch); try done.
    simpl in Hlen. lia. }
  assert (0 < Z.of_nat (length xs)) by (destruct xs; [done|simpl; lia]).
  destruct (send_all_room a xs ch h) as
    (ch2 & h2 & Hs & Ha2 & Hok2 & Hl2 & Hc2 & Hq2 & Hb2); try done; try lia.
  { unfold INT_MAX. specialize (Ho ltac:(lia)). lia. }
  exists h2. split; [done|].
  apply (full_channel_refuses a ch2); try done.
  pose proof (length_contents ch2 Hok2) as Hlc.
  rewrite Hq2, length_app, Hlc0 in Hlc.
  destruct Hok2 as ((? & _) & _). lia.
Qed.

(** X5: a sender suspended on a full, open channel of capacity at most
    [2^30] completes as soon as it is woken after one receive: the receive
    delivers the front value, the woken send returns 1, and the channel
    then holds the remaining values followed by the sender's. *)
Theorem blocked_send_completes_after_receive a ch h x d :
  h !! a = Some ch → chan_small ch → closed ch = 0 →
  0 < bufsize ch → nbuf ch = bufsize ch →
  chansend (Some a) x h = Block a notfull h ∧
  ∃ y q h3 h4 ch4,
    contents ch = y :: q ∧
    chanrecv (Some a) d h = Ret (1, y) h3 ∧
    chansend_wake a notfull x h3 = Ret 1 h4 ∧
    h4 !! a = Some ch4 ∧ contents ch4 = q ++ [x] ∧ nbuf ch4 = bufsize ch.
Proof.
  intros Ha (Hok & Hl & Hsmall) Hc Hpos Hfull.
  split; [apply (full_channel_refuses a ch); try done; lia|].
  destruct (chanrecv_some a ch d h) as
    (y & ch3 & Hr & _ & Hok3 & Hl3 & Hc3 & Hq3 & Hn3 & Hb3); try done; try lia.
  pose proof Hok3 as ((_ & Ho3) & _).
  destruct (chansend_room a ch3 x (<[a := ch3]> h)) as
    (ch4 & Hs & _ & Hok4 & Hl4 & Hc4 & Hq4 & Hn4 & _ & Hb4); try done;
    try congruence; try lia.
  { apply lookup_insert_eq. }
  { unfold INT_MAX. specialize (Ho3 ltac:(lia)). lia. }
  exists y, (contents ch3), (<[a := ch3]> h), (<[a := ch4]> (<[a := ch3]> h)), ch4.
  split_and!; try done.
  - simpl in Hs |- *. rewrite lookup_insert_eq in Hs |- *. rewrite Hl3 in Hs |- *.
    rewrite Hc3, Hc in Hs. simpl in Hs. done.
  - apply lookup_insert_eq.
  - lia.
Qed.

(** X6: [chanclose] is idempotent and loses nothing: closing a channel
    twice leaves the heap as closing it once, and closing changes no
    channel's count, offset, capacity or buffered values. *)
Theorem chanclose_idempotent p h h1 :
  chanclose p h = Ret tt h1 →
  chanclose p h1 = Ret tt h1 ∧
  ∀ a ch, h !! a = Some ch →
    ∃ ch1, h1 !! a = Some ch1 ∧ contents ch1 = contents ch ∧
           nbuf ch1 = nbuf ch ∧ off ch1 = off ch ∧ bufsize ch1 = bufsize ch ∧
           buf ch1 = buf ch.
Proof.
  destruct p as [b|]; simpl; [|intros; simplify_eq; eauto 10].
  destruct (h !! b) as [cb|] eqn:Hb; [|done].
  destruct (lock cb) eqn:Hl; [done|]. intros [= <-]. split.
  - rewrite lookup_insert_eq. simpl. rewrite Hl. f_equal.
    by rewrite insert_insert_eq.
  - intros a ch Ha. destruct (decide (b = a)) as [->|Hne].
    + rewrite Ha in Hb. injection Hb as <-.
      exists (set_closed ch 1). by rewrite lookup_insert_eq.
    + exists ch. by rewrite lookup_insert_ne.
Qed.

End Boundary.

Lemma capacity_boundary_witness :
  ∃ h2, send_all (Some 0%nat) [20; 30] (heap_of [5] 0) = Ret [1; 1] h2 ∧
        channbsend (Some 0%nat) 40 h2 = Ret 0 h2 ∧
        chansend (Some 0%nat) 40 h2 = Block 0%nat notfull h2.
Proof.
  apply (capacity_boundary 0%nat (chan_of [5] 0) (heap_of [5] 0) [20; 30] 40).
  - reflexivity.
  - unfold chan_small, chan_ok, chan_inv, buf_ok, INT_MAX. simpl. lia.
  - reflexivity.
  - reflexivity.
  - reflexivity.
Defined.

Lemma blocked_send_completes_after_receive_witness :
  chansend (Some 0%nat) 40 (heap_of [10; 20; 30] 0)
    = Block 0%nat notfull (heap_of [10; 20; 30] 0) ∧
  ∃ y q h3 h4 ch4,
    contents (chan_of [10; 20; 30] 0) = y :: q ∧
    chanrecv (Some 0%nat) 0 (heap_of [10; 20; 30] 0) = Ret (1, y) h3 ∧
    chansend_wake 0%nat notfull 40 h3 = Ret 1 h4 ∧
    h4 !! 0%nat = Some ch4 ∧ contents ch4 = q ++ [40] ∧
    nbuf ch4 = bufsize (chan_of [10; 20; 30] 0).
Proof.
  apply (blocked_send_completes_after_receive 0%nat (chan_of [10; 20; 30] 0)
           (heap_of [10; 20; 30] 0) 40 0); try reflexivity.
  unfold chan_small, chan_ok, chan_inv, buf_ok, INT_MAX. simpl. lia.
Defined.

Lemma chanclose_idempotent_witness :
  chanclose (Some 0%nat) (heap_of [10] 1) = Ret tt (heap_of [10] 1) ∧
  ∀ a ch, heap_of [10] 0 !! a = Some ch →
    ∃ ch1, heap_of [10] 1 !! a = Some ch1 ∧ contents ch1 = contents ch ∧
           nbuf ch1 = nbuf ch ∧ off ch1 = off ch ∧ bufsize ch1 = bufsize ch ∧
           buf ch1 = buf ch.
Proof.
  apply (chanclose_idempotent (Some 0%nat) (heap_of [10] 0) (heap_of [10] 1)).
  reflexivity.
Defined.

(** * Further properties of alt *)

Section AltSelection.
Context {V : Type}.
Implicit Types (h : gmap nat (Channel V)) (ch : Channel V) (x y : V)
  (e : Alt V) (alts rest : list (Alt V)).

(** What a finished receive of entry [n] means for [selects], and what is
    left to do when it failed. *)
Lemma recv_selects n e alts h (o : outcome V (Z * V)) :
  alts !! n = Some e → op e = CHANRCV →
  (∀ a, c e = Some a → recv_result a (v e) h o) →
  (c e = None → ∃ r, o = Ret (r, v e) h ∧ r ≤ 0) →
  match o with
  | Ret (r, y) h' =>
      (r ≤ 0 ∧ y = v e ∧ h' = h) ∨
      (r = 1 ∧ selects h alts (AltRet (Z.of_nat n) (<[n := set_v e y]> alts) h'))
  | Block a w h' => selects h alts (AltBlock n a w alts h')
  | Fault => True
  end.
Proof.
  intros Hn Hop Hsome Hnone.
  destruct (c e) as [a|] eqn:Hc.
  - destruct (Hsome a eq_refl) as [->|[[w ->]|[(r & -> & Hr)|
      (ch & y & ch' & Ha & _ & Hpos & Hd & ->)]]]; simpl; try done.
    + split_and!; try done. exists e. rewrite Hc. auto.
    + by left.
    + right. split; [done|]. right. exists n, e. split_and!; try done.
      right. left. split; [done|]. exists a, y, ch, ch'. by rewrite Hc.
  - destruct (Hnone eq_refl) as (r & -> & Hr). by left.
Qed.

Lemma send_selects n e alts h (o : outcome V Z) :
  alts !! n = Some e → op e = CHANSND →
  (∀ a, c e = Some a → send_result a (v e) h o) →
  (c e = None → ∃ r, o = Ret r h ∧ r ≤ 0) →
  match o with
  | Ret r h' =>
      (r ≤ 0 ∧ h' = h) ∨
      (r = 1 ∧ selects h alts (AltRet (Z.of_nat n) alts h'))
  | Block a w h' => selects h alts (AltBlock n a w alts h')
  | Fault => True
  end.
Proof.
  intros Hn Hop Hsome Hnone.
  destruct (c e) as [a|] eqn:Hc.
  - destruct (Hsome a eq_refl) as [->|[[w ->]|[(r & -> & Hr)|
      (ch & ch' & Ha & _ & Hcl & Hroom & He & ->)]]]; simpl; try done.
    + split_and!; try done. exists e. rewrite Hc. auto.
    + by left.
    + right. split; [done|]. right. exists n, e. split_and!; try done.
      right. right. split; [done|]. exists a, ch, ch'. by rewrite Hc.
  - destruct (Hnone eq_refl) as (r & -> & Hr). by left.
Qed.

Lemma alt_block_selects rest : ∀ i alts h,
  drop i alts = rest → selects h alts (alt_block rest i alts h).
Proof.
  induction rest as [|e rest IH]; intros i alts h Hdrop; [done|].
  apply drop_cons_inv in Hdrop as [Hi Hdrop]. cbn [alt_block].
  destruct (op e =? CHANEND); [by left|].
  destruct (Z.eqb_spec (op e) CHANRCV) as [Hop|_].
  { pose proof (recv_selects i e alts h (chanrecv (c e) (v e) h) Hi Hop) as Hsel.
    destruct (chanrecv (c e) (v e) h) as [[r y] h'|a w h'|] eqn:Hcall;
      cbn [alt_recv_done]; [| |done].
    - destruct Hsel as [(Hr & -> & ->)|[-> Hsel]].
      + intros a Hc. rewrite <- Hcall, Hc. apply chanrecv_result.
      + intros Hc. rewrite Hc in Hcall. simpl in Hcall. simplify_eq.
        exists (-1). by split.
      + destruct (0 <? r) eqn:E; [lia|]. rewrite store_back_id by done.
        by apply IH.
      + done.
    - apply Hsel.
      + intros a0 Hc. rewrite <- Hcall, Hc. apply chanrecv_result.
      + intros Hc. rewrite Hc in Hcall. done. }
  destruct (Z.eqb_spec (op e) CHANSND) as [Hop|_]; [|by apply IH].
  pose proof (send_selects i e alts h (chansend (c e) (v e) h) Hi Hop) as Hsel.
  destruct (chansend (c e) (v e) h) as [r h'|a w h'|] eqn:Hcall;
    cbn [alt_send_done]; [| |done].
  - destruct Hsel as [(Hr & ->)|[-> Hsel]].
    + intros a Hc. rewrite <- Hcall, Hc. apply chansend_result.
    + intros Hc. rewrite Hc in Hcall. simpl in Hcall. simplify_eq.
      exists (-1). by split.
    + destruct (0 <? r) eqn:E; [lia|]. by apply IH.
    + done.
  - apply Hsel.
    + intros a0 Hc. rewrite <- Hcall, Hc. apply chansend_result.
    + intros Hc. rewrite Hc in Hcall. done.
Qed.

Lemma alt_poll_selects rest : ∀ i alts h,
  drop i alts = rest → selects h alts (alt_poll rest i alts h).
Proof.
  induction rest as [|e rest IH]; intros i alts h Hdrop; [done|].
  apply drop_cons_inv in Hdrop as [Hi Hdrop]. cbn [alt_poll].
  destruct (op e =? CHANEND); [by apply alt_block_selects|].
  destruct (Z.eqb_spec (op e) CHANNOBLK) as [Hop|_].
  { right. exists i, e. split_and!; try done. by left. }
  destruct (Z.eqb_spec (op e) CHANRCV) as [Hop|_].
  { pose proof (recv_selects i e alts h (channbrecv (c e) (v e) h) Hi Hop) as Hsel.
    destruct (channbrecv (c e) (v e) h) as [[r y] h'|a w h'|] eqn:Hcall; [| |done].
    - destruct Hsel as [(Hr & -> & ->)|[-> Hsel]].
      + intros a Hc. rewrite <- Hcall, Hc. apply channbrecv_result.
      + intros Hc. rewrite Hc in Hcall. simpl in Hcall. simplify_eq.
        exists 0. by split.
      + destruct (channbrecv_ret _ _ _ _ _ _ Hcall) as [(-> & _)| ->]; [|lia].
        simpl. rewrite store_back_id by done. by apply IH.
      + done.
    - apply Hsel.
      + intros a0 Hc. rewrite <- Hcall, Hc. apply channbrecv_result.
      + intros Hc. rewrite Hc in Hcall. done. }
  destruct (Z.eqb_spec (op e) CHANSND) as [Hop|_]; [|by apply IH].
  pose proof (send_selects i e alts h (channbsend (c e) (v e) h) Hi Hop) as Hsel.
  destruct (channbsend (c e) (v e) h) as [r h'|a w h'|] eqn:Hcall; [| |done].
  - destruct Hsel as [(Hr & ->)|[-> Hsel]].
    + intros a Hc. rewrite <- Hcall, Hc. apply channbsend_result.
    + intros Hc. rewrite Hc in Hcall. simpl in Hcall. simplify_eq.
      exists 0. by split.
    + destruct (channbsend_ret _ _ _ _ _ Hcall) as [(-> & _)| ->]; [|lia].
      simpl. by apply IH.
    + done.
  - apply Hsel.
    + intros a0 Hc. rewrite <- Hcall, Hc. apply channbsend_result.
    + intros Hc. rewrite Hc in Hcall. done.
Qed.

(** X7: one call of [alt] completes at most one channel operation.  When
    it returns an index, exactly one value has been taken from (receive)
    or put into (send) the channel of that entry and nothing else has
    changed: no other channel, and no other entry's slot.  When it returns
    -1, returns the index of a [CHANNOBLK] entry or suspends, the heap and
    the array are as they were. *)
Theorem alt_selects_one alts h : selects h alts (alt alts h).
Proof. by apply alt_poll_selects. Qed.

End AltSelection.

Section AltPriority.
Context {V : Type}.
Implicit Types (h : gmap nat (Channel V)) (ch : Channel V) (x y : V)
  (e : Alt V) (alts rest : list (Alt V)).

Lemma channbrecv_never_blocks p x h b w h' : channbrecv p x h ≠ Block b w h'.
Proof.
  destruct p as [a|]; simpl; [|done].
  destruct (h !! a) as [ch|]; [|done]. destruct (lock ch); [done|].
  destruct (_ <=? _); [done|]. by destruct (dequeue ch x) as [[??]|].
Qed.

Lemma channbsend_never_blocks p x h b w h' : channbsend p x h ≠ Block b w h'.
Proof.
  destruct p as [a|]; simpl; [|done].
  destruct (h !! a) as [ch|]; [|done]. destruct (lock ch); [done|].
  destruct (_ || _); [done|]. by destruct (enqueue ch x).
Qed.

(** X8: [alt] returns the first ready entry in list order.  When the
    entries before [e] are not ready, a [CHANNOBLK] entry [e] is returned
    at once, and a send or receive entry [e] whose non-blocking variant
    succeeds is returned with the effect of that one call, whatever
    entries follow [e], ready or not. *)
Theorem alt_first_ready pre e rest h :
  Forall (not_ready h) pre →
  (op e = CHANNOBLK →
     alt (pre ++ e :: rest) h
       = AltRet (Z.of_nat (length pre)) (pre ++ e :: rest) h) ∧
  (op e = CHANSND → ∀ h',
     channbsend (c e) (v e) h = Ret 1 h' →
     alt (pre ++ e :: rest) h
       = AltRet (Z.of_nat (length pre)) (pre ++ e :: rest) h') ∧
  (op e = CHANRCV → ∀ y h',
     channbrecv (c e) (v e) h = Ret (1, y) h' →
     alt (pre ++ e :: rest) h
       = AltRet (Z.of_nat (length pre)) (pre ++ set_v e y :: rest) h').
Proof.
  intros Hpre. unfold alt.
  rewrite (alt_poll_skip pre (e :: rest) 0) by done. simpl.
  split_and!.
  - intros ->. done.
  - intros -> h' ->. done.
  - intros -> y h' ->. simpl. f_equal.
    replace (length pre) with (length pre + 0)%nat at 1 by lia.
    by rewrite insert_app_r.
Qed.

Lemma alt_poll_noblk pre : ∀ e rest i alts h,
  Forall (λ e', op e' ≠ CHANEND) pre → op e = CHANNOBLK →
  match alt_poll (pre ++ e :: rest) i alts h with
  | AltRet j _ _ => Z.of_nat i ≤ j ≤ Z.of_nat (i + length pre)
  | AltBlock _ _ _ _ _ => False
  | AltFault => True
  end.
Proof.
  induction pre as [|e' pre IH]; intros e rest i alts h Hpre Hop.
  - simpl. rewrite Hop. simpl. lia.
  - apply Forall_cons in Hpre as [He' Hpre]. cbn [app alt_poll].
    destruct (Z.eqb_spec (op e') CHANEND) as [|_]; [done|].
    destruct (op e' =? CHANNOBLK); [simpl; lia|].
    assert (Hrec : ∀ alts' h',
      match alt_poll (pre ++ e :: rest) (S i) alts' h' with
      | AltRet j _ _ => Z.of_nat i ≤ j ≤ Z.of_nat (i + length (e' :: pre))
      | AltBlock _ _ _ _ _ => False
      | AltFault => True
      end).
    { intros alts' h'. specialize (IH e rest (S i) alts' h' Hpre Hop).
      destruct (alt_poll _ _ _ _); simpl in *; [lia|done|done]. }
    destruct (op e' =? CHANRCV).
    { destruct (channbrecv (c e') (v e') h) as [[r y] h'|a w h'|] eqn:Hcall; [| |done].
      - destruct (negb (r =? 0)); [simpl; lia|apply Hrec].
      - by apply channbrecv_never_blocks in Hcall. }
    destruct (op e' =? CHANSND); [|apply Hrec].
    destruct (channbsend (c e') (v e') h) as [r h'|a w h'|] eqn:Hcall; [| |done].
    + destruct (negb (r =? 0)); [simpl; lia|apply Hrec].
    + by apply channbsend_never_blocks in Hcall.
Qed.

(** X9: a [CHANNOBLK] entry makes [alt] a poll.  With such an entry
    before the sentinel the call never suspends and never returns -1: it
    returns the index of that entry or of an earlier one. *)
Theorem alt_noblk_never_suspends pre e rest h :
  Forall (λ e', op e' ≠ CHANEND) pre → op e = CHANNOBLK →
  match alt (pre ++ e :: rest) h with
  | AltRet j _ _ => 0 ≤ j ≤ Z.of_nat (length pre)
  | AltBlock _ _ _ _ _ => False
  | AltFault => True
  end.
Proof.
  intros Hpre Hop. unfold alt.
  apply (alt_poll_noblk pre e rest 0 (pre ++ e :: rest) h Hpre Hop).
Qed.

End AltPriority.

Lemma alt_first_ready_witness :
  alt ([mkAlt (Some 0%nat) 0 CHANRCV] ++ mkAlt (Some 1%nat) 7 CHANSND
         :: [mkAlt None 0 CHANEND]) (two_chans [] 0 [10])
    = AltRet (Z.of_nat (length [mkAlt (Some 0%nat) 0 CHANRCV]))
        ([mkAlt (Some 0%nat) 0 CHANRCV] ++ mkAlt (Some 1%nat) 7 CHANSND
           :: [mkAlt None 0 CHANEND])
        (<[1%nat := chan_of [10; 7] 0]> (two_chans [] 0 [10])).
Proof.
  assert (Hpre : Forall (not_ready (two_chans [] 0 [10]))
                   [mkAlt (Some 0%nat) 0 CHANRCV]).
  { constructor; [|constructor]. unfold not_ready; simpl. by split_and!. }
  apply (proj1 (proj2 (alt_first_ready [mkAlt (Some 0%nat) 0 CHANRCV]
           (mkAlt (Some 1%nat) 7 CHANSND) [mkAlt None 0 CHANEND]
           (two_chans [] 0 [10]) Hpre))); reflexivity.
Defined.

Lemma alt_noblk_never_suspends_witness :
  match alt ([mkAlt (Some 0%nat) 0 CHANRCV] ++ mkAlt None 0 CHANNOBLK
               :: [mkAlt None 0 CHANEND]) (two_chans [] 0 []) with
  | AltRet j _ _ => 0 ≤ j ≤ Z.of_nat (length [mkAlt (Some 0%nat) 0 CHANRCV])
  | AltBlock _ _ _ _ _ => False
  | AltFault => True
  end.
Proof.
  apply (alt_noblk_never_suspends [mkAlt (Some 0%nat) 0 CHANRCV]
           (mkAlt None 0 CHANNOBLK) [mkAlt None 0 CHANEND] (two_chans [] 0 [])).
  - constructor; [|constructor]. simpl. done.
  - reflexivity.
Defined.

(** * The word-sized wrappers and their callers *)

Section Wrappers.
Implicit Types (h : gmap nat (Channel Z)) (ch : Channel Z).

Lemma chan_ok_copies ch : chan_ok ch → 0 < bufsize ch → copies ch = true.
Proof.
  intros Hok Hpos. destruct (chan_ok_buf ch Hok Hpos) as (b & Hb & _).
  unfold copies. by rewrite Hb.
Qed.

Lemma word_fits_range es : 0 ≤ es ≤ 8 → word_fits es = true.
Proof. intros Hes. unfold word_fits. apply andb_true_iff. split; lia. Qed.

(** On a channel whose elements are no wider than a word the wrappers are
    the calls themselves, on the low bytes of the word. *)
Lemma send_word_fits send a ch v h :
  h !! a = Some ch → word_fits (elemsize ch) = true →
  send_word send (Some a) v h = send (Some a) (low_bytes (elemsize ch) v) h.
Proof.
  intros Ha Hf. unfold send_word, chan_at. simpl. rewrite Ha, Hf.
  destruct (send _ _ _) as [r h'| |]; try done. simpl.
  by rewrite andb_false_r.
Qed.

(** A send wrapper is undefined or is the call for some element. *)
Lemma send_word_cases send p v h :
  send_word send p v h = Fault ∨ ∃ x, send_word send p v h = send p x h.
Proof.
  unfold send_word. destruct (chan_at p h) as [ch|]; [|eauto].
  destruct (send p (low_bytes (elemsize ch) v) h) as [r h'|a w h'|] eqn:E; eauto.
  destruct (_ && _); eauto.
Qed.

Lemma recv_word_fits recv a ch w h :
  h !! a = Some ch → word_fits (elemsize ch) = true → copies ch = true →
  recv_word recv (Some a) w h
    = match recv (Some a) w h with
      | Ret (r, y) h' =>
          Ret (r, if 0 <? r then splice (elemsize ch) w y else w) h'
      | Block a' w' h' => Block a' w' h'
      | Fault => Fault
      end.
Proof.
  intros Ha Hf Hcp. unfold recv_word, chan_at. simpl. rewrite Ha, Hf, Hcp.
  destruct (recv _ _ _) as [[r y] h'| |]; try done.
  rewrite andb_true_r. by destruct (0 <? r).
Qed.

Lemma splice_word w y : splice 8 w y = y mod 2 ^ 64.
Proof.
  unfold splice. change (8 * 8) with 64.
  rewrite Z.div_small by (apply Z.mod_pos_bound; lia). lia.
Qed.

Lemma splice_low es w x :
  0 ≤ es → 0 ≤ w < 2 ^ 64 →
  splice es w (low_bytes es x)
    = w / 2 ^ (8 * es) * 2 ^ (8 * es) + x mod 2 ^ (8 * es).
Proof.
  intros Hes Hw. unfold splice, low_bytes.
  rewrite (Z.mod_small w) by done.
  assert (0 < 2 ^ (8 * es)) by (apply Z.pow_pos_nonneg; lia).
  by rewrite Z.mod_mod by lia.
Qed.

(** [chansend_room], with the element size. *)
Lemma word_send_room a ch x h :
  h !! a = Some ch → chan_ok ch → lock ch = false → closed ch = 0 →
  nbuf ch < bufsize ch → off ch + nbuf ch ≤ INT_MAX →
  ∃ ch', chansend (Some a) x h = Ret 1 (<[a := ch']> h) ∧
         channbsend (Some a) x h = Ret 1 (<[a := ch']> h) ∧
         chan_ok ch' ∧ lock ch' = false ∧ closed ch' = 0 ∧
         contents ch' = contents ch ++ [x] ∧
         nbuf ch' = nbuf ch + 1 ∧ bufsize ch' = bufsize ch ∧
         elemsize ch' = elemsize ch.
Proof.
  intros Ha Hok Hl Hc Hroom Hsum.
  destruct (enqueue_contents ch x Hok Hroom Hsum) as (ch' & He & Hok' & Hq & Hn & Ho).
  pose proof (enqueue_fields _ _ _ He) as (Hb & _ & Hc' & Hl' & Hes & _).
  exists ch'. split_and!; try done; try congruence.
  - simpl. rewrite Ha, Hl. unfold chansend_wait. rewrite Hc, He. simpl.
    destruct (bufsize ch <=? nbuf ch) eqn:E; [lia|done].
  - simpl. rewrite Ha, Hl, Hc, He. simpl.
    destruct (bufsize ch <=? nbuf ch) eqn:E; [lia|done].
Qed.

(** X10: a word [x] sent through [sendp], [sendul], [nbsendp] or
    [nbsendul] on an open, empty, unlocked channel with room, whose
    elements have [elemsize] bytes, [0 ≤ elemsize ≤ 8], comes back from
    [recvp], [recvul], [nbrecvp] and [nbrecvul] as the word whose low
    [elemsize] bytes are those of [x] and whose other bytes are those the
    receiver's variable held before, and the channel is empty again.  The
    word comes back unchanged, whatever the variable held, on a channel of
    8-byte elements. *)
Theorem word_round_trip a ch h (x junk : Z) :
  h !! a = Some ch → chan_ok ch → lock ch = false → closed ch = 0 →
  nbuf ch = 0 → 0 < bufsize ch → 0 ≤ elemsize ch ≤ 8 →
  0 ≤ x < 2 ^ 64 → 0 ≤ junk < 2 ^ 64 →
  ∃ h1 h2 r,
    sendp (Some a) x h = Ret 1 h1 ∧ sendul (Some a) x h = Ret 1 h1 ∧
    nbsendp (Some a) x h = Ret 1 h1 ∧ nbsendul (Some a) x h = Ret 1 h1 ∧
    recvp (Some a) junk h1 = Ret r h2 ∧ recvul (Some a) junk h1 = Ret r h2 ∧
    nbrecvp (Some a) junk h1 = Ret r h2 ∧
    nbrecvul (Some a) junk h1 = Ret (1, r) h2 ∧
    chanlen (Some a) h2 = Ret 0 h2 ∧
    r = junk / 2 ^ (8 * elemsize ch) * 2 ^ (8 * elemsize ch)
        + x mod 2 ^ (8 * elemsize ch) ∧
    (elemsize ch = 8 → r = x).
Proof.
  intros Ha Hok Hl Hc Hn Hpos Hes Hx Hjunk.
  pose proof (word_fits_range _ Hes) as Hfit.
  pose proof Hok as ((_ & Ho) & _ & Hmax). specialize (Ho Hpos).
  destruct (word_send_room a ch (low_bytes (elemsize ch) x) h) as
    (ch1 & Hs & Hnb & Hok1 & Hl1 & Hc1 & Hq1 & Hn1 & Hb1 & Hes1);
    try done; try lia.
  assert (Hq : contents ch = []) by (unfold contents; by rewrite Hn).
  rewrite Hq in Hq1. simpl in Hq1.
  assert (Ha1 : <[a := ch1]> h !! a = Some ch1) by apply lookup_insert_eq.
  destruct (chanrecv_some a ch1 junk (<[a := ch1]> h)) as
    (y & ch2 & Hr & Hnr & Hok2 & Hl2 & Hc2 & Hq2 & Hn2 & Hb2); try done; try lia.
  rewrite Hq1 in Hq2. injection Hq2 as <- Hq2.
  assert (Hfit1 : word_fits (elemsize ch1) = true) by (by rewrite Hes1).
  assert (Hcp1 : copies ch1 = true) by (apply chan_ok_copies; [done|lia]).
  exists (<[a := ch1]> h), (<[a := ch2]> (<[a := ch1]> h)),
    (splice (elemsize ch) junk (low_bytes (elemsize ch) x)).
  unfold sendp, sendul, nbsendp, nbsendul, recvp, recvul, nbrecvp, nbrecvul.
  rewrite !(send_word_fits _ a ch x h Ha Hfit), Hs, Hnb.
  rewrite !(recv_word_fits _ a ch1 junk _ Ha1 Hfit1 Hcp1), Hr, Hnr, Hes1.
  split_and!; try done.
  - simpl. rewrite lookup_insert_eq, Hl2. f_equal. lia.
  - apply splice_low; [lia|done].
  - intros E. rewrite E, splice_word. unfold low_bytes. change (8 * 8) with 64.
    rewrite Z.mod_mod by lia. by apply Z.mod_small.
Qed.

(** X11: the receive wrappers return 0 (nil) when they fail, so a caller
    cannot tell a failure from a queued 0.  On a closed, empty channel
    [recvp] and [recvul] return 0 and [nbrecvp] returns 0 on any empty
    channel, changing nothing; on a channel of 8-byte elements whose front
    value is 0 they return 0 as well, and that value has been taken. *)
Theorem receive_zero_is_ambiguous a ch h (junk : Z) :
  h !! a = Some ch → chan_ok ch → lock ch = false →
  (nbuf ch = 0 →
     nbrecvp (Some a) junk h = Ret 0 h ∧
     (closed ch ≠ 0 →
        recvp (Some a) junk h = Ret 0 h ∧ recvul (Some a) junk h = Ret 0 h)) ∧
  (∀ q, elemsize ch = 8 → contents ch = 0 :: q →
     ∃ ch', contents ch' = q ∧
       recvp (Some a) junk h = Ret 0 (<[a := ch']> h) ∧
       recvul (Some a) junk h = Ret 0 (<[a := ch']> h) ∧
       nbrecvp (Some a) junk h = Ret 0 (<[a := ch']> h)).
Proof.
  intros Ha Hok Hl. split.
  - intros Hn. unfold nbrecvp, recvp, recvul, recv_word, chan_at. simpl.
    rewrite Ha, Hl, Hn. simpl.
    split; [done|]. intros Hc. unfold chanrecv_wait. rewrite Hn. simpl.
    destruct (closed ch =? 0) eqn:E; [lia|done].
  - intros q Hes Hq.
    assert (Hn : 0 < nbuf ch).
    { pose proof (length_contents ch Hok) as Hlen. rewrite Hq in Hlen.
      simpl in Hlen. lia. }
    destruct (chanrecv_some a ch junk h) as
      (y & ch' & Hr & Hnr & _ & _ & _ & Hq' & _); try done.
    rewrite Hq in Hq'. injection Hq' as <- Hq'.
    assert (Hfit : word_fits (elemsize ch) = true) by (by rewrite Hes).
    assert (Hcp : copies ch = true).
    { apply chan_ok_copies; [done|]. destruct Hok as ((? & _) & _). lia. }
    exists ch'. unfold recvp, recvul, nbrecvp.
    rewrite !(recv_word_fits _ a ch junk h Ha Hfit Hcp), Hr, Hnr, Hes.
    simpl. by rewrite splice_word.
Qed.

End Wrappers.

Lemma word_round_trip_witness :
  ∃ h1 h2 r,
    sendp (Some 0%nat) 4294967303 (heap_with (word_chan [] 0)) = Ret 1 h1 ∧
    sendul (Some 0%nat) 4294967303 (heap_with (word_chan [] 0)) = Ret 1 h1 ∧
    nbsendp (Some 0%nat) 4294967303 (heap_with (word_chan [] 0)) = Ret 1 h1 ∧
    nbsendul (Some 0%nat) 4294967303 (heap_with (word_chan [] 0)) = Ret 1 h1 ∧
    recvp (Some 0%nat) 12297829382473034410 h1 = Ret r h2 ∧
    recvul (Some 0%nat) 12297829382473034410 h1 = Ret r h2 ∧
    nbrecvp (Some 0%nat) 12297829382473034410 h1 = Ret r h2 ∧
    nbrecvul (Some 0%nat) 12297829382473034410 h1 = Ret (1, r) h2 ∧
    chanlen (Some 0%nat) h2 = Ret 0 h2 ∧
    r = 12297829382473034410 / 2 ^ (8 * elemsize (word_chan [] 0))
          * 2 ^ (8 * elemsize (word_chan [] 0))
        + 4294967303 mod 2 ^ (8 * elemsize (word_chan [] 0)) ∧
    (elemsize (word_chan [] 0) = 8 → r = 4294967303).
Proof.
  apply (word_round_trip 0%nat (word_chan [] 0) (heap_with (word_chan [] 0))
           4294967303 12297829382473034410);
    try reflexivity;
    unfold chan_ok, chan_inv, buf_ok, INT_MAX; simpl; lia.
Defined.

Lemma receive_zero_is_ambiguous_witness :
  recvul (Some 0%nat) 99 (heap_with (word_chan [] 1))
    = Ret 0 (heap_with (word_chan [] 1)) ∧
  ∃ ch', contents ch' = [5] ∧
    recvul (Some 0%nat) 99 (heap_with (word_chan [0; 5] 1))
      = Ret 0 (<[0%nat := ch']> (heap_with (word_chan [0; 5] 1))).
Proof.
  assert (Hok0 : chan_ok (word_chan [] 1)).
  { unfold chan_ok, chan_inv, buf_ok, INT_MAX. simpl. lia. }
  assert (Hok2 : chan_ok (word_chan [0; 5] 1)).
  { unfold chan_ok, chan_inv, buf_ok, INT_MAX. simpl. lia. }
  split.
  - apply (receive_zero_is_ambiguous 0%nat (word_chan [] 1)
             (heap_with (word_chan [] 1)) 99);
      try reflexivity; done.
  - destruct (proj2 (receive_zero_is_ambiguous 0%nat (word_chan [0; 5] 1)
                       (heap_with (word_chan [0; 5] 1)) 99 eq_refl Hok2 eq_refl)
                [5] eq_refl eq_refl) as (ch' & Hq & _ & Hr & _).
    by exists ch'.
Defined.

(** On a channel of 4-byte elements a word loses its upper half on the
    way in, and on the way out the upper half of the result is what the
    receiver's variable held. *)
Lemma narrow_channel_example :
  sendul (Some 0%nat) 4294967303 (heap_of [] 0) = Ret 1 (heap_of [7] 0) ∧
  ∃ h', recvp (Some 0%nat) 12297829382473034410 (heap_of [7] 0)
          = Ret (2863311530 * 4294967296 + 7) h'.
Proof. split; [reflexivity|]. eexists. reflexivity. Qed.

Section TensorFacts.
Context {D : Type} (dadd : D → D → D) (d_of_ulong : Z → D).
Implicit Types (h : gmap nat (Channel Z)) (ch : Channel Z)
  (b : Tensor.TensorBundle (D := D)).

Lemma mux_loop_quiet n : ∀ i b p log h,
  match Tensor.mux_loop n i b p log h with
  | Ret log' _ => log' = log
  | Block _ _ _ => False
  | Fault => True
  end.
Proof.
  induction n as [|n IH]; intros i b p log h; [done|]. simpl.
  destruct (Tensor.channels b !! Z.to_nat i) as [c0|]; [|done].
  unfold nbsendul.
  destruct (send_word_cases channbsend c0 p h) as [->|[x ->]]; [done|].
  destruct (channbsend c0 x h) as [r h'|a w h'|] eqn:Hcall; [| |done].
  - destruct (channbsend_ret _ _ _ _ _ Hcall) as [(-> & _)| ->]; apply IH.
  - by apply channbsend_never_blocks in Hcall.
Qed.

(** X12: in [TENSOR_MUX] mode [tensor_bundle_multiplex] never prints its
    "Channel %d full" warning and never suspends, whatever the state of
    the channels (full, closed, locked or nil): [nbsendul] returns 0 or 1,
    never the negative code the caller tests for.  When the call returns
    it has printed the one "Multiplexing" line and left the bundle as it
    was. *)
Theorem mux_never_reports_full b (p junk : Z) h :
  Tensor.operation b = Tensor.TENSOR_MUX → p ≠ 0 →
  match Tensor.tensor_bundle_multiplex dadd d_of_ulong (Some b) p junk h with
  | Ret (tb', log) _ => tb' = Some b ∧ log = [Tensor.Multiplexing (Tensor.id b)]
  | Block _ _ _ => False
  | Fault => True
  end.
Proof.
  intros Hop Hp. unfold Tensor.tensor_bundle_multiplex.
  destruct (Z.eqb_spec p 0) as [|_]; [done|]. rewrite Hop. simpl.
  pose proof (mux_loop_quiet (Z.to_nat (Tensor.channel_count b)) 0 b p
                [Tensor.Multiplexing (Tensor.id b)] h) as Hq.
  destruct (Tensor.mux_loop _ _ _ _ _ _) as [log' h'|a w h'|]; [|done|done].
  by subst.
Qed.

(** Whether a non-blocking send on [ch] finds room. *)
Lemma channbsend_small a ch x h :
  h !! a = Some ch → chan_small ch →
  ∃ ch', channbsend (Some a) x h
           = Ret (if (closed ch =? 0) && (nbuf ch <? bufsize ch) then 1 else 0)
               (<[a := ch']> h) ∧
         chan_small ch' ∧
         contents ch' = if (closed ch =? 0) && (nbuf ch <? bufsize ch)
                        then contents ch ++ [x] else contents ch.
Proof.
  intros Ha Hsm. pose proof Hsm as (Hok & Hl & Hb).
  destruct ((closed ch =? 0) && (nbuf ch <? bufsize ch)) eqn:Hroom.
  - apply andb_true_iff in Hroom as [Hc Hn].
    pose proof Hok as (((Hn0 & _) & Ho) & _).
    destruct (chansend_room a ch x h) as
      (ch' & _ & Hnb & Hok' & Hl' & _ & Hq & _ & _ & Hb'); try done; try lia.
    { unfold INT_MAX. specialize (Ho ltac:(lia)). lia. }
    exists ch'. split; [done|]. split; [|done].
    unfold chan_small. by rewrite Hb'.
  - exists ch. rewrite insert_id by done. split; [|done].
    simpl. rewrite Ha, Hl.
    destruct (closed ch =? 0); simpl in *; [|done].
    destruct (bufsize ch <=? nbuf ch) eqn:E; [done|lia].
Qed.

(** What [nbsendul] does on a well-formed channel of elements no wider
    than a word. *)
Lemma nbsendul_small a ch p h :
  h !! a = Some ch → chan_small ch → 0 ≤ elemsize ch ≤ 8 →
  ∃ ch', nbsendul (Some a) p h
           = Ret (if (closed ch =? 0) && (nbuf ch <? bufsize ch) then 1 else 0)
               (<[a := ch']> h) ∧
         contents ch' = if (closed ch =? 0) && (nbuf ch <? bufsize ch)
                        then contents ch ++ [p mod 2 ^ (8 * elemsize ch)]
                        else contents ch.
Proof.
  intros Ha Hsm Hes. unfold nbsendul.
  rewrite (send_word_fits _ a ch p h Ha (word_fits_range _ Hes)).
  destruct (channbsend_small a ch (low_bytes (elemsize ch) p) h Ha Hsm)
    as (ch' & Hcall & _ & Hq).
  by exists ch'.
Qed.

Lemma mux_loop_delivers b p log (l : list nat) : ∀ i h,
  (∀ j a, l !! j = Some a →
          Tensor.channels b !! (Z.to_nat i + j)%nat = Some (Some a)) →
  0 ≤ i → NoDup l →
  (∀ a, a ∈ l → ∃ ch, h !! a = Some ch ∧ chan_small ch ∧ 0 ≤ elemsize ch ≤ 8) →
  ∃ h', Tensor.mux_loop (length l) i b p log h = Ret log h' ∧
    (∀ a, a ∈ l → ∃ ch ch',
       h !! a = Some ch ∧ h' !! a = Some ch' ∧
       contents ch' = if (closed ch =? 0) && (nbuf ch <? bufsize ch)
                      then contents ch ++ [p mod 2 ^ (8 * elemsize ch)]
                      else contents ch) ∧
    (∀ a, a ∉ l → h' !! a = h !! a).
Proof.
  induction l as [|a l IH]; intros i h Hidx Hi Hnd Hall.
  - exists h. split_and!; try done. intros a Ha. by apply elem_of_nil in Ha.
  - apply NoDup_cons in Hnd as [Hnotin Hnd].
    destruct (Hall a) as (ch & Ha & Hsm & Hes); [by left|].
    destruct (nbsendul_small a ch p h Ha Hsm Hes) as (ch' & Hcall & Hq).
    simpl. rewrite <- (Nat.add_0_r (Z.to_nat i)), (Hidx 0%nat a eq_refl).
    rewrite Hcall.
    destruct (IH (i + 1) (<[a := ch']> h)) as (h' & Hloop & Hin & Hout).
    { intros j a' Hj. replace (Z.to_nat (i + 1) + j)%nat
        with (Z.to_nat i + S j)%nat by lia. by apply Hidx. }
    { lia. }
    { done. }
    { intros a' Ha'. destruct (Hall a') as (c' & Hc' & Hs'); [by right|].
      exists c'. split; [|done]. rewrite lookup_insert_ne; [done|].
      intros ->. done. }
    exists h'. split.
    { rewrite <- Hloop. f_equal.
      destruct ((closed ch =? 0) && (nbuf ch <? bufsize ch)); done. }
    split.
    + intros a' Ha'. apply elem_of_cons in Ha' as [->|Ha'].
      * exists ch, ch'. split_and!; try done.
        rewrite (Hout a Hnotin). apply lookup_insert_eq.
      * destruct (Hin a' Ha') as (c1 & c1' & H1 & H1' & Hq').
        exists c1, c1'. split_and!; try done.
        rewrite lookup_insert_ne in H1; [done|]. intros ->. done.
    + intros a' Ha'. apply not_elem_of_cons in Ha' as [Hne Ha'].
      rewrite (Hout a' Ha'). by rewrite lookup_insert_ne.
Qed.

(** X13: in [TENSOR_MUX] mode, on a bundle of distinct, well-formed,
    unlocked channels of capacity at most [2^30] whose elements have at
    most 8 bytes, every channel that is open and has room is appended the
    low [elemsize] bytes of the word (the whole word on a channel of
    8-byte elements), and every channel that is full or closed is left
    with the values it had: for those the word is dropped, and nothing is
    printed about it.  No other channel changes. *)
Theorem mux_delivers_or_drops b (p junk : Z) h (l : list nat) :
  Tensor.operation b = Tensor.TENSOR_MUX → p ≠ 0 →
  Tensor.channels b = Some <$> l →
  Tensor.channel_count b = Z.of_nat (length l) →
  NoDup l →
  (∀ a, a ∈ l → ∃ ch, h !! a = Some ch ∧ chan_small ch ∧ 0 ≤ elemsize ch ≤ 8) →
  ∃ h', Tensor.tensor_bundle_multiplex dadd d_of_ulong (Some b) p junk h
          = Ret (Some b, [Tensor.Multiplexing (Tensor.id b)]) h' ∧
    (∀ a, a ∈ l → ∃ ch ch',
       h !! a = Some ch ∧ h' !! a = Some ch' ∧
       contents ch' = if (closed ch =? 0) && (nbuf ch <? bufsize ch)
                      then contents ch ++ [p mod 2 ^ (8 * elemsize ch)]
                      else contents ch) ∧
    (∀ a, a ∉ l → h' !! a = h !! a).
Proof.
  intros Hop Hp Hch Hcnt Hnd Hall.
  destruct (mux_loop_delivers b p [Tensor.Multiplexing (Tensor.id b)] l 0 h)
    as (h' & Hloop & Hin & Hout); try done.
  { intros j a Hj. rewrite Hch. simpl. by rewrite list_lookup_fmap, Hj. }
  exists h'. split; [|done].
  unfold Tensor.tensor_bundle_multiplex.
  destruct (Z.eqb_spec p 0) as [|_]; [done|]. rewrite Hop. simpl.
  by rewrite Hcnt, Nat2Z.id, Hloop.
Qed.

End TensorFacts.

Lemma mux_never_reports_full_witness :
  match Tensor.tensor_bundle_multiplex Z.add (λ z, z) (Some sample_bundle) 7 0
          (two_chans [1; 2; 3] 0 [10]) with
  | Ret (tb', log) _ =>
      tb' = Some sample_bundle ∧ log = [Tensor.Multiplexing (Tensor.id sample_bundle)]
  | Block _ _ _ => False
  | Fault => True
  end.
Proof.
  apply (mux_never_reports_full Z.add (λ z, z) sample_bundle 7 0
           (two_chans [1; 2; 3] 0 [10])).
  - reflexivity.
  - lia.
Defined.

Lemma mux_delivers_or_drops_witness :
  ∃ h', Tensor.tensor_bundle_multiplex Z.add (λ z, z) (Some sample_bundle)
          4294967303 0 word_chans
          = Ret (Some sample_bundle, [Tensor.Multiplexing (Tensor.id sample_bundle)]) h' ∧
    (∀ a, a ∈ [0%nat; 1%nat] → ∃ ch ch',
       word_chans !! a = Some ch ∧ h' !! a = Some ch' ∧
       contents ch' = if (closed ch =? 0) && (nbuf ch <? bufsize ch)
                      then contents ch ++ [4294967303 mod 2 ^ (8 * elemsize ch)]
                      else contents ch) ∧
    (∀ a, a ∉ [0%nat; 1%nat] → h' !! a = word_chans !! a).
Proof.
  apply (mux_delivers_or_drops Z.add (λ z, z) sample_bundle 4294967303 0
           word_chans [0%nat; 1%nat]).
  - reflexivity.
  - lia.
  - reflexivity.
  - reflexivity.
  - apply NoDup_cons. split; [|apply NoDup_singleton].
    intros H. apply list_elem_of_singleton in H. lia.
  - intros a Ha. apply elem_of_cons in Ha as [->|Ha].
    + exists (word_chan [1; 2; 3] 0). split; [reflexivity|].
      unfold chan_small, chan_ok, chan_inv, buf_ok, INT_MAX. simpl. lia.
    + apply list_elem_of_singleton in Ha as ->.
      exists (chan_of [10] 0). split; [reflexivity|].
      unfold chan_small, chan_ok, chan_inv, buf_ok, INT_MAX. simpl. lia.
Defined.

Section AgentFacts.
Implicit Types (h : gmap nat (Channel Z)) (ch : Channel Z) (strs : gmap Z string).

(** X14: [cognitive_agent_send_message] cannot report a dropped message.
    For a named sender, a named receiver and a message, it never returns
    -1, never prints "inbox full" and never suspends: it returns 0 with
    the formatted string still allocated.  When the receiver's inbox is
    nil, locked, closed or full the channels are exactly as they were, so
    the message is lost although 0 is returned. *)
Theorem send_message_reports_success s r sn rn (m : string) (p : Z) strs h :
  agent_name s = Some sn → agent_name r = Some rn →
  match cognitive_agent_send_message (Some s) (Some r) (Some m) (Some p) strs h with
  | Ret (code, log, strs') h' =>
      code = 0 ∧ log = [Sending sn rn m] ∧
      strs' = <[p := "from:" +:+ sn +:+ " msg:" +:+ m]> strs ∧
      (input_channel r = None → h' = h) ∧
      (∀ a ch, input_channel r = Some a → h !! a = Some ch →
               lock ch = true ∨ closed ch ≠ 0 ∨ bufsize ch ≤ nbuf ch → h' = h)
  | Block _ _ _ => False
  | Fault => True
  end.
Proof.
  intros Hs Hr. unfold cognitive_agent_send_message. rewrite Hs, Hr.
  unfold nbsendp.
  destruct (send_word_cases channbsend (input_channel r) p h) as [->|[x ->]];
    [done|].
  destruct (channbsend (input_channel r) x h) as [code h'|a w h'|] eqn:Hcall;
    [| |done].
  - destruct (channbsend_ret _ _ _ _ _ Hcall) as [(-> & ->)| ->]; simpl.
    + by split_and!.
    + split_and!; try done.
      * intros Hnil. rewrite Hnil in Hcall. simpl in Hcall. by simplify_eq.
      * intros a ch Ha Hch Hno. rewrite Ha in Hcall. simpl in Hcall.
        rewrite Hch in Hcall.
        destruct (lock ch); [by simplify_eq|].
        destruct Hno as [?|[Hc|Hfull]]; [done| |].
        -- destruct (closed ch =? 0) eqn:E; [lia|]. simpl in Hcall. by simplify_eq.
        -- destruct (bufsize ch <=? nbuf ch) eqn:E; [|lia].
           rewrite orb_true_r in Hcall. by simplify_eq.
  - by apply channbsend_never_blocks in Hcall.
Qed.

End AgentFacts.

Lemma send_message_reports_success_witness :
  match cognitive_agent_send_message
          (Some (mkCognitiveAgent (Some "ann") None))
          (Some (mkCognitiveAgent (Some "bob") (Some 0%nat)))
          (Some "hi") (Some 4096) ∅ (heap_of [1; 2; 3] 0) with
  | Ret (code, log, strs') h' =>
      code = 0 ∧ log = [Sending "ann" "bob" "hi"] ∧
      strs' = <[4096 := "from:" +:+ "ann" +:+ " msg:" +:+ "hi"]> ∅ ∧
      (input_channel (mkCognitiveAgent (Some "bob") (Some 0%nat)) = None →
         h' = heap_of [1; 2; 3] 0) ∧
      (∀ a ch, input_channel (mkCognitiveAgent (Some "bob") (Some 0%nat)) = Some a →
               heap_of [1; 2; 3] 0 !! a = Some ch →
               lock ch = true ∨ closed ch ≠ 0 ∨ bufsize ch ≤ nbuf ch →
               h' = heap_of [1; 2; 3] 0)
  | Block _ _ _ => False
  | Fault => True
  end.
Proof.
  apply (send_message_reports_success
           (mkCognitiveAgent (Some "ann") None)
           (mkCognitiveAgent (Some "bob") (Some 0%nat)) "ann" "bob" "hi" 4096 ∅
           (heap_of [1; 2; 3] 0)); reflexivity.
Defined.

(** * Atom type names and sentence validation *)

(** X15: [string_to_atom_type] undoes [atom_type_to_string] exactly on the
    six node types (10 to 15) and the thirteen link types (20 to 32).
    Every other type, the enumerators [ATOM_NODE] and [ATOM_LINK]
    included, comes back as [ATOM_INVALID]: their names "NODE" and "LINK"
    are printed but not parsed. *)
Theorem atom_type_round_trip (t : Z) :
  (CONCEPT_NODE ≤ t ≤ TYPED_VARIABLE_NODE ∨ ORDERED_LINK ≤ t ≤ SUBSET_LINK →
     string_to_atom_type (Some (atom_type_to_string t)) = t) ∧
  (¬ (CONCEPT_NODE ≤ t ≤ TYPED_VARIABLE_NODE ∨ ORDERED_LINK ≤ t ≤ SUBSET_LINK) →
     string_to_atom_type (Some (atom_type_to_string t)) = ATOM_INVALID) ∧
  string_to_atom_type (Some (atom_type_to_string ATOM_NODE)) = ATOM_INVALID ∧
  string_to_atom_type (Some (atom_type_to_string ATOM_LINK)) = ATOM_INVALID.
Proof.
  split_and!; [| |reflexivity|reflexivity].
  - unfold CONCEPT_NODE, TYPED_VARIABLE_NODE, ORDERED_LINK, SUBSET_LINK.
    intros Ht.
    assert (t = 10 ∨ t = 11 ∨ t = 12 ∨ t = 13 ∨ t = 14 ∨ t = 15 ∨
            t = 20 ∨ t = 21 ∨ t = 22 ∨ t = 23 ∨ t = 24 ∨ t = 25 ∨ t = 26 ∨
            t = 27 ∨ t = 28 ∨ t = 29 ∨ t = 30 ∨ t = 31 ∨ t = 32) as Hcases by lia.
    repeat (destruct Hcases as [->|Hcases]; [reflexivity|]).
    by subst.
  - unfold CONCEPT_NODE, TYPED_VARIABLE_NODE, ORDERED_LINK, SUBSET_LINK.
    intros Ht. unfold atom_type_to_string.
    repeat (match goal with
            | |- context [?a =? ?b] =>
                destruct (Z.eqb_spec a b) as [Heq|?];
                [first [reflexivity
                       | exfalso; apply Ht; rewrite Heq; vm_compute;
                         first [left; split; discriminate
                               | right; split; discriminate]]|]
            end).
    reflexivity.
Qed.

(** X16: a name that [string_to_atom_type] accepts is the name that
    [atom_type_to_string] prints for the type it stands for; a nil string
    is [ATOM_INVALID]. *)
Theorem atom_name_round_trip (s : string) :
  string_to_atom_type (Some s) ≠ ATOM_INVALID →
  atom_type_to_string (string_to_atom_type (Some s)) = s ∧
  string_to_atom_type None = ATOM_INVALID.
Proof.
  intros Hvalid. split; [|reflexivity]. revert Hvalid.
  unfold string_to_atom_type.
  repeat (match goal with
          | |- context [String.eqb s ?lit] =>
              destruct (String.eqb_spec s lit) as [->|?]; [reflexivity|]
          end).
  done.
Qed.

Lemma atom_type_round_trip_witness :
  string_to_atom_type (Some (atom_type_to_string INHERITANCE_LINK))
    = INHERITANCE_LINK.
Proof.
  apply (proj1 (atom_type_round_trip INHERITANCE_LINK)).
  right. unfold ORDERED_LINK, INHERITANCE_LINK, SUBSET_LINK. lia.
Defined.

Lemma atom_name_round_trip_witness :
  atom_type_to_string (string_to_atom_type (Some "PredicateNode")) = "PredicateNode" ∧
  string_to_atom_type None = ATOM_INVALID.
Proof. apply (atom_name_round_trip "PredicateNode"). discriminate. Defined.

Lemma count_chars_nil f : count_chars f String.EmptyString = 0.
Proof. reflexivity. Qed.

Lemma count_chars_cons f ch s :
  Ascii.eqb ch Chars.NUL = false →
  count_chars f (String.String ch s)
    = (if f ch then 1 else 0) + count_chars f s.
Proof.
  intros Hnul. unfold count_chars. simpl. rewrite Hnul.
  rewrite filter_cons. destruct (f ch) eqn:Hf.
  - rewrite decide_True by done. simpl. lia.
  - rewrite decide_False by (by intros ?). lia.
Qed.

Lemma count_chars_NUL f ch s :
  Ascii.eqb ch Chars.NUL = true → count_chars f (String.String ch s) = 0.
Proof. intros Hnul. unfold count_chars. simpl. by rewrite Hnul. Qed.

Lemma count_chars_bounds f s :
  0 ≤ count_chars f s ≤ Z.of_nat (length (c_chars s)).
Proof.
  unfold count_chars. split; [lia|].
  apply inj_le. apply length_filter.
Qed.

Lemma char_classes ch :
  (is_open ch = true → is_close ch = false ∧ is_quote ch = false) ∧
  (is_close ch = true → is_quote ch = false).
Proof.
  unfold is_open, is_close, is_quote. split.
  - intros H. apply orb_true_iff in H as [H|H];
      [apply orb_true_iff in H as [H|H]|];
      apply Ascii.eqb_eq in H; by subst.
  - intros H. apply orb_true_iff in H as [H|H];
      [apply orb_true_iff in H as [H|H]|];
      apply Ascii.eqb_eq in H; by subst.
Qed.

Lemma validate_scan_counts s : ∀ b q,
  q = 0 ∨ q = 1 →
  INT_MIN + Z.of_nat (length (c_chars s)) ≤ b
    ≤ INT_MAX - Z.of_nat (length (c_chars s)) →
  validate_scan s b q
    = (b + count_chars is_open s - count_chars is_close s,
       (q + count_chars is_quote s) mod 2).
Proof.
  induction s as [|ch s IH]; intros b q Hq Hb.
  - simpl. rewrite !count_chars_nil. f_equal; [lia|].
    rewrite Z.add_0_r. destruct Hq as [-> | ->]; reflexivity.
  - cbn [validate_scan].
    destruct (Ascii.eqb ch Chars.NUL) eqn:Hnul.
    { rewrite !count_chars_NUL by done. f_equal; [lia|].
      rewrite Z.add_0_r. destruct Hq as [-> | ->]; reflexivity. }
    assert (Hlen : Z.of_nat (length (c_chars (String.String ch s)))
                   = 1 + Z.of_nat (length (c_chars s))).
    { simpl. rewrite Hnul. simpl. lia. }
    rewrite Hlen in Hb. rewrite !count_chars_cons by done.
    unfold INT_MIN, INT_MAX in *.
    pose proof (char_classes ch) as [Hopen Hclose].
    destruct (is_open ch) eqn:Eo.
    { destruct (Hopen eq_refl) as [-> ->].
      rewrite wrap_int_id by (unfold INT_MIN, INT_MAX; lia).
      rewrite IH by (done || lia). f_equal; lia. }
    destruct (is_close ch) eqn:Ec.
    { rewrite (Hclose eq_refl).
      rewrite wrap_int_id by (unfold INT_MIN, INT_MAX; lia).
      rewrite IH by (done || lia). f_equal; lia. }
    destruct (is_quote ch) eqn:Eq.
    { rewrite wrap_int_id by (unfold INT_MIN, INT_MAX; lia).
      rewrite IH by (lia || (destruct Hq; lia)).
      assert (Hmod : (1 - q + count_chars is_quote s) mod 2
                     = (q + (1 + count_chars is_quote s)) mod 2).
      { destruct Hq as [-> | ->].
        - f_equal; lia.
        - replace (1 + (1 + count_chars is_quote s))
            with (count_chars is_quote s + 1 * 2) by lia.
          rewrite Z_mod_plus_full. f_equal; lia. }
      rewrite Hmod. f_equal; lia. }
    rewrite IH by (done || lia). f_equal; lia.
Qed.

(** X17: [cognitive_grammar_validate] accepts a sentence (of at most
    [INT_MAX] characters) exactly when it has as many opening as closing
    brackets, of whatever kind and in whatever order, and an even number
    of double quotes.  Neither the nesting, nor the pairing of bracket
    kinds, nor quoting is checked; a nil grammar or sentence is rejected. *)
Theorem validate_counts_brackets (cg : CognitiveGrammar) (s : string) :
  Z.of_nat (length (c_chars s)) ≤ INT_MAX →
  (cognitive_grammar_validate (Some cg) (Some s) = 1 ↔
     count_chars is_open s = count_chars is_close s ∧
     Z.even (count_chars is_quote s) = true) ∧
  (cognitive_grammar_validate (Some cg) (Some s) = 1 ∨
   cognitive_grammar_validate (Some cg) (Some s) = 0) ∧
  cognitive_grammar_validate None (Some s) = 0 ∧
  cognitive_grammar_validate (Some cg) None = 0.
Proof.
  intros Hlen. unfold cognitive_grammar_validate.
  rewrite validate_scan_counts by (unfold INT_MIN, INT_MAX in *; lia).
  rewrite !Z.add_0_l. rewrite (Zmod_even (count_chars is_quote s)).
  split_and!; try done.
  - destruct (Z.eqb_spec (count_chars is_open s - count_chars is_close s) 0)
      as [Hb|Hb]; destruct (Z.even (count_chars is_quote s)); simpl;
      split; try done; try lia; intros [? ?]; try lia; done.
  - destruct (_ && _); auto.
Qed.

Lemma validate_counts_brackets_witness :
  (cognitive_grammar_validate (Some (mkCognitiveGrammar 0 "" 8192 0 None None))
     (Some ")x(]") = 1 ↔
     count_chars is_open ")x(]" = count_chars is_close ")x(]" ∧
     Z.even (count_chars is_quote ")x(]") = true) ∧
  (cognitive_grammar_validate (Some (mkCognitiveGrammar 0 "" 8192 0 None None))
     (Some ")x(]") = 1 ∨
   cognitive_grammar_validate (Some (mkCognitiveGrammar 0 "" 8192 0 None None))
     (Some ")x(]") = 0) ∧
  cognitive_grammar_validate None (Some ")x(]") = 0 ∧
  cognitive_grammar_validate (Some (mkCognitiveGrammar 0 "" 8192 0 None None)) None = 0.
Proof.
  apply (validate_counts_brackets (mkCognitiveGrammar 0 "" 8192 0 None None) ")x(]").
  unfold INT_MAX. simpl. lia.
Defined.

(** * The buffer that chancreate allocates *)

Section Creation.
Context {V : Type}.
Implicit Types (h : gmap nat (Channel V)) (ch : Channel V) (x : V).

(** When [elemsize * bufsize] does not fit an [int], the buffer has fewer
    slots than the capacity. *)
Lemma buf_slots_wrapped es bs :
  0 < es → 0 < bs → INT_MAX < es * bs → 0 ≤ wrap_int (es * bs) →
  Z.of_nat (buf_slots es bs (wrap_int (es * bs))) < bs.
Proof.
  intros Hes Hbs Hbig Hn. unfold buf_slots.
  destruct (0 <? es) eqn:E; [|lia].
  assert (Hmax : wrap_int (es * bs) ≤ INT_MAX).
  { unfold wrap_int, INT_MAX.
    pose proof (Z.mod_pos_bound (es * bs + 2147483648) 4294967296). lia. }
  unfold size_t. rewrite Z.mod_small by (unfold INT_MAX in *; lia).
  assert (wrap_int (es * bs) / es < bs)
    by (apply Z.div_lt_upper_bound; lia).
  assert (0 ≤ wrap_int (es * bs) / es) by (apply Z.div_pos; lia).
  assert (0 ≤ INT_MAX / es) by (apply Z.div_pos; unfold INT_MAX; lia).
  lia.
Qed.

(** A channel that has not been received from, with a buffer of fewer
    slots than its capacity: it accepts what fits into the buffer, and
    the next send writes behind the buffer. *)
Lemma short_buffer_sends a : ∀ (xs : list V) ch h b,
  h !! a = Some ch → buf ch = Some b → lock ch = false → closed ch = 0 →
  off ch = 0 → 0 ≤ nbuf ch →
  nbuf ch + Z.of_nat (length xs) = Z.of_nat (length b) →
  Z.of_nat (length b) < bufsize ch → bufsize ch ≤ INT_MAX →
  ∃ h2, send_all (Some a) xs h = Ret (replicate (length xs) 1) h2 ∧
        ∀ x, chansend (Some a) x h2 = Fault.
Proof.
  induction xs as [|x0 xs IH]; intros ch h b Ha Hb Hl Hc Ho Hn Hlen Hshort Hmax.
  - exists h. split; [done|]. intros x. simpl in Hlen |- *.
    rewrite Ha, Hl, Hc. simpl. unfold chansend_wait. rewrite Hc. simpl.
    destruct (bufsize ch <=? nbuf ch) eqn:E; [lia|].
    unfold enqueue. rewrite Hb, Ho.
    rewrite wrap_int_id by (unfold INT_MIN, INT_MAX in *; lia).
    rewrite c_rem_pos by lia. rewrite Z.mod_small by lia.
    destruct (0 + nbuf ch <? Z.of_nat (length b)) eqn:E2; [lia|].
    by rewrite andb_false_r.
  - simpl length in Hlen.
    set (ch' := mkChannel (Some (<[Z.to_nat (nbuf ch) := x0]> b)) (elemsize ch)
                  (bufsize ch) (nbuf ch + 1) 0 (lock ch) (closed ch)).
    assert (He : enqueue ch x0 = Some ch').
    { unfold enqueue. rewrite Hb, Ho.
      rewrite wrap_int_id by (unfold INT_MIN, INT_MAX in *; lia).
      rewrite c_rem_pos by lia. rewrite Z.mod_small by lia.
      destruct (0 <=? 0 + nbuf ch) eqn:E1; [|lia].
      destruct (0 + nbuf ch <? Z.of_nat (length b)) eqn:E2; [|lia].
      simpl. unfold ch'. rewrite Z.add_0_l.
      by rewrite wrap_int_id by (unfold INT_MIN, INT_MAX in *; lia). }
    assert (Hs : chansend (Some a) x0 h = Ret 1 (<[a := ch']> h)).
    { simpl. rewrite Ha, Hl, Hc. simpl. unfold chansend_wait. rewrite Hc, He.
      simpl. destruct (bufsize ch <=? nbuf ch) eqn:E; [lia|done]. }
    destruct (IH ch' (<[a := ch']> h) (<[Z.to_nat (nbuf ch) := x0]> b))
      as (h2 & Hall & Hnext); try done.
    { apply lookup_insert_eq. }
    { simpl. lia. }
    { simpl. rewrite length_insert. lia. }
    { simpl. by rewrite length_insert. }
    exists h2. split; [|done].
    cbn [send_all]. rewrite Hs. cbn [and_then]. rewrite Hall. done.
Qed.

(** X18: for a positive element size and a capacity for which
    [elemsize * bufsize] is an [int], the channel that [chancreate]
    returns is new, open, unlocked and empty, records both sizes, and has
    a buffer of exactly [bufsize] slots; in every heap reachable by calls
    it is still well-formed and unlocked, with the same capacity and
    element size. *)
Theorem chancreate_gives_working_channel es bs (m : Malloc V) h0 a h1 h2 :
  chancreate es bs m h0 = (Some a, h1) →
  0 < es → 0 ≤ bs → es * bs ≤ INT_MAX →
  rtc step h1 h2 →
  h0 !! a = None ∧
  (∃ ch, h1 !! a = Some ch ∧ chan_ok ch ∧ lock ch = false ∧ closed ch = 0 ∧
         nbuf ch = 0 ∧ off ch = 0 ∧ bufsize ch = bs ∧ elemsize ch = es ∧
         (0 < bs → ∃ b, buf ch = Some b ∧ Z.of_nat (length b) = bs)) ∧
  (∃ ch, h2 !! a = Some ch ∧ chan_ok ch ∧ lock ch = false ∧
         bufsize ch = bs ∧ elemsize ch = es).
Proof.
  intros Hc Hes Hbs Hmax Hreach.
  destruct (chancreate_ok es bs m h0 a h1 Hc Hes Hbs Hmax)
    as (ch & Ha & Hok & Hl & Hcl & Hn & Ho & Hb & He & _).
  split; [by apply chancreate_some in Hc as [? _]|]. split.
  - exists ch. split_and!; try done. intros Hpos.
    destruct (chan_ok_buf ch Hok) as (b & Hbuf & Hlen); [lia|].
    exists b. split; [done|]. by rewrite Hlen.
  - destruct (reach_invariant
                (λ c : Channel V,
                   chan_ok c ∧ lock c = false ∧ bufsize c = bs ∧ elemsize c = es) a)
      with (h := h1) (h' := h2) (ch := ch) as (ch2 & ? & ? & ? & ? & ?);
      [|done|done|done|by exists ch2].
    intros c1 c2 (Hok1 & Hl1 & Hb1 & He1) Hs.
    pose proof (chan_step_fields _ _ Hs) as (-> & -> & _ & -> & _).
    split; [by apply (chan_step_ok c1)|done].
Qed.

(** X19: [chancreate] does not check that [elemsize * bufsize] is an
    [int].  When the product is too large and wraps to a byte count that
    is not negative, the buffer has fewer slots than the capacity the
    channel records: the channel accepts some [k < bufsize] values, and
    the next send, instead of suspending the caller on a full channel,
    writes behind the buffer. *)
Theorem chancreate_wrapped_size es bs (m : Malloc V) h0 a h1 :
  chancreate es bs m h0 = (Some a, h1) →
  0 < es → 0 < bs → bs ≤ INT_MAX →
  INT_MAX < es * bs → 0 ≤ wrap_int (es * bs) →
  ∃ k : nat, Z.of_nat k < bs ∧
    ∀ xs : list V, length xs = k →
      ∃ h2, send_all (Some a) xs h1 = Ret (replicate k 1) h2 ∧
            ∀ x, chansend (Some a) x h2 = Fault.
Proof.
  intros Hc Hes Hbs Hmax Hbig Hn.
  apply chancreate_some in Hc as [_ ->].
  destruct (0 <? bs) eqn:E; [|lia]. unfold storage.
  destruct (es =? 0) eqn:E0; [lia|].
  exists (buf_slots es bs (wrap_int (es * bs))).
  split; [by apply buf_slots_wrapped|].
  intros xs Hlen.
  replace (replicate (buf_slots es bs (wrap_int (es * bs))) 1)
    with (replicate (length xs) 1) by (by rewrite Hlen).
  pose proof (buf_slots_wrapped es bs Hes Hbs Hbig Hn) as Hk.
  apply (short_buffer_sends a xs
           (mkChannel (Some (junk m <$> seq 0 (buf_slots es bs (wrap_int (es * bs)))))
              es bs 0 0 false 0) _
           (junk m <$> seq 0 (buf_slots es bs (wrap_int (es * bs)))));
    simpl; rewrite ?length_fmap, ?length_seq; try done; try lia.
  apply lookup_insert_eq.
Qed.

End Creation.

Lemma chancreate_gives_working_channel_witness :
  (∅ : gmap nat (Channel Z)) !! 0%nat = None ∧
  (∃ ch, (chancreate 4 3 always_ok ∅).2 !! 0%nat = Some ch ∧ chan_ok ch ∧
         lock ch = false ∧ closed ch = 0 ∧ nbuf ch = 0 ∧ off ch = 0 ∧
         bufsize ch = 3 ∧ elemsize ch = 4 ∧
         (0 < 3 → ∃ b, buf ch = Some b ∧ Z.of_nat (length b) = 3)) ∧
  (∃ ch, heap_of [7] 0 !! 0%nat = Some ch ∧ chan_ok ch ∧ lock ch = false ∧
         bufsize ch = 3 ∧ elemsize ch = 4).
Proof.
  apply (chancreate_gives_working_channel 4 3 always_ok ∅ 0%nat
           (chancreate 4 3 always_ok ∅).2 (heap_of [7] 0)).
  - reflexivity.
  - lia.
  - lia.
  - unfold INT_MAX. lia.
  - apply rtc_once. exists (Send 7), (Some 0%nat). reflexivity.
Defined.

Lemma chancreate_wrapped_size_witness :
  ∃ k : nat, Z.of_nat k < 4 ∧
    ∀ xs : list Z, length xs = k →
      ∃ h2, send_all (Some 0%nat) xs (chancreate 1073741824 4 always_ok ∅).2
              = Ret (replicate k 1) h2 ∧
            ∀ x, chansend (Some 0%nat) x h2 = Fault.
Proof.
  apply (chancreate_wrapped_size 1073741824 4 always_ok ∅ 0%nat).
  - reflexivity.
  - lia.
  - lia.
  - unfold INT_MAX. lia.
  - unfold INT_MAX. lia.
  - by vm_compute.
Defined.
